(** * Alignment strategies of libEM/aligner.cpp: a shallow embedding

    The aligners of [libEM/aligner.cpp] are embedded as functions in a
    small state-and-exception monad.  Conventions used throughout:

    - a C++ [int] is a [Z]; [/] on [int] is [Z.quot] (truncation towards
      zero).  No quantity of the modelled code leaves the 32-bit range for
      images whose extents are in range, so no wrap-around is written;
    - a C++ [float] or [double] is a rational [Q]: every floating-point
      operation is read as the exact operation.  Casts between [int] and
      [float] are exact for the small integers that occur (offsets bounded
      by the image extents);
    - a nullable pointer [EMData *] is an [option (EMData Pix)]; calling a
      member function through a null pointer ends the run with [NullDeref];
    - the image library (EMData, processors, comparators), libm and the
      GSL simplex minimiser are defined elsewhere; they are operations of
      the class [ImageBackend], total functions (a failure inside one of
      them is not modelled), constrained where a proof needs it by
      [ImageBackendLaws];
    - the parameter bag of the aligner ([params], a mutable member) and the
      sequence of image operations performed are the state of the monad. *)

From Stdlib Require Import ZArith QArith Qround Lia Lqa.
From stdpp Require Import gmap strings list.

Local Open Scope string_scope.
Local Open Scope list_scope.
Local Open Scope Z_scope.

(** ** Numbers *)

(** [(int) f]: conversion of a floating-point value to [int] truncates
    towards zero. *)
Definition float_to_int (f : Q) : Z :=
  if Qle_bool 0 f then Qfloor f else Qceiling f.

(** [floor(f)] of <math.h>, as a floating-point value. *)
Definition floorf (f : Q) : Q := inject_Z (Qfloor f).

Definition Qlt_bool (x y : Q) : bool := negb (Qle_bool y x).

(** [M_PI] is the double nearest to pi, a rational number. *)
Definition M_PI : Q := 884279719003555 # 281474976710656.

(** ** Exceptions *)

Inductive Exception :=
  | InvalidParameterException (desc : string)
  | ImageDimensionException (desc : string)
  | TypeException (desc : string)
  | NotExistingObjectException (desc : string).

(** ** Transform *)

(** Modelled from the spec: the Transform class (transform.h and
    transform.cpp are missing) is "a rigid motion described by type tag,
    rotation angle(s), translation vector, and a mirror flag".  The aligners
    use the 2D rotation angle [alpha], the translation and the mirror flag;
    the setters below each replace one of them. *)
Record Transform := mkTransform {
  t_alpha : Q;
  t_trans : Q * Q * Q;
  t_mirror : bool
}.

(** [Transform()] *)
Definition Transform_identity : Transform :=
  {| t_alpha := 0; t_trans := (0, 0, 0)%Q; t_mirror := false |}.

(** [Transform(Dict("type","2d","alpha",a))] *)
Definition Transform_2d (a : Q) : Transform :=
  {| t_alpha := a; t_trans := (0, 0, 0)%Q; t_mirror := false |}.

Definition set_trans (v : Q * Q * Q) (t : Transform) : Transform :=
  {| t_alpha := t_alpha t; t_trans := v; t_mirror := t_mirror t |}.

(** [set_trans(x, y)]: the third component defaults to 0. *)
Definition set_trans_xy (x y : Q) (t : Transform) : Transform :=
  set_trans (x, y, 0%Q) t.

(** [set_rotation(Dict("type","2d","alpha",a))] *)
Definition set_rotation (a : Q) (t : Transform) : Transform :=
  {| t_alpha := a; t_trans := t_trans t; t_mirror := t_mirror t |}.

Definition set_mirror (b : bool) (t : Transform) : Transform :=
  {| t_alpha := t_alpha t; t_trans := t_trans t; t_mirror := b |}.

(** [get_rotation("2d")["alpha"]] *)
Definition get_rotation_alpha (t : Transform) : Q := t_alpha t.

(** ** Processors named in aligner.cpp, with their parameters *)

Inductive Processor :=
  | math_translate_int (trans : Z * Z * Z)
  | math_transform (t : Transform)
  | math_rotate_180
  | xform_flip (axis : string)
  | math_medianshrink (n : Z).

(** ** EMObject, Dict and EMData *)

(** Modelled from the spec: emobject.h and emdata.h are missing.  An
    EMObject is a tagged value, with the tags that emobject.cpp converts
    from and the pointer to a Transform that aligner.cpp stores; an image is
    a "sample grid with size (nx,ny,nz) and a metadata map (string→value,
    including an attached Transform)", its samples being of an abstract
    type [Pix]. *)
Inductive EMObject (Pix : Type) : Type :=
  | UNKNOWN
  | INT (n : Z)
  | FLOAT (f : Q)
  | DOUBLE (d : Q)
  | STRING (s : string)
  | EMDATA (e : option (EMData Pix))
  | TRANSFORM (t : option Transform)
with EMData (Pix : Type) : Type :=
  | mkEMData (nx ny nz : Z) (attr_dict : gmap string (EMObject Pix)) (pixels : Pix).

Arguments UNKNOWN {Pix}.
Arguments INT {Pix} n.
Arguments FLOAT {Pix} f.
Arguments DOUBLE {Pix} d.
Arguments STRING {Pix} s.
Arguments EMDATA {Pix} e.
Arguments TRANSFORM {Pix} t.
Arguments mkEMData {Pix} nx ny nz attr_dict pixels.

Abbreviation Dict Pix := (gmap string (EMObject Pix)).

Section Data.
Context {Pix : Type}.

Definition get_xsize (e : EMData Pix) : Z := match e with mkEMData x _ _ _ _ => x end.
Definition get_ysize (e : EMData Pix) : Z := match e with mkEMData _ y _ _ _ => y end.
Definition get_zsize (e : EMData Pix) : Z := match e with mkEMData _ _ z _ _ => z end.
Definition attr_dict (e : EMData Pix) : Dict Pix :=
  match e with mkEMData _ _ _ a _ => a end.
Definition pixels (e : EMData Pix) : Pix := match e with mkEMData _ _ _ _ p => p end.

(** The size triple of an image. *)
Definition dims (e : EMData Pix) : Z * Z * Z := (get_xsize e, get_ysize e, get_zsize e).

(** Modelled from the spec: [EMUtil::is_same_size] (emutil.cpp is missing)
    compares the sizes, "dimension mismatch between moving and reference"
    being what the caller reports when it fails. *)
Definition is_same_size (a b : EMData Pix) : bool :=
  (get_xsize a =? get_xsize b) && (get_ysize a =? get_ysize b)
  && (get_zsize a =? get_zsize b).

Definition has_attr (key : string) (e : EMData Pix) : bool :=
  match attr_dict e !! key with Some _ => true | None => false end.

(** Modelled from the spec: "attribute get/set" ([EMData::set_attr],
    missing); only the metadata map changes. *)
Definition set_attr (key : string) (v : EMObject Pix) (e : EMData Pix) : EMData Pix :=
  mkEMData (get_xsize e) (get_ysize e) (get_zsize e) (<[key := v]> (attr_dict e)) (pixels e).

(** *** Conversions of an EMObject (emobject.cpp) *)

Definition EMObject_to_int (o : EMObject Pix) : Exception + Z :=
  match o with
  | INT n => inr n
  | FLOAT f => inr (float_to_int f)
  | DOUBLE d => inr (float_to_int d)
  | UNKNOWN => inr 0
  | _ => inl (TypeException "Cannot convert to int this data type ")
  end.

Definition EMObject_to_float (o : EMObject Pix) : Exception + Q :=
  match o with
  | FLOAT f => inr f
  | INT n => inr (inject_Z n)
  | DOUBLE d => inr d
  | UNKNOWN => inr 0%Q
  | _ => inl (TypeException "Cannot convert to float from this data type")
  end.

Definition EMObject_to_EMData (o : EMObject Pix) : Exception + option (EMData Pix) :=
  match o with
  | EMDATA e => inr e
  | UNKNOWN => inr None
  | _ => inl (TypeException "Cannot convert to EMData* from this data type")
  end.

(** Modelled from the spec: the conversion to [Transform *], missing from
    emobject.cpp, yields "an attached Transform"; it follows the pattern of
    the conversion to [EMData *]. *)
Definition EMObject_to_Transform (o : EMObject Pix) : Exception + option Transform :=
  match o with
  | TRANSFORM t => inr t
  | UNKNOWN => inr None
  | _ => inl (TypeException "Cannot convert to Transform* from this data type")
  end.

(** *** Dict *)

(** Modelled from the spec: the configuration bag is a "named option set
    with per-aligner defaults"; [Dict::set_default(key, val)] (emobject.h,
    missing) stores [val] when the key is absent and returns the value
    held under the key. *)
Definition Dict_set_default (key : string) (v : EMObject Pix) (d : Dict Pix)
  : EMObject Pix * Dict Pix :=
  match d !! key with
  | Some o => (o, d)
  | None => (v, <[key := v]> d)
  end.

(** Modelled from the spec: the non-const [Dict::operator[]] (emobject.h,
    missing) is that of the std::map it wraps: an absent key gets a
    default-constructed EMObject, of type UNKNOWN. *)
Definition Dict_index (key : string) (d : Dict Pix) : EMObject Pix * Dict Pix :=
  match d !! key with
  | Some o => (o, d)
  | None => (UNKNOWN, <[key := UNKNOWN]> d)
  end.

End Data.

(** ** Operations on images, as recorded in the run

    [EvMaxLocation] carries the bounds handed to [calc_max_location_wrap]
    and the peak it returned. *)

Inductive Event :=
  | EvCalcCcf
  | EvZeroCorner
  | EvMaxLocation (mx my mz : Z) (peak : Z * Z * Z)
  | EvProcess (p : Processor)
  | EvSetAttr (key : string)
  | EvFootprint (mode : Z)
  | EvCalcCcfx
  | EvFindMax
  | EvCmp
  | EvCopy
  | EvUnwrap
  | EvRotateX
  | EvTransform (t : Transform)
  | EvMinimizerSet
  | EvMinimizerIterate.

(** ** The monad: state (parameter bag, operations so far) and exceptions *)

Inductive outcome (A : Type) : Type :=
  | Ok (a : A)
  | Throw (e : Exception)
  | NullDeref
  | OutOfFuel.

Arguments Ok {A} a.
Arguments Throw {A} e.
Arguments NullDeref {A}.
Arguments OutOfFuel {A}.

Record State (Pix : Type) := mkState {
  params : Dict Pix;
  trace : list Event
}.

Arguments mkState {Pix} params trace.
Arguments params {Pix} s.
Arguments trace {Pix} s.

Definition M (Pix A : Type) : Type := State Pix -> outcome A * State Pix.

Section Monad.
Context {Pix : Type}.

Definition ret {A} (a : A) : M Pix A := fun s => (Ok a, s).

Definition bind {A B} (m : M Pix A) (k : A -> M Pix B) : M Pix B :=
  fun s =>
    match m s with
    | (Ok a, s') => k a s'
    | (Throw e, s') => (Throw e, s')
    | (NullDeref, s') => (NullDeref, s')
    | (OutOfFuel, s') => (OutOfFuel, s')
    end.

Definition throw {A} (e : Exception) : M Pix A := fun s => (Throw e, s).

Definition out_of_fuel {A} : M Pix A := fun s => (OutOfFuel, s).

(** [p->...] on a possibly null pointer. *)
Definition deref {A} (p : option A) : M Pix A :=
  fun s => match p with Some a => (Ok a, s) | None => (NullDeref, s) end.

(** Records one operation of the image library. *)
Definition emit (ev : Event) : M Pix unit :=
  fun s => (Ok tt, mkState (params s) (trace s ++ [ev])).

(** A conversion of an EMObject that may throw. *)
Definition lift_conv {A} (r : Exception + A) : M Pix A :=
  match r with inr a => ret a | inl e => throw e end.

(** [params.set_default(key, v)], before the conversion of its result. *)
Definition set_default (key : string) (v : EMObject Pix) : M Pix (EMObject Pix) :=
  fun s => let '(o, d) := Dict_set_default key v (params s) in
           (Ok o, mkState d (trace s)).

(** [params[key]], before the conversion of its result. *)
Definition index (key : string) : M Pix (EMObject Pix) :=
  fun s => let '(o, d) := Dict_index key (params s) in
           (Ok o, mkState d (trace s)).

(** Runs [m] as a method of a fresh aligner object whose parameter bag is
    [p] (as [EMData::align] does through the Factory); the caller's own bag
    is untouched, the recorded operations accumulate.  The comparator name
    is handed on as given. *)
Definition with_params {A} (p : Dict Pix) (m : M Pix A) : M Pix A :=
  fun s => let '(o, s') := m (mkState p (trace s)) in
           (o, mkState (params s) (trace s')).

End Monad.

Notation "x <- m ;; k" := (bind m (fun x => k))
  (at level 100, m at next level, right associativity).
Notation "m ;;; k" := (bind m (fun _ => k))
  (at level 100, right associativity).

(** ** The collaborators of the aligners

    None of these is defined in aligner.cpp.  [process] is
    [EMData::process(name, params)] for the processors above (a new image),
    [process_inplace] its in-place variant, [cmp] is
    [EMData::cmp(cmp_name, with, cmp_params)], [find_max] is
    [Util::find_max(data, n, &peak, &index)], the [fminimizer_*] operations
    are those of the GSL multidimensional minimiser, and [atan2f],
    [deg2rad], [rad2deg] stand for [atan2] of libm and the constants of
    [EMConsts]. *)

Class ImageBackend (Pix : Type) := {
  calc_ccf : EMData Pix -> option (EMData Pix) -> EMData Pix;
  zero_corner_circulant : Z -> EMData Pix -> EMData Pix;
  calc_max_location_wrap : EMData Pix -> Z -> Z -> Z -> Z * Z * Z;
  process : Processor -> EMData Pix -> EMData Pix;
  process_inplace : Processor -> EMData Pix -> EMData Pix;
  make_rotational_footprint_e1 : EMData Pix -> EMData Pix;
  make_rotational_footprint : EMData Pix -> EMData Pix;
  make_rotational_footprint_cmc : EMData Pix -> EMData Pix;
  calc_ccfx : EMData Pix -> EMData Pix -> Z -> Z -> EMData Pix;
  find_max : EMData Pix -> Z -> Q * Z;
  calc_max_index : EMData Pix -> Z;
  unwrap : Z -> Z -> Z -> Z -> Z -> bool -> EMData Pix -> EMData Pix;
  rotate_x : Z -> EMData Pix -> EMData Pix;
  transform : Transform -> EMData Pix -> EMData Pix;
  cmp : string -> Dict Pix -> EMData Pix -> EMData Pix -> Q;
  dot_rotate_translate : EMData Pix -> EMData Pix -> Q -> Q -> Q -> bool -> Q;
  calc_best_fft_size : Z -> Z;
  set_pre_trans : Q * Q -> Transform -> Transform;
  atan2f : Q -> Q -> Q;
  deg2rad : Q;
  rad2deg : Q;
  fminimizer : Type;
  fminimizer_set : (Q * Q * Q -> Q) -> Q * Q * Q -> Q * Q * Q -> fminimizer;
  fminimizer_iterate : fminimizer -> Z * fminimizer;
  fminimizer_size : fminimizer -> Q;
  fminimizer_x : fminimizer -> Q * Q * Q
}.

(** Modelled from the spec: what the proofs assume of the collaborators.
    "apply-transform (producing a new image)" and the pixel operators keep
    the size of the image they are applied to ("Output: newly allocated
    image, same size as moving"); "Peak search returns the wrap-aware
    integer offset of the maximum within the bounded window"; "attribute
    get/set": applying a transform leaves the metadata map alone; and the
    factor from degrees to radians is positive. *)
Class ImageBackendLaws {Pix : Type} (B : ImageBackend Pix) : Prop := {
  process_translate_dims : forall v e, dims (process (math_translate_int v) e) = dims e;
  process_transform_dims : forall t e, dims (process (math_transform t) e) = dims e;
  process_rotate_180_dims : forall e, dims (process math_rotate_180 e) = dims e;
  process_flip_dims : forall a e, dims (process (xform_flip a) e) = dims e;
  process_inplace_rotate_180_dims : forall e, dims (process_inplace math_rotate_180 e) = dims e;
  process_inplace_flip_dims : forall a e, dims (process_inplace (xform_flip a) e) = dims e;
  transform_dims : forall t e, dims (transform t e) = dims e;
  calc_max_location_wrap_window : forall cf mx my mz,
    let '(px, py, pz) := calc_max_location_wrap cf mx my mz in
    (0 <= mx -> Z.abs px <= mx) /\ (0 <= my -> Z.abs py <= my)
    /\ (0 <= mz -> Z.abs pz <= mz);
  transform_keeps_attrs : forall t e, attr_dict (transform t e) = attr_dict e;
  deg2rad_pos : (0 < deg2rad)%Q
}.

Section Aligners.
Context {Pix : Type} {B : ImageBackend Pix}.

Implicit Types (img cf : EMData Pix) (this_img to : option (EMData Pix)).

(** Modelled from the spec: "attribute get/set" ([EMData::get_attr],
    emdata_metadata.cpp is missing) for a key held in the metadata map; an
    absent key raises. *)
Definition get_attr (key : string) (e : EMData Pix) : M Pix (EMObject Pix) :=
  match attr_dict e !! key with
  | Some o => ret o
  | None => throw (NotExistingObjectException key)
  end.

(** [t->set_...(...)] where [t] points to the Transform held under [key]:
    the update is seen through the image. *)
Definition store_transform (key : string) (t : Transform) (e : EMData Pix) : EMData Pix :=
  set_attr key (TRANSFORM (Some t)) e.

(** [Aligner::get_set_align_attr]: returns the new Transform and the image
    that now holds it. *)
Definition get_set_align_attr (key : string) (image from_image : EMData Pix)
  : M Pix (Transform * EMData Pix) :=
  t <- (if has_attr key from_image then
          o <- get_attr key from_image ;;
          p <- lift_conv (EMObject_to_Transform o) ;;
          deref p
        else ret Transform_identity) ;;
  emit (EvSetAttr key) ;;;
  ret (t, set_attr key (TRANSFORM (Some t)) image).

(** [Aligner::get_align_attr] *)
Definition get_align_attr (key : string) (image : EMData Pix)
  : M Pix (Transform * EMData Pix) :=
  if has_attr key image then
    o <- get_attr key image ;;
    p <- lift_conv (EMObject_to_Transform o) ;;
    t <- deref p ;;
    ret (t, image)
  else
    emit (EvSetAttr key) ;;;
    ret (Transform_identity, set_attr key (TRANSFORM (Some Transform_identity)) image).

(** *** TranslationalAligner *)

(** Lines 127-131: a non-positive [maxshift] selects an eighth of each
    extent. *)
Definition default_maxshift (nx ny nz : Z) (m : Z * Z * Z) : Z * Z * Z :=
  let '(maxshiftx, maxshifty, maxshiftz) := m in
  if maxshiftx <=? 0 then (nx ÷ 8, ny ÷ 8, nz ÷ 8) else m.

(** Lines 133-135: [if (maxshift > n / 2 - 1) maxshift = n / 2 - 1]. *)
Definition clamp_maxshift (n maxshift : Z) : Z :=
  if n ÷ 2 - 1 <? maxshift then n ÷ 2 - 1 else maxshift.

(** Lines 137-139: [if (n == 1) maxshift = 0]. *)
Definition unit_axis (n maxshift : Z) : Z :=
  if n =? 1 then 0 else maxshift.

(** Lines 127-139: the search bound on each axis. *)
Definition translational_maxshift (nx ny nz maxshiftx maxshifty maxshiftz : Z)
  : Z * Z * Z :=
  let '(maxshiftx, maxshifty, maxshiftz) :=
    default_maxshift nx ny nz (maxshiftx, maxshifty, maxshiftz) in
  let maxshiftx := clamp_maxshift nx maxshiftx in
  let maxshifty := clamp_maxshift ny maxshifty in
  let maxshiftz := clamp_maxshift nz maxshiftz in
  let maxshiftx := unit_axis nx maxshiftx in
  let maxshifty := unit_axis ny maxshifty in
  let maxshiftz := unit_axis nz maxshiftz in
  (maxshiftx, maxshifty, maxshiftz).

(** Line 158: [Vec3f((float)-peak[0], (float)-peak[1], (float)-peak[2])]. *)
Definition negated_peak (peak : Z * Z * Z) : Q * Q * Q :=
  let '(px, py, pz) := peak in (inject_Z (- px), inject_Z (- py), inject_Z (- pz)).

(** Line 161: [cur_trans /= 2.0f]. *)
Definition halve (v : Q * Q * Q) : Q * Q * Q :=
  let '(x, y, z) := v in ((x / 2)%Q, (y / 2)%Q, (z / 2)%Q).

(** Lines 164-166: [floor(c + 0.5f)] on each component. *)
Definition round_components (v : Q * Q * Q) : Q * Q * Q :=
  let '(x, y, z) := v in
  (floorf (x + (1 # 2)), floorf (y + (1 # 2)), floorf (z + (1 # 2)))%Q.

(** [static_cast< vector<int> >(cur_trans)] *)
Definition to_int_vector (v : Q * Q * Q) : Z * Z * Z :=
  let '(x, y, z) := v in (float_to_int x, float_to_int y, float_to_int z).

Definition TranslationalAligner_align this_img to
    (cmp_name : string) (cmp_params : Dict Pix) : M Pix (option (EMData Pix)) :=
  match this_img with
  | None => ret None
  | Some img =>
    match to with
    | Some t =>
        if negb (is_same_size img t) then
          throw (ImageDimensionException
                   "Images must be the same size to perform translational alignment")
        else ret tt
    | None => ret tt
    end ;;;
    emit EvCalcCcf ;;;
    let cf := calc_ccf img to in
    let nx := get_xsize img in
    let ny := get_ysize img in
    let nz := get_zsize img in
    o <- set_default "maxshift" (INT (-1)) ;;
    maxshiftx <- lift_conv (EMObject_to_int o) ;;
    o <- index "maxshift" ;;
    maxshifty <- lift_conv (EMObject_to_int o) ;;
    o <- index "maxshift" ;;
    maxshiftz <- lift_conv (EMObject_to_int o) ;;
    o <- index "nozero" ;;
    nozero <- lift_conv (EMObject_to_int o) ;;
    let '(maxshiftx, maxshifty, maxshiftz) :=
      translational_maxshift nx ny nz maxshiftx maxshifty maxshiftz in
    cf <- (if negb (nozero =? 0) then
             emit EvZeroCorner ;;; ret (zero_corner_circulant 1 cf)
           else ret cf) ;;
    let peak := calc_max_location_wrap cf maxshiftx maxshifty maxshiftz in
    emit (EvMaxLocation maxshiftx maxshifty maxshiftz peak) ;;;
    let cur_trans := negated_peak peak in
    cur_trans <- (match to with
                  | None =>
                      let cur_trans := halve cur_trans in
                      o <- set_default "intonly" (INT 0) ;;
                      intonly <- lift_conv (EMObject_to_int o) ;;
                      if negb (intonly =? 0) then ret (round_components cur_trans)
                      else ret cur_trans
                  | Some _ => ret cur_trans
                  end) ;;
    let p := math_translate_int (to_int_vector cur_trans) in
    emit (EvProcess p) ;;;
    let cf := process p img in
    if negb (nz =? 1) then
      r <- get_set_align_attr "xform.align3d" cf img ;;
      let '(t, cf) := r in
      ret (Some (store_transform "xform.align3d" (set_trans cur_trans t) cf))
    else if negb (ny =? 1) then
      r <- get_set_align_attr "xform.align2d" cf img ;;
      let '(t, cf) := r in
      let cur_trans := let '(x, y, _) := cur_trans in (x, y, 0%Q) in
      ret (Some (store_transform "xform.align2d" (set_trans cur_trans t) cf))
    else ret (Some cf)
  end.

(** *** RotationalAligner *)

Definition align_180_ambiguous this_img to (rfp_mode : Z) : M Pix (EMData Pix) :=
  r <- (if rfp_mode =? 0 then
          img <- deref this_img ;;
          emit (EvFootprint 0) ;;;
          t <- deref to ;;
          emit (EvFootprint 0) ;;;
          ret (make_rotational_footprint_e1 img, make_rotational_footprint_e1 t)
        else if rfp_mode =? 1 then
          img <- deref this_img ;;
          emit (EvFootprint 1) ;;;
          t <- deref to ;;
          emit (EvFootprint 1) ;;;
          ret (make_rotational_footprint img, make_rotational_footprint t)
        else if rfp_mode =? 2 then
          img <- deref this_img ;;
          emit (EvFootprint 2) ;;;
          t <- deref to ;;
          emit (EvFootprint 2) ;;;
          ret (make_rotational_footprint_cmc img, make_rotational_footprint_cmc t)
        else throw (InvalidParameterException "rfp_mode must be 0,1 or 2")) ;;
  let '(this_img_rfp, to_rfp) := r in
  let this_img_rfp_nx := get_xsize this_img_rfp in
  img <- deref this_img ;;
  emit EvCalcCcfx ;;;
  let cf := calc_ccfx this_img_rfp to_rfp 0 (get_ysize img) in
  emit EvFindMax ;;;
  let '(peak, peak_index) := find_max cf this_img_rfp_nx in
  let rot_angle := (inject_Z peak_index * 180 / inject_Z this_img_rfp_nx)%Q in
  let tmp := Transform_2d rot_angle in
  emit (EvProcess (math_transform tmp)) ;;;
  let cf := process (math_transform tmp) img in
  r <- get_set_align_attr "xform.align2d" cf img ;;
  let '(t, cf) := r in
  ret (store_transform "xform.align2d" (set_rotation rot_angle t) cf).

(** Lines 256-273, "Decide on the result". *)
Definition RotationalAligner_decide (rot_aligned rot_align_180 : EMData Pix)
    (rot_cmp rot_180_cmp rotate_angle_solution : Q) : M Pix (option (EMData Pix)) :=
  let '(result, rotate_angle_solution) :=
    if Qlt_bool rot_cmp rot_180_cmp then (rot_aligned, rotate_angle_solution)
    else (rot_align_180, (rotate_angle_solution - 180)%Q) in
  r <- get_align_attr "xform.align2d" result ;;
  let '(t, result) := r in
  ret (Some (store_transform "xform.align2d" (set_rotation rotate_angle_solution t) result)).

(** Lines 238-254: the two rotational candidates, their scores and the
    angle of the first. *)
Definition RotationalAligner_candidates this_img to
    (cmp_name : string) (cmp_params : Dict Pix)
  : M Pix (EMData Pix * EMData Pix * Q * Q * Q) :=
  match to with
  | None => throw (InvalidParameterException
                     "Can not rotational align - the image to align to is NULL")
  | Some t =>
    o <- set_default "rfp_mode" (INT 0) ;;
    rfp_mode <- lift_conv (EMObject_to_int o) ;;
    rot_aligned <- align_180_ambiguous this_img to rfp_mode ;;
    o <- get_attr "xform.align2d" rot_aligned ;;
    p <- lift_conv (EMObject_to_Transform o) ;;
    tmp <- deref p ;;
    let rotate_angle_solution := get_rotation_alpha tmp in
    emit (EvProcess math_rotate_180) ;;;
    let rot_align_180 := process math_rotate_180 rot_aligned in
    emit EvCmp ;;;
    let rot_cmp := cmp cmp_name cmp_params rot_aligned t in
    emit EvCmp ;;;
    let rot_180_cmp := cmp cmp_name cmp_params rot_align_180 t in
    ret (rot_aligned, rot_align_180, rot_cmp, rot_180_cmp, rotate_angle_solution)
  end.

Definition RotationalAligner_align this_img to
    (cmp_name : string) (cmp_params : Dict Pix) : M Pix (option (EMData Pix)) :=
  c <- RotationalAligner_candidates this_img to cmp_name cmp_params ;;
  let '(rot_aligned, rot_align_180, rot_cmp, rot_180_cmp, rotate_angle_solution) := c in
  RotationalAligner_decide rot_aligned rot_align_180 rot_cmp rot_180_cmp
                           rotate_angle_solution.

(** *** RotatePrecenterAligner

    [this_img->transform(...)] changes the moving image of the caller in
    place; the image returned is [cf]. *)
Definition RotatePrecenterAligner_align this_img to
    (cmp_name : string) (cmp_params : Dict Pix) : M Pix (option (EMData Pix)) :=
  match to with
  | None => ret None
  | Some t =>
    img <- deref this_img ;;
    let ny := get_ysize img in
    let size := calc_best_fft_size (float_to_int (M_PI * inject_Z ny * (3 # 2))%Q) in
    emit EvUnwrap ;;;
    let e1 := unwrap 4 (ny * 7 ÷ 16) size 0 0 true img in
    emit EvUnwrap ;;;
    let e2 := unwrap 4 (ny * 7 ÷ 16) size 0 0 true t in
    emit EvCalcCcfx ;;;
    let cf := calc_ccfx e1 e2 0 ny in
    emit EvFindMax ;;;
    let '(peak, peak_index) := find_max cf size in
    let a := ((1 - 1 * inject_Z peak_index / inject_Z size) * 180 * 2)%Q in
    let tr := Transform_2d (a * 180 / M_PI)%Q in
    emit (EvTransform tr) ;;;
    let img := transform tr img in
    r <- get_set_align_attr "xform.align2d" cf img ;;
    let '(t, cf) := r in
    ret (Some (store_transform "xform.align2d" (set_rotation (- a)%Q t) cf))
  end.

(** *** RotateTranslateAligner *)

(** Lines 349-373, "Finally decide on the result". *)
Definition RotateTranslateAligner_decide (rot_trans rot_180_trans : EMData Pix)
    (cmp1 cmp2 rotate_angle_solution : Q) : M Pix (option (EMData Pix)) :=
  let '(result, rotate_angle_solution) :=
    if Qlt_bool cmp1 cmp2 then (rot_trans, rotate_angle_solution)
    else (rot_180_trans, (rotate_angle_solution - 180)%Q) in
  o <- get_attr "xform.align2d" result ;;
  p <- lift_conv (EMObject_to_Transform o) ;;
  t <- deref p ;;
  ret (Some (store_transform "xform.align2d" (set_rotation rotate_angle_solution t) result)).

Definition RotateTranslateAligner_candidates this_img to
    (cmp_name : string) (cmp_params : Dict Pix)
  : M Pix (EMData Pix * EMData Pix * Q * Q * Q) :=
  o <- set_default "rfp_mode" (INT 0) ;;
  rfp_mode <- lift_conv (EMObject_to_int o) ;;
  rot_align <- align_180_ambiguous this_img to rfp_mode ;;
  o <- get_attr "xform.align2d" rot_align ;;
  p <- lift_conv (EMObject_to_Transform o) ;;
  tmp <- deref p ;;
  let rotate_angle_solution := get_rotation_alpha tmp in
  emit EvCopy ;;;
  let rot_align_180 := rot_align in
  emit (EvProcess math_rotate_180) ;;;
  let rot_align_180 := process_inplace math_rotate_180 rot_align_180 in
  o <- set_default "maxshift" (INT (-1)) ;;
  maxshift <- lift_conv (EMObject_to_int o) ;;
  o <- set_default "nozero" (INT 0) ;;
  nozero <- lift_conv (EMObject_to_int o) ;;
  let trans_params : Dict Pix :=
    <["nozero" := INT (if nozero =? 0 then 0 else 1)]>
      (<["maxshift" := INT maxshift]> (<["intonly" := INT 0]> ∅)) in
  rot_trans <- with_params trans_params
                 (TranslationalAligner_align (Some rot_align) to cmp_name cmp_params) ;;
  rot_180_trans <- with_params trans_params
                     (TranslationalAligner_align (Some rot_align_180) to cmp_name cmp_params) ;;
  rot_trans <- deref rot_trans ;;
  t <- deref to ;;
  emit EvCmp ;;;
  let cmp1 := cmp cmp_name cmp_params rot_trans t in
  rot_180_trans <- deref rot_180_trans ;;
  emit EvCmp ;;;
  let cmp2 := cmp cmp_name cmp_params rot_180_trans t in
  ret (rot_trans, rot_180_trans, cmp1, cmp2, rotate_angle_solution).

Definition RotateTranslateAligner_align this_img to
    (cmp_name : string) (cmp_params : Dict Pix) : M Pix (option (EMData Pix)) :=
  c <- RotateTranslateAligner_candidates this_img to cmp_name cmp_params ;;
  let '(rot_trans, rot_180_trans, cmp1, cmp2, rotate_angle_solution) := c in
  RotateTranslateAligner_decide rot_trans rot_180_trans cmp1 cmp2 rotate_angle_solution.

(** *** RotateTranslateFlipAligner *)

(** Lines 407-425, "Now finally decide on what is the best answer". *)
Definition RotateTranslateFlipAligner_decide
    (rot_trans_align rot_trans_align_flip : EMData Pix) (cmp1 cmp2 : Q)
  : M Pix (option (EMData Pix)) :=
  if Qlt_bool cmp1 cmp2 then ret (Some rot_trans_align)
  else
    emit (EvProcess (xform_flip "x")) ;;;
    ret (Some (process_inplace (xform_flip "x") rot_trans_align_flip)).

(** The mirrored reference: the [flip] parameter when given, else the
    reference flipped about x. *)
Definition flipped_reference (flip to : option (EMData Pix)) : M Pix (EMData Pix) :=
  match flip with
  | Some f => ret f
  | None =>
      t <- deref to ;;
      emit (EvProcess (xform_flip "x")) ;;;
      ret (process (xform_flip "x") t)
  end.

Definition RotateTranslateFlipAligner_candidates this_img to
    (cmp_name : string) (cmp_params : Dict Pix)
  : M Pix (EMData Pix * EMData Pix * Q * Q) :=
  o1 <- index "maxshift" ;;
  o2 <- set_default "rfp_mode" (INT 0) ;;
  rfp_mode <- lift_conv (EMObject_to_int o2) ;;
  let rt_params : Dict Pix := <["rfp_mode" := INT rfp_mode]> (<["maxshift" := o1]> ∅) in
  img <- deref this_img ;;
  rot_trans_align <- with_params rt_params
      (RotateTranslateAligner_align (Some img) to cmp_name cmp_params) ;;
  o <- set_default "flip" (EMDATA None) ;;
  flip <- lift_conv (EMObject_to_EMData o) ;;
  flipped <- flipped_reference flip to ;;
  rot_trans_align_flip <- with_params rt_params
      (RotateTranslateAligner_align (Some img) (Some flipped) cmp_name cmp_params) ;;
  rot_trans_align_flip <- deref rot_trans_align_flip ;;
  r <- get_align_attr "xform.align2d" rot_trans_align_flip ;;
  let '(t, rot_trans_align_flip) := r in
  let rot_trans_align_flip :=
    store_transform "xform.align2d" (set_mirror true t) rot_trans_align_flip in
  rot_trans_align <- deref rot_trans_align ;;
  t <- deref to ;;
  emit EvCmp ;;;
  let cmp1 := cmp cmp_name cmp_params rot_trans_align t in
  emit EvCmp ;;;
  let cmp2 := cmp cmp_name cmp_params rot_trans_align_flip flipped in
  ret (rot_trans_align, rot_trans_align_flip, cmp1, cmp2).

Definition RotateTranslateFlipAligner_align this_img to
    (cmp_name : string) (cmp_params : Dict Pix) : M Pix (option (EMData Pix)) :=
  c <- RotateTranslateFlipAligner_candidates this_img to cmp_name cmp_params ;;
  let '(rot_trans_align, rot_trans_align_flip, cmp1, cmp2) := c in
  RotateTranslateFlipAligner_decide rot_trans_align rot_trans_align_flip cmp1 cmp2.

(** *** RotateFlipAligner *)

(** Lines 449-469. *)
Definition RotateFlipAligner_decide (r1 r2 : EMData Pix) (cmp1 cmp2 : Q)
  : M Pix (option (EMData Pix)) :=
  if Qlt_bool cmp1 cmp2 then ret (Some r1)
  else
    emit (EvProcess (xform_flip "x")) ;;;
    ret (Some (process_inplace (xform_flip "x") r2)).

Definition RotateFlipAligner_candidates this_img to
    (cmp_name : string) (cmp_params : Dict Pix)
  : M Pix (EMData Pix * EMData Pix * Q * Q) :=
  o <- set_default "rfp_mode" (INT 0) ;;
  rfp_mode <- lift_conv (EMObject_to_int o) ;;
  let rot_params : Dict Pix := <["rfp_mode" := INT rfp_mode]> ∅ in
  img <- deref this_img ;;
  r1 <- with_params rot_params
      (RotationalAligner_align (Some img) to cmp_name cmp_params) ;;
  t <- deref to ;;
  emit (EvProcess (xform_flip "x")) ;;;
  let flipped := process (xform_flip "x") t in
  r2 <- with_params rot_params
      (RotationalAligner_align (Some img) (Some flipped) cmp_name cmp_params) ;;
  r2 <- deref r2 ;;
  r <- get_align_attr "xform.align2d" r2 ;;
  let '(tr, r2) := r in
  let r2 := store_transform "xform.align2d" (set_mirror true tr) r2 in
  r1 <- deref r1 ;;
  emit EvCmp ;;;
  let cmp1 := cmp cmp_name cmp_params r1 t in
  emit EvCmp ;;;
  let cmp2 := cmp cmp_name cmp_params r2 flipped in
  ret (r1, r2, cmp1, cmp2).

Definition RotateFlipAligner_align this_img to
    (cmp_name : string) (cmp_params : Dict Pix) : M Pix (option (EMData Pix)) :=
  c <- RotateFlipAligner_candidates this_img to cmp_name cmp_params ;;
  let '(r1, r2, cmp1, cmp2) := c in
  RotateFlipAligner_decide r1 r2 cmp1 cmp2.

(** *** Loops of the exhaustive searches *)

(** [for (int i = lo; i <= hi; i += 1) s = body(i, s)] *)
Fixpoint for_each {A S} (l : list A) (body : A -> S -> M Pix S) (s : S) : M Pix S :=
  match l with
  | [] => ret s
  | a :: l => s' <- body a s ;; for_each l body s'
  end.

Definition for_int {S} (lo hi : Z) (body : Z -> S -> M Pix S) (s : S) : M Pix S :=
  for_each (seqZ lo (hi - lo + 1)) body s.

(** [for (float x = lo; x <= hi; x += step) s = body(x, s)], by fuel. *)
Fixpoint for_float {S} (fuel : nat) (x hi step : Q) (body : Q -> S -> M Pix S) (s : S)
  : M Pix S :=
  match fuel with
  | O => out_of_fuel
  | S fuel =>
      if Qle_bool x hi then
        s' <- body x s ;;
        for_float fuel (x + step)%Q hi step body s'
      else ret s
  end.

(** Fuel that suffices for a loop from [lo] to [hi] by a positive [step]. *)
Definition float_loop_fuel (lo hi step : Q) : nat :=
  (Z.to_nat (Qfloor ((hi - lo) / step)) + 2)%nat.

(** [hypot(dx, dy) <= m], read exactly. *)
Definition hypot_le (dx dy m : Q) : bool :=
  Qle_bool 0 m && Qle_bool (dx * dx + dy * dy) (m * m).

Definition FLT_MAX : Q := inject_Z 340282346638528859811704183484516925440.

(** The running best of a search: [bestval], [bestang], [bestdx],
    [bestdy], [bestflip]. *)
Record Best := mkBest {
  bestval : Q;
  bestang : Q;
  bestdx : Q;
  bestdy : Q;
  bestflip : Z
}.

(** [if (cm < bestval) { bestval = cm; bestang = ang; ... }] *)
Definition improve (cm ang dx dy : Q) (flip : Z) (b : Best) : Best :=
  if Qlt_bool cm (bestval b) then mkBest cm ang dx dy flip else b.

(** *** RTFExhaustiveAligner *)

(** One candidate offset of either stage: lines 558-617 and 663-722. *)
Definition rtf_exhaustive_candidate (src ref ref_copy ref_flip ref_flip_copy : EMData Pix)
    (r2 xs : Z) (cmp_name : string) (cmp_params : Dict Pix) (dx dy : Q) (b : Best)
  : M Pix Best :=
  emit EvUnwrap ;;;
  let uw := unwrap 4 r2 xs (float_to_int dx) (float_to_int dy) true src in
  emit EvCopy ;;;
  let uwc := uw in
  emit EvCalcCcfx ;;;
  let a := calc_ccfx uw ref 0 (-1) in
  emit EvRotateX ;;;
  let uwc := rotate_x (calc_max_index a) uwc in
  emit EvCmp ;;;
  let cm := cmp cmp_name cmp_params uwc ref_copy in
  let ang := (2 * M_PI * inject_Z (calc_max_index a) / inject_Z (get_xsize a))%Q in
  let b := improve cm ang dx dy 0 b in
  emit EvUnwrap ;;;
  let uw := unwrap 4 r2 xs (float_to_int dx) (float_to_int dy) true src in
  emit EvCopy ;;;
  let uwc := uw in
  emit EvCalcCcfx ;;;
  let a := calc_ccfx uw ref_flip 0 (-1) in
  emit EvRotateX ;;;
  let uwc := rotate_x (calc_max_index a) uwc in
  emit EvCmp ;;;
  let cm := cmp cmp_name cmp_params uwc ref_flip_copy in
  let ang := (2 * M_PI * inject_Z (calc_max_index a) / inject_Z (get_xsize a))%Q in
  ret (improve cm ang dx dy 1 b).

Definition RTFExhaustiveAligner_align this_img to
    (cmp_name : string) (cmp_params : Dict Pix) : M Pix (option (EMData Pix)) :=
  o <- set_default "flip" (EMDATA None) ;;
  flip <- lift_conv (EMObject_to_EMData o) ;;
  img <- deref this_img ;;
  o <- set_default "maxshift" (INT (get_xsize img ÷ 8)) ;;
  maxshift <- lift_conv (EMObject_to_int o) ;;
  if maxshift <? 2 then
    throw (InvalidParameterException "maxshift must be greater than or equal to 2")
  else
    let ny := get_ysize img in
    let xst := float_to_int (floorf (2 * M_PI * inject_Z ny)%Q) in
    let xst := calc_best_fft_size xst in
    let d := math_medianshrink 2 in
    t <- deref to ;;
    emit (EvProcess d) ;;;
    let to_shrunk_unwrapped := process d t in
    let to_copy_r2 := get_ysize to_shrunk_unwrapped ÷ 2 - 2 - maxshift ÷ 2 in
    emit EvUnwrap ;;;
    let to_shrunk_unwrapped := unwrap 4 to_copy_r2 (xst ÷ 2) 0 0 true to_shrunk_unwrapped in
    emit EvCopy ;;;
    let to_shrunk_unwrapped_copy := to_shrunk_unwrapped in
    emit EvUnwrap ;;;
    let to_unwrapped := unwrap 4 (get_ysize t ÷ 2 - 2 - maxshift) xst 0 0 true t in
    emit EvCopy ;;;
    let to_unwrapped_copy := to_unwrapped in
    flipped <- flipped_reference flip to ;;
    emit (EvProcess d) ;;;
    let to_shrunk_flipped_unwrapped := process d flipped in
    emit EvUnwrap ;;;
    let to_shrunk_flipped_unwrapped :=
      unwrap 4 to_copy_r2 (xst ÷ 2) 0 0 true to_shrunk_flipped_unwrapped in
    emit EvCopy ;;;
    let to_shrunk_flipped_unwrapped_copy := to_shrunk_flipped_unwrapped in
    emit EvUnwrap ;;;
    let to_flip_unwrapped :=
      unwrap 4 (get_ysize t ÷ 2 - 2 - maxshift) xst 0 0 true flipped in
    emit EvCopy ;;;
    let to_flip_unwrapped_copy := to_flip_unwrapped in
    emit (EvProcess d) ;;;
    let this_shrunk_2 := process d img in
    let best := mkBest FLT_MAX 0 0 0 0 in
    let half_maxshift := maxshift ÷ 2 in
    let ur2 := get_ysize this_shrunk_2 ÷ 2 - 2 - half_maxshift in
    best <- for_int (- half_maxshift) half_maxshift (fun dy best =>
              for_int (- half_maxshift) half_maxshift (fun dx best =>
                if hypot_le (inject_Z dx) (inject_Z dy) (inject_Z half_maxshift) then
                  rtf_exhaustive_candidate this_shrunk_2
                    to_shrunk_unwrapped to_shrunk_unwrapped_copy
                    to_shrunk_flipped_unwrapped to_shrunk_flipped_unwrapped_copy
                    ur2 (xst ÷ 2) cmp_name cmp_params (inject_Z dx) (inject_Z dy) best
                else ret best) best) best ;;
    let best := mkBest FLT_MAX (bestang best) (bestdx best * 2)%Q (bestdy best * 2)%Q
                       (bestflip best) in
    let bestdx2 := bestdx best in
    let bestdy2 := bestdy best in
    best <- for_float 8 (bestdy2 - 3)%Q (bestdy2 + 3)%Q 1 (fun dy best =>
              for_float 8 (bestdx2 - 3)%Q (bestdx2 + 3)%Q 1 (fun dx best =>
                if hypot_le dx dy (inject_Z maxshift) then
                  rtf_exhaustive_candidate img
                    to_unwrapped to_unwrapped_copy
                    to_flip_unwrapped to_flip_unwrapped_copy
                    (get_ysize img ÷ 2 - 2 - maxshift) xst cmp_name cmp_params dx dy best
                else ret best) best) best ;;
    let bestang := (bestang best * rad2deg)%Q in
    let t := Transform_2d bestang in
    let t := set_pre_trans ((- bestdx best)%Q, (- bestdy best)%Q) t in
    let t := if negb (bestflip best =? 0) then set_mirror true t else t in
    emit EvCopy ;;;
    let ret_img := img in
    emit (EvTransform t) ;;;
    let ret_img := transform t ret_img in
    emit (EvSetAttr "xform.align2d") ;;;
    ret (Some (set_attr "xform.align2d" (TRANSFORM (Some t)) ret_img)).

(** *** RTFSlowExhaustiveAligner *)

(** One candidate pose of either stage: lines 802-825 and 859-883. *)
Definition rtf_slow_candidate (src ref ref_flip : EMData Pix)
    (cmp_name : string) (cmp_params : Dict Pix) (dx dy ang : Q) (b : Best)
  : M Pix Best :=
  emit EvCopy ;;;
  let v := src in
  let t := set_trans_xy dx dy (Transform_2d (ang * rad2deg)%Q) in
  emit (EvTransform t) ;;;
  let v := transform t v in
  emit EvCmp ;;;
  let lc := cmp cmp_name cmp_params v ref in
  let b := improve lc ang dx dy 0 b in
  emit EvCmp ;;;
  let lc := cmp cmp_name cmp_params v ref_flip in
  ret (improve lc ang dx dy 1 b).

Definition RTFSlowExhaustiveAligner_align this_img to
    (cmp_name : string) (cmp_params : Dict Pix) : M Pix (option (EMData Pix)) :=
  o <- set_default "flip" (EMDATA None) ;;
  flip <- lift_conv (EMObject_to_EMData o) ;;
  o <- set_default "maxshift" (INT (-1)) ;;
  maxshift <- lift_conv (EMObject_to_int o) ;;
  img <- deref this_img ;;
  emit EvCopy ;;;
  let this_img_copy := img in
  flipped <- flipped_reference flip to ;;
  let nx := get_xsize img in
  let maxshift := if maxshift <? 0 then nx ÷ 10 else maxshift in
  o <- set_default "angstep" (FLOAT 0) ;;
  angle_step <- lift_conv (EMObject_to_float o) ;;
  let angle_step :=
    if Qeq_bool angle_step 0 then atan2f 2 (inject_Z nx)
    else (angle_step * deg2rad)%Q in
  o <- set_default "transtep" (FLOAT 1) ;;
  trans_step <- lift_conv (EMObject_to_float o) ;;
  if Qle_bool trans_step 0 then
    throw (InvalidParameterException "transstep must be greater than 0")
  else if Qle_bool angle_step 0 then
    throw (InvalidParameterException "angstep must be greater than 0")
  else
    let shrinkfactor := math_medianshrink 2 in
    emit (EvProcess shrinkfactor) ;;;
    let this_img_shrink := process shrinkfactor img in
    t <- deref to ;;
    emit (EvProcess shrinkfactor) ;;;
    let to_shrunk := process shrinkfactor t in
    emit (EvProcess shrinkfactor) ;;;
    let flipped_shrunk := process shrinkfactor flipped in
    let best := mkBest FLT_MAX 0 0 0 0 in
    let half_maxshift := maxshift ÷ 2 in
    let h := inject_Z half_maxshift in
    let ang_lo := (- angle_step * 2)%Q in
    let ang_hi := (2 * M_PI)%Q in
    let ang_by := (angle_step * 4)%Q in
    best <- for_int (- half_maxshift) half_maxshift (fun dy best =>
              for_float (float_loop_fuel (- h) h 1) (- h)%Q h 1 (fun dx best =>
                if hypot_le dx (inject_Z dy) (inject_Z maxshift) then
                  for_float (float_loop_fuel ang_lo ang_hi ang_by) ang_lo ang_hi ang_by
                    (fun ang best =>
                       rtf_slow_candidate this_img_shrink to_shrunk flipped_shrunk
                         cmp_name cmp_params dx (inject_Z dy) ang best) best
                else ret best) best) best ;;
    let best := mkBest FLT_MAX (bestang best) (bestdx best * 2)%Q (bestdy best * 2)%Q
                       (bestflip best) in
    let bestdx2 := bestdx best in
    let bestdy2 := bestdy best in
    let bestang2 := bestang best in
    let ang_lo := (bestang2 - angle_step * 6)%Q in
    let ang_hi := (bestang2 + angle_step * 6)%Q in
    best <- for_float (float_loop_fuel (bestdy2 - 3) (bestdy2 + 3) trans_step)
              (bestdy2 - 3)%Q (bestdy2 + 3)%Q trans_step (fun dy best =>
              for_float (float_loop_fuel (bestdx2 - 3) (bestdx2 + 3) trans_step)
                (bestdx2 - 3)%Q (bestdx2 + 3)%Q trans_step (fun dx best =>
                if hypot_le dx dy (inject_Z maxshift) then
                  for_float (float_loop_fuel ang_lo ang_hi angle_step) ang_lo ang_hi angle_step
                    (fun ang best =>
                       rtf_slow_candidate img t flipped
                         cmp_name cmp_params dx dy ang best) best
                else ret best) best) best ;;
    let bestang := (bestang best * rad2deg)%Q in
    let tr := Transform_2d bestang in
    let tr := set_trans_xy (bestdx best) (bestdy best) tr in
    let tr := if negb (bestflip best =? 0) then set_mirror true tr else tr in
    emit (EvSetAttr "xform.align2d") ;;;
    let this_img_copy := set_attr "xform.align2d" (TRANSFORM (Some tr)) this_img_copy in
    emit (EvTransform tr) ;;;
    ret (Some (transform tr this_img_copy)).

(** *** RefineAligner *)

Definition GSL_SUCCESS : Z := 0.
Definition GSL_CONTINUE : Z := -2.
Definition GSL_EBADTOL : Z := 13.

(** [gsl_multimin_test_size(size, epsabs)], as GSL documents it. *)
Definition gsl_multimin_test_size (size epsabs : Q) : Z :=
  if Qlt_bool epsabs 0 then GSL_EBADTOL
  else if Qlt_bool size epsabs then GSL_SUCCESS
  else GSL_CONTINUE.

(** The objective functions handed to the minimiser (lines 907-979). *)
Definition refalifn (img with_img : EMData Pix) (mirror : bool)
    (cmp_name : string) (cmp_params : Dict Pix) (v : Q * Q * Q) : Q :=
  let '(x, y, a) := v in
  let tmp := img in
  let t := set_mirror mirror (set_trans_xy x y (Transform_2d a)) in
  let tmp := transform t tmp in
  cmp cmp_name cmp_params tmp with_img.

Definition refalifnfast (img img_to : EMData Pix) (mirror : bool) (v : Q * Q * Q) : Q :=
  let '(x, y, a) := v in
  let r := dot_rotate_translate img img_to x y a mirror in
  let nsec := get_xsize img * get_ysize img in
  (1 - r / inject_Z nsec)%Q.

(** Lines 1056-1063: the loop around [gsl_multimin_fminimizer_iterate]. *)
Fixpoint refine_loop (fuel : nat) (rval iter : Z) (precision : Q) (maxiter : Z)
    (s : fminimizer) : M Pix fminimizer :=
  match fuel with
  | O => out_of_fuel
  | S fuel =>
      if (rval =? GSL_CONTINUE) && (iter <? maxiter) then
        let iter := iter + 1 in
        emit EvMinimizerIterate ;;;
        let '(status, s) := fminimizer_iterate s in
        if negb (status =? 0) then ret s
        else
          let rval := gsl_multimin_test_size (fminimizer_size s) precision in
          refine_loop fuel rval iter precision maxiter s
      else ret s
  end.

(** Lines 1008-1077: the minimisation from the seed [(sdx, sdy, saz)] with
    the mirror flag fixed, and the construction of the result. *)
Definition RefineAligner_minimize (img t : EMData Pix) (result : EMData Pix)
    (cmp_name : string) (cmp_params : Dict Pix) (mode : Z)
    (saz sdx sdy : Q) (mirror : bool) : M Pix (option (EMData Pix)) :=
  snr <- index "snr" ;;
  o <- set_default "stepx" (FLOAT 1) ;;
  stepx <- lift_conv (EMObject_to_float o) ;;
  o <- set_default "stepy" (FLOAT 1) ;;
  stepy <- lift_conv (EMObject_to_float o) ;;
  o <- set_default "stepaz" (FLOAT 5) ;;
  stepaz <- lift_conv (EMObject_to_float o) ;;
  let ss := (stepx, stepy, stepaz) in
  let x := (sdx, sdy, saz) in
  let f := if mode =? 2 then refalifnfast img t mirror
           else refalifn img t mirror cmp_name cmp_params in
  emit EvMinimizerSet ;;;
  let s := fminimizer_set f x ss in
  o <- set_default "precision" (FLOAT (4 # 100)) ;;
  precision <- lift_conv (EMObject_to_float o) ;;
  o <- set_default "maxiter" (INT 28) ;;
  maxiter <- lift_conv (EMObject_to_int o) ;;
  s <- refine_loop (S (Z.to_nat maxiter)) GSL_CONTINUE 1 precision maxiter s ;;
  let '(x0, x1, x2) := fminimizer_x s in
  let tsoln := Transform_2d x2 in
  let tsoln := set_mirror mirror tsoln in
  let tsoln := set_trans_xy x0 x1 tsoln in
  emit (EvSetAttr "xform.align2d") ;;;
  let result := set_attr "xform.align2d" (TRANSFORM (Some tsoln)) result in
  emit (EvTransform tsoln) ;;;
  ret (Some (transform tsoln result)).

(** Lines 982-1006: the guard on the reference, the copy of the moving
    image and the seed. *)
Definition RefineAligner_align this_img to
    (cmp_name : string) (cmp_params : Dict Pix) : M Pix (option (EMData Pix)) :=
  match to with
  | None => ret None
  | Some t =>
    img <- deref this_img ;;
    emit EvCopy ;;;
    let result := img in
    o <- set_default "mode" (INT 0) ;;
    mode <- lift_conv (EMObject_to_int o) ;;
    o <- set_default "xform.align2d" (TRANSFORM None) ;;
    seed <- lift_conv (EMObject_to_Transform o) ;;
    match seed with
    | Some tr =>
        let '(tx, ty, _) := t_trans tr in
        RefineAligner_minimize img t result cmp_name cmp_params mode
          (t_alpha tr) tx ty (t_mirror tr)
    | None =>
        RefineAligner_minimize img t result cmp_name cmp_params mode 0 0 0 false
    end
  end.

(** *** The registered strategies (lines 51-63) *)

Inductive Strategy :=
  | Translational
  | Rotational
  | RotatePrecenter
  | RotateTranslate
  | RotateFlip
  | RotateTranslateFlip
  | RTFExhaustive
  | RTFSlowExhaustive
  | Refine.

Definition align (a : Strategy) this_img to (cmp_name : string) (cmp_params : Dict Pix)
  : M Pix (option (EMData Pix)) :=
  match a with
  | Translational => TranslationalAligner_align this_img to cmp_name cmp_params
  | Rotational => RotationalAligner_align this_img to cmp_name cmp_params
  | RotatePrecenter => RotatePrecenterAligner_align this_img to cmp_name cmp_params
  | RotateTranslate => RotateTranslateAligner_align this_img to cmp_name cmp_params
  | RotateFlip => RotateFlipAligner_align this_img to cmp_name cmp_params
  | RotateTranslateFlip => RotateTranslateFlipAligner_align this_img to cmp_name cmp_params
  | RTFExhaustive => RTFExhaustiveAligner_align this_img to cmp_name cmp_params
  | RTFSlowExhaustive => RTFSlowExhaustiveAligner_align this_img to cmp_name cmp_params
  | Refine => RefineAligner_align this_img to cmp_name cmp_params
  end.

(** A call on an aligner constructed with parameter bag [p]: the outcome
    and the operations performed. *)
Definition run {A} (m : M Pix A) (p : Dict Pix) : outcome A * list Event :=
  let '(o, s) := m (mkState p []) in (o, trace s).

End Aligners.

(** ** A small concrete image backend

    Pixel data is abstracted to the list of operations that produced it
    (latest first).  The comparator and the size reported by the minimiser
    after [k] iterations are parameters, so that runs with chosen scores
    can be evaluated.  Sizes follow the image library: pixel operators and
    transforms keep the size, median shrinking divides it, [unwrap] yields
    [xs] by [r2 - r1], row-wise correlation summed over rows yields a
    single row, and the peak search answers inside its window. *)

Module Toy.

Definition Pix : Type := list string.

Definition mark (name : string) (e : EMData Pix) : EMData Pix :=
  mkEMData (get_xsize e) (get_ysize e) (get_zsize e) (attr_dict e) (name :: pixels e).

Definition fresh (nx ny nz : Z) (name : string) (e : EMData Pix) : EMData Pix :=
  mkEMData nx ny nz ∅ (name :: pixels e).

Definition processor_name (p : Processor) : string :=
  match p with
  | math_translate_int _ => "math.translate.int"
  | math_transform _ => "math.transform"
  | math_rotate_180 => "math.rotate.180"
  | xform_flip _ => "xform.flip"
  | math_medianshrink _ => "math.medianshrink"
  end.

Definition apply_processor (p : Processor) (e : EMData Pix) : EMData Pix :=
  match p with
  | math_medianshrink n =>
      mkEMData (get_xsize e ÷ n) (get_ysize e ÷ n) (get_zsize e) (attr_dict e)
               (processor_name p :: pixels e)
  | _ => mark (processor_name p) e
  end.

Definition minimizer : Type := nat * (Q * Q * Q).

Definition iterate (s : minimizer) : Z * minimizer :=
  let '(k, (x, y, a)) := s in (0, (S k, ((x + 1)%Q, y, a))).

Definition backend (score : Pix -> Pix -> Q) (size_after : nat -> Q)
  : ImageBackend Pix := {|
  calc_ccf e _ := fresh (get_xsize e) (get_ysize e) (get_zsize e) "calc_ccf" e;
  zero_corner_circulant _ e := mark "zero_corner_circulant" e;
  calc_max_location_wrap _ mx my mz := (mx, - my, mz);
  process := apply_processor;
  process_inplace := apply_processor;
  make_rotational_footprint_e1 e := fresh 8 (get_ysize e ÷ 2) 1 "rfp_e1" e;
  make_rotational_footprint e := fresh 8 (get_ysize e ÷ 2) 1 "rfp" e;
  make_rotational_footprint_cmc e := fresh 8 (get_ysize e ÷ 2) 1 "rfp_cmc" e;
  calc_ccfx e _ _ _ := fresh (get_xsize e) 1 1 "calc_ccfx" e;
  find_max _ _ := (1%Q, 1);
  calc_max_index _ := 1;
  unwrap r1 r2 xs _ _ _ e := fresh xs (r2 - r1) 1 "unwrap" e;
  rotate_x _ e := mark "rotate_x" e;
  transform _ e := mark "transform" e;
  cmp _ _ a b := score (pixels a) (pixels b);
  dot_rotate_translate _ _ _ _ _ _ := 0%Q;
  calc_best_fft_size n := n;
  set_pre_trans v t := set_trans (fst v, snd v, 0%Q) t;
  atan2f y x := (y / x)%Q;
  deg2rad := 17453293 # 1000000000;
  rad2deg := 57295780 # 1000000;
  fminimizer := minimizer;
  fminimizer_set _ x _ := (O, x);
  fminimizer_iterate := iterate;
  fminimizer_size s := size_after (fst s);
  fminimizer_x s := snd s
|}.

(** An image with no metadata. *)
Definition image (nx ny nz : Z) (name : string) : EMData Pix :=
  mkEMData nx ny nz ∅ [name].

Definition moving : EMData Pix := image 16 16 1 "moving".
Definition reference : EMData Pix := image 16 16 1 "reference".
Definition line : EMData Pix := image 16 1 1 "line".
Definition volume : EMData Pix := image 16 16 16 "volume".

(** Every comparison scores the same. *)
Definition constant_score (a b : Pix) : Q := 0.

(** Comparisons against a mirrored reference score lower. *)
Definition mirrored_score (a b : Pix) : Q :=
  if bool_decide ("xform.flip" ∈ b) then 0 else 1.

(** A simplex that never shrinks, and one of size [1 / (k + 1)] after
    [k] iterations. *)
Definition never_shrinking (k : nat) : Q := 1.
Definition shrinking (k : nat) : Q := 1 / inject_Z (Z.of_nat k + 1).

(** A parameter bag asking for whole-pixel self-alignment within 3 pixels. *)
Definition intonly_params : Dict Pix := <["intonly" := INT 1]> (<["maxshift" := INT 3]> ∅).

(** Parameter bags that set one step of the slow exhaustive search to 0. *)
Definition zero_angstep : Dict Pix := <["angstep" := FLOAT 0]> ∅.
Definition zero_transtep : Dict Pix := <["transtep" := FLOAT 0]> ∅.

(** The state of a freshly constructed aligner with an empty bag. *)
Definition start : State Pix := mkState ∅ [].

Definition ties : ImageBackend Pix := backend constant_score never_shrinking.
Definition mirror_wins : ImageBackend Pix := backend mirrored_score shrinking.

End Toy.

(** ** Observations on a run *)

(** The calls of the peak search: bounds and returned peak. *)
Definition peak_searches (tr : list Event) : list (Z * Z * Z * (Z * Z * Z)) :=
  flat_map (fun ev => match ev with
                      | EvMaxLocation mx my mz peak => [((mx, my, mz), peak)]
                      | _ => []
                      end) tr.

(** The metadata keys written by the aligner, in order. *)
Definition attrs_written (tr : list Event) : list string :=
  flat_map (fun ev => match ev with EvSetAttr key => [key] | _ => [] end) tr.

(** The processors applied, in order. *)
Definition processors_applied (tr : list Event) : list Processor :=
  flat_map (fun ev => match ev with EvProcess p => [p] | _ => [] end) tr.


(** The value [params.set_default(key, v)] yields on the bag [d]. *)
Definition Dict_read {Pix} (key : string) (v : EMObject Pix) (d : Dict Pix) : EMObject Pix :=
  fst (Dict_set_default key v d).

(** Equality of translation vectors as numbers. *)
Definition vec_eq (u v : Q * Q * Q) : Prop :=
  let '(a, b, c) := u in
  let '(x, y, z) := v in
  (a == x /\ b == y /\ c == z)%Q.

(** The Transform held by an image under [key], if any. *)
Definition transform_attr {Pix} (key : string) (e : EMData Pix) : option Transform :=
  match attr_dict e !! key with
  | Some (TRANSFORM (Some t)) => Some t
  | _ => None
  end.

(** The translation the translational aligner settles on, from the peak
    found (lines 158-168). *)
Definition translational_shift {Pix} (to : option (EMData Pix)) (intonly : Z)
    (peak : Z * Z * Z) : Q * Q * Q :=
  match to with
  | Some _ => negated_peak peak
  | None => if negb (intonly =? 0) then round_components (halve (negated_peak peak))
            else halve (negated_peak peak)
  end.

(** [a] is the image [b] up to metadata: same samples, same size. *)
Definition same_data {Pix} (a b : EMData Pix) : Prop :=
  pixels a = pixels b /\ dims a = dims b.

(** The minimiser state after [k] iterations. *)
Fixpoint iterate_n {Pix} {B : ImageBackend Pix} (k : nat) (s : fminimizer) : fminimizer :=
  match k with
  | O => s
  | S k => snd (fminimizer_iterate (iterate_n k s))
  end.

(** The status reported by the [k]-th iteration (counted from 1). *)
Definition status_at {Pix} {B : ImageBackend Pix} (k : nat) (s : fminimizer) : Z :=
  match k with
  | O => GSL_SUCCESS
  | S k => fst (fminimizer_iterate (iterate_n k s))
  end.

(** [m] never stops for lack of fuel. *)
Definition fuelled {Pix A} (m : M Pix A) : Prop := forall s, fst (m s) <> OutOfFuel.

(** ** Further observations on a run *)

(** Every exception [m] can raise satisfies [P]. *)
Definition raises {Pix A} (m : M Pix A) (P : Exception -> Prop) : Prop :=
  forall s e s', m s = (Throw e, s') -> P e.


(** The operations of the translational aligner after its correlation, in
    order, for the bounds and peak of the search and the integer shift. *)
Definition translational_events (nozero : Z) (bounds peak v : Z * Z * Z) (ny nz : Z)
  : list Event :=
  EvCalcCcf
  :: (if nozero =? 0 then [] else [EvZeroCorner])
  ++ EvMaxLocation bounds.1.1 bounds.1.2 bounds.2 peak
  :: EvProcess (math_translate_int v)
  :: (if negb (nz =? 1) then [EvSetAttr "xform.align3d"]
      else if negb (ny =? 1) then [EvSetAttr "xform.align2d"] else []).

(** The kinds of exception aligner.cpp and the conversions raise. *)
Inductive Kind := KInvalidParameter | KImageDimension | KType | KNotExistingObject.

Definition kind_of (e : Exception) : Kind :=
  match e with
  | InvalidParameterException _ => KInvalidParameter
  | ImageDimensionException _ => KImageDimension
  | TypeException _ => KType
  | NotExistingObjectException _ => KNotExistingObject
  end.

(** The exception of kind among [ks]. *)
Definition of_kinds (ks : list Kind) (e : Exception) : Prop := In (kind_of e) ks.

(** The rotational footprint [align_180_ambiguous] computes in mode
    [rfp_mode] (lines 193-201), for the three modes it accepts. *)
Definition rotational_footprint {Pix} {B : ImageBackend Pix} (rfp_mode : Z)
    (e : EMData Pix) : EMData Pix :=
  if rfp_mode =? 0 then make_rotational_footprint_e1 e
  else if rfp_mode =? 1 then make_rotational_footprint e
  else make_rotational_footprint_cmc e.

(** The number of calls of the comparator. *)
Definition comparisons (tr : list Event) : nat :=
  length (flat_map (fun ev => match ev with EvCmp => [tt] | _ => [] end) tr).

(** Normal runs of [m] leave the bag as it was, but for the entries of [D]
    added under the keys it did not hold. *)
Definition stores {Pix A} (m : M Pix A) (D : Dict Pix) : Prop :=
  forall s a s', m s = (Ok a, s') -> params s' = params s ∪ D.


(** The kinds of exception the statements of each strategy can raise. *)
Definition may_raise (a : Strategy) : list Kind :=
  match a with
  | Translational => [KImageDimension; KType]
  | Rotational => [KInvalidParameter; KType]
  | RotatePrecenter => [KType]
  | RotateTranslate => [KInvalidParameter; KImageDimension; KType; KNotExistingObject]
  | RotateFlip => [KInvalidParameter; KType]
  | RotateTranslateFlip =>
      [KInvalidParameter; KImageDimension; KType; KNotExistingObject]
  | RTFExhaustive => [KInvalidParameter; KType]
  | RTFSlowExhaustive => [KInvalidParameter; KType]
  | Refine => [KType]
  end.

(** *** Further conversions of an EMObject (emobject.cpp, lines 61-95 and
    139-142) *)




(** The offsets of a running best lie within [m] of the origin on each
    axis. *)
Definition within (m : Q) (b : Best) : Prop :=
  (- m <= bestdx b <= m)%Q /\ (- m <= bestdy b <= m)%Q.

(** ** Further concrete cases *)

Module Cases.

(** Comparisons score higher when the moving candidate has been rotated by
    180 degrees or the reference is a mirrored one: every first branch
    wins. *)
Definition first_score (a b : Toy.Pix) : Q :=
  if bool_decide ("math.rotate.180" ∈ a) || bool_decide ("xform.flip" ∈ b) then 1 else 0.

(** Comparisons score lower when the moving candidate has been rotated by
    180 degrees. *)
Definition rotated_score (a b : Toy.Pix) : Q :=
  if bool_decide ("math.rotate.180" ∈ a) then 0 else 1.

Definition first_wins : ImageBackend Toy.Pix := Toy.backend first_score Toy.never_shrinking.
Definition rotated_wins : ImageBackend Toy.Pix := Toy.backend rotated_score Toy.never_shrinking.

(** An 8 x 8 image: too narrow for the default [maxshift] of the fast
    exhaustive search. *)
Definition small : EMData Toy.Pix := Toy.image 8 8 1 "small".

(** A moving image that already carries an alignment. *)
Definition aligned_before : EMData Toy.Pix :=
  mkEMData 16 16 1
    (<["xform.align2d" :=
         TRANSFORM (Some {| t_alpha := 30; t_trans := (2, -1, 0)%Q; t_mirror := true |})]> ∅)
    ["moving"].

Definition nozero_params : Dict Toy.Pix := <["nozero" := INT 1]> ∅.
Definition bad_rfp_mode : Dict Toy.Pix := <["rfp_mode" := INT 3]> ∅.

(** A seed for the refinement: 10 degrees, 1 pixel right, 2 pixels down,
    mirrored; at most two iterations. *)
Definition seeded : Dict Toy.Pix :=
  <["xform.align2d" :=
      TRANSFORM (Some {| t_alpha := 10; t_trans := (1, -2, 0)%Q; t_mirror := true |})]>
    (<["maxiter" := INT 3]> ∅).

End Cases.

(** ** CUDA_Aligner (lines 1080-1162)

    The buffers [image_stack] and [ccf] are blocks of [float] obtained from
    [malloc]: a block is the list of its cells, a cell holding no value
    until it is written.  Reading a cell that holds no value, and reading
    or writing outside the block, is undefined in C++ and a failure
    ([None]) here.  Indices are computed as whole numbers, without
    overflow.  The pixel access [image->operator()(x, y)] of an EMData is
    a function of the two coordinates, and [calculate_ccf], the CUDA kernel
    that fills [ccf], is a parameter. *)

Module CUDA.

Abbreviation buffer := (list (option Q)).

(** [malloc(n * sizeof(float))], a block of [n] cells *)
Definition malloc (n : Z) : buffer := replicate (Z.to_nat n) None.

(** [b[i]] as a value *)
Definition load (b : buffer) (i : Z) : option Q :=
  if i <? 0 then None
  else match b !! Z.to_nat i with
       | Some (Some v) => Some v
       | _ => None
       end.

(** [b[i] = v] *)
Definition store (b : buffer) (i : Z) (v : Q) : option buffer :=
  if (0 <=? i) && (i <? Z.of_nat (length b)) then Some (<[Z.to_nat i := Some v]> b)
  else None.

Record CUDA_Aligner := mkCUDA_Aligner {
  NIMA : Z;
  NX : Z;
  NY : Z;
  RING_LENGTH : Z;
  NRING : Z;
  STEP : Q;
  KX : Z;
  KY : Z;
  image_stack : buffer;
  ccf : buffer
}.

(** [CUDA_Aligner::setup] *)
Definition setup (nima nx ny ring_length nring : Z) (step : Q) (kx ky : Z) : CUDA_Aligner :=
  {| NIMA := nima; NX := nx; NY := ny; RING_LENGTH := ring_length; NRING := nring;
     STEP := step; KX := kx; KY := ky;
     image_stack := malloc (nima * nx * ny);
     ccf := malloc (2 * (2 * kx + 1) * (2 * ky + 1) * nima * (ring_length + 2)) |}.

(** A [for] loop over the values of [l] whose body may fail. *)
Fixpoint foldM {A S} (l : list A) (body : A -> S -> option S) (s : S) : option S :=
  match l with
  | [] => Some s
  | a :: l => match body a s with
              | Some s' => foldM l body s'
              | None => None
              end
  end.

(** [for (x = 0; x < nx; x++) for (y = 0; y < ny; y++)
       b[base + x * ny + y] = image(x, y);] *)
Definition copy_image (b : buffer) (base nx ny : Z) (image : Z -> Z -> Q) : option buffer :=
  foldM (seqZ 0 nx)
        (fun x b => foldM (seqZ 0 ny) (fun y b => store b (base + x * ny + y) (image x y)) b)
        b.

(** [CUDA_Aligner::insert_image] *)
Definition insert_image (c : CUDA_Aligner) (image : Z -> Z -> Q) (num : Z)
  : option CUDA_Aligner :=
  let base_address := num * NX c * NY c in
  match copy_image (image_stack c) base_address (NX c) (NY c) image with
  | Some b =>
      Some {| NIMA := NIMA c; NX := NX c; NY := NY c; RING_LENGTH := RING_LENGTH c;
              NRING := NRING c; STEP := STEP c; KX := KX c; KY := KY c;
              image_stack := b; ccf := ccf c |}
  | None => None
  end.

(** The running maximum of the search and the pose [ang], [sx], [sy],
    [mirror] last assigned; the four locals hold no value until the first
    assignment. *)
Definition Pose : Type := Q * Q * Q * Q.

Record Scan := mkScan {
  max_ccf : Q;
  pose : option Pose
}.




Section Kernel.

(** [calculate_ccf(image_stack, ref_image, ccf, NIMA, NX, NY, RING_LENGTH,
    NRING, STEP, KX, KY)]: the contents of [ccf] after the call. *)
Variable calculate_ccf :
  buffer -> buffer -> buffer -> Z -> Z -> Z -> Z -> Z -> Q -> Z -> Z -> buffer.


End Kernel.

End CUDA.

(** The stack of an aligner is the block [setup] allocates for its
    dimensions. *)
Definition stack_allocated (c : CUDA.CUDA_Aligner) : Prop :=
  0 <= CUDA.NIMA c /\ 0 <= CUDA.NX c /\ 0 <= CUDA.NY c
  /\ Z.of_nat (length (CUDA.image_stack c)) = CUDA.NIMA c * CUDA.NX c * CUDA.NY c.


(** The cell of [ccf] read for image [im], shift [(kx, ky)] and angular
    position [l]: the straight correlation, or the mirrored one. *)
Definition ccf_index (c : CUDA.CUDA_Aligner) (im kx ky l : Z) (mirrored : bool) : Z :=
  (((ky + CUDA.KY c) * (2 * CUDA.KX c + 1) + (kx + CUDA.KX c)) * CUDA.NIMA c + im)
  * (CUDA.RING_LENGTH c + 2) + l
  + (if mirrored
     then CUDA.NIMA c * (CUDA.RING_LENGTH c + 2) * (2 * CUDA.KX c + 1) * (2 * CUDA.KY c + 1)
     else 0).


(** The pose reported for shift [(kx, ky)], angular position [l] and
    mirror flag. *)
Definition pose_of (c : CUDA.CUDA_Aligner) (kx ky l : Z) (mirrored : bool) : CUDA.Pose :=
  ((inject_Z l / inject_Z (CUDA.RING_LENGTH c) * 360)%Q,
   (inject_Z kx * CUDA.STEP c)%Q, (inject_Z ky * CUDA.STEP c)%Q,
   if mirrored then 1%Q else 0%Q).

(** The value [max_ccf] starts from for every image (line 1132), the
    literal read exactly. *)
Definition search_floor : Q := (- (10 ^ 22))%Q.

(** What holds of the running maximum of image [im] once the entries
    [seen] have been compared: it bounds them all, and either nothing has
    been assigned (the pose is the one left by the previous image) or the
    maximum is the value of an entry seen, above the floor, and the pose is
    that entry's. *)
Definition best_so_far (c : CUDA.CUDA_Aligner) (ccf : list (option Q)) (im : Z)
    (previous : option CUDA.Pose) (seen : Z -> Z -> Z -> Prop) (st : CUDA.Scan) : Prop :=
  (forall kx ky l m v, seen kx ky l ->
                       CUDA.load ccf (ccf_index c im kx ky l m) = Some v ->
                       (v <= CUDA.max_ccf st)%Q)
  /\ (CUDA.pose st = previous /\ CUDA.max_ccf st = search_floor
      \/ exists kx ky l m,
           seen kx ky l
           /\ CUDA.load ccf (ccf_index c im kx ky l m) = Some (CUDA.max_ccf st)
           /\ (search_floor < CUDA.max_ccf st)%Q
           /\ CUDA.pose st = Some (pose_of c kx ky l m)).


(** *** A concrete CUDA aligner *)

Module CudaCases.

(** Two images of 2 x 2 pixels, rings of 4 positions, shifts of at most
    one step of one pixel on each axis. *)
Definition aligner : CUDA.CUDA_Aligner := CUDA.setup 2 2 2 4 1 1 1 1.

Definition pixel (x y : Z) : Q := inject_Z (10 * x + y).



End CudaCases.


(** ** Reasoning about runs *)

(** Every normal return of [m] satisfies [P]. *)
Definition ensures {Pix A} (m : M Pix A) (P : A -> Prop) : Prop :=
  forall s a s', m s = (Ok a, s') -> P a.

Section MonadFacts.
Context {Pix : Type}.

Lemma bind_Ok_inv {A C} (m : M Pix A) (k : A -> M Pix C) s c s' :
  bind m k s = (Ok c, s') ->
  exists a s1, m s = (Ok a, s1) /\ k a s1 = (Ok c, s').
Proof.
  unfold bind. destruct (m s) as [[a| | |] s1]; intros E; try discriminate.
  eauto.
Qed.

Lemma ret_Ok_inv {A} (a c : A) (s s' : State Pix) :
  ret a s = (Ok c, s') -> c = a /\ s' = s.
Proof. unfold ret. intros E. inversion E. auto. Qed.

Lemma throw_Ok_inv {A} e (c : A) (s s' : State Pix) :
  throw e s = (Ok c, s') -> False.
Proof. discriminate. Qed.

Lemma out_of_fuel_Ok_inv {A} (c : A) (s s' : State Pix) :
  out_of_fuel s = (Ok c, s') -> False.
Proof. discriminate. Qed.

Lemma deref_Ok_inv {A} (p : option A) (c : A) (s s' : State Pix) :
  deref p s = (Ok c, s') -> p = Some c /\ s' = s.
Proof. unfold deref. destruct p; intros E; inversion E; auto. Qed.

Lemma emit_Ok_inv ev (c : unit) (s s' : State Pix) :
  emit ev s = (Ok c, s') -> s' = mkState (params s) (trace s ++ [ev]).
Proof. unfold emit. intros E. inversion E. auto. Qed.

Lemma lift_conv_Ok_inv {A} (r : Exception + A) (c : A) (s s' : State Pix) :
  lift_conv r s = (Ok c, s') -> r = inr c /\ s' = s.
Proof. destruct r; cbn; intros E; inversion E; auto. Qed.

Lemma with_params_Ok_inv {A} (p : Dict Pix) (m : M Pix A) c s s' :
  with_params p m s = (Ok c, s') ->
  exists s1, m (mkState p (trace s)) = (Ok c, s1).
Proof.
  unfold with_params. destruct (m _) as [o s1] eqn:E. intros E'.
  inversion E'; subst. eauto.
Qed.

Lemma get_attr_Ok_inv key (e : EMData Pix) (o : EMObject Pix) (s s' : State Pix) :
  get_attr key e s = (Ok o, s') -> attr_dict e !! key = Some o /\ s' = s.
Proof.
  unfold get_attr. destruct (attr_dict e !! key); intros E; inversion E; auto.
Qed.



Lemma dims_set_attr key v (e : EMData Pix) : dims (set_attr key v e) = dims e.
Proof. reflexivity. Qed.

Lemma dims_store_transform key t (e : EMData Pix) : dims (store_transform key t e) = dims e.
Proof. reflexivity. Qed.

End MonadFacts.

(** Decomposes a hypothesis stating that a run returned normally. *)
Ltac run_inv :=
  repeat match goal with
  | H : bind _ _ _ = (Ok _, _) |- _ =>
      let a := fresh "a" in let s := fresh "s" in
      let H1 := fresh "Hrun" in
      apply bind_Ok_inv in H as (a & s & H1 & H)
  | H : ret _ _ = (Ok _, _) |- _ => apply ret_Ok_inv in H as [? ?]; try discriminate; subst
  | H : throw _ _ = (Ok _, _) |- _ => apply throw_Ok_inv in H; contradiction
  | H : out_of_fuel _ = (Ok _, _) |- _ => apply out_of_fuel_Ok_inv in H; contradiction
  | H : deref _ _ = (Ok _, _) |- _ =>
      let Hp := fresh "Hp" in
      apply deref_Ok_inv in H as [Hp ?]; subst;
      try discriminate; try (injection Hp as Hp; subst)
  | H : emit _ _ = (Ok _, _) |- _ => apply emit_Ok_inv in H; subst; cbn [params trace] in *
  | H : lift_conv _ _ = (Ok _, _) |- _ => apply lift_conv_Ok_inv in H as [? ?]; subst
  | H : with_params _ _ _ = (Ok _, _) |- _ => apply with_params_Ok_inv in H as [? H]
  | H : get_attr _ _ _ = (Ok _, _) |- _ => apply get_attr_Ok_inv in H as [? ?]; subst
  | H : (let '(_, _) := ?p in _) _ = (Ok _, _) |- _ => destruct p eqn:?
  | H : (if ?c then _ else _) _ = (Ok _, _) |- _ => destruct c eqn:?
  | H : (match ?p with Some _ => _ | None => _ end) _ = (Ok _, _) |- _ => destruct p eqn:?
  end.

Ltac some_inj :=
  repeat match goal with
  | H : Some _ = Some _ |- _ => injection H as H; subst
  | H : (_, _) = (_, _) |- _ => injection H as ? ?; subst
  | H : None = Some _ |- _ => discriminate H
  | H : Some _ = None |- _ => discriminate H
  end.

Section Dimensions.
Context {Pix : Type} {B : ImageBackend Pix} {L : ImageBackendLaws B}.

Implicit Types (img image from_image e : EMData Pix) (this_img to : option (EMData Pix)).

Lemma get_set_align_attr_dims key image from_image :
  ensures (get_set_align_attr key image from_image)
          (fun r => dims (snd r) = dims image).
Proof.
  intros s r s' E. unfold get_set_align_attr in E. run_inv; reflexivity.
Qed.

Lemma get_align_attr_dims key image :
  ensures (get_align_attr key image) (fun r => dims (snd r) = dims image).
Proof.
  intros s r s' E. unfold get_align_attr in E. run_inv; reflexivity.
Qed.

Lemma TranslationalAligner_dims img to cmp_name cmp_params :
  ensures (TranslationalAligner_align (Some img) to cmp_name cmp_params)
          (fun r => exists e, r = Some e /\ dims e = dims img).
Proof.
  intros s r s' E. unfold TranslationalAligner_align in E. run_inv.
  all: try match goal with
       | H : get_set_align_attr _ _ _ _ = (Ok ?p, _) |- _ =>
           apply get_set_align_attr_dims in H; cbn in H
       end.
  all: eexists; split; [reflexivity|].
  all: rewrite ?dims_store_transform;
       try match goal with Hd : dims ?e = _ |- dims ?e = _ => rewrite Hd end;
       apply process_translate_dims.
Qed.

(** Rewrites the size of an image built by size-preserving steps. *)
Ltac dims_norm :=
  repeat first
    [ rewrite dims_store_transform | rewrite dims_set_attr
    | rewrite process_translate_dims | rewrite process_transform_dims
    | rewrite process_rotate_180_dims | rewrite process_flip_dims
    | rewrite process_inplace_rotate_180_dims | rewrite process_inplace_flip_dims
    | rewrite transform_dims
    | match goal with Hd : dims ?e = _ |- context [dims ?e] => rewrite Hd end ].

Ltac attr_dims :=
  repeat match goal with
  | H : get_set_align_attr _ _ _ _ = (Ok _, _) |- _ =>
      apply get_set_align_attr_dims in H; cbn in H
  | H : get_align_attr _ _ _ = (Ok _, _) |- _ =>
      apply get_align_attr_dims in H; cbn in H
  end.

Lemma align_180_ambiguous_dims img to rfp_mode :
  ensures (align_180_ambiguous (Some img) to rfp_mode) (fun r => dims r = dims img).
Proof.
  intros s r s' E. unfold align_180_ambiguous in E. run_inv.
  all: attr_dims; dims_norm; reflexivity.
Qed.

Lemma RotationalAligner_decide_dims (a b : EMData Pix) c1 c2 ang d :
  dims a = d -> dims b = d ->
  ensures (RotationalAligner_decide a b c1 c2 ang)
          (fun r => exists e, r = Some e /\ dims e = d).
Proof.
  intros Ha Hb s r s' E. unfold RotationalAligner_decide in E.
  destruct (Qlt_bool c1 c2); run_inv.
  all: attr_dims; eexists; split; [reflexivity|]; dims_norm; reflexivity.
Qed.

Lemma RotationalAligner_dims img to cmp_name cmp_params :
  ensures (RotationalAligner_align (Some img) to cmp_name cmp_params)
          (fun r => exists e, r = Some e /\ dims e = dims img).
Proof.
  intros s r s' E. unfold RotationalAligner_align, RotationalAligner_candidates in E.
  destruct to; run_inv.
  match goal with H : align_180_ambiguous _ _ _ _ = _ |- _ =>
    apply align_180_ambiguous_dims in H end.
  eapply RotationalAligner_decide_dims; [| |eassumption]; dims_norm; reflexivity.
Qed.

Lemma RotateTranslateAligner_decide_dims (a b : EMData Pix) c1 c2 ang d :
  dims a = d -> dims b = d ->
  ensures (RotateTranslateAligner_decide a b c1 c2 ang)
          (fun r => exists e, r = Some e /\ dims e = d).
Proof.
  intros Ha Hb s r s' E. unfold RotateTranslateAligner_decide in E.
  destruct (Qlt_bool c1 c2); run_inv.
  all: eexists; split; [reflexivity|]; dims_norm; reflexivity.
Qed.

Lemma RotateTranslateAligner_dims img to cmp_name cmp_params :
  ensures (RotateTranslateAligner_align (Some img) to cmp_name cmp_params)
          (fun r => exists e, r = Some e /\ dims e = dims img).
Proof.
  intros s r s' E.
  unfold RotateTranslateAligner_align, RotateTranslateAligner_candidates in E.
  run_inv.
  match goal with H : align_180_ambiguous _ _ _ _ = _ |- _ =>
    apply align_180_ambiguous_dims in H end.
  repeat match goal with H : TranslationalAligner_align _ _ _ _ _ = _ |- _ =>
    apply TranslationalAligner_dims in H as (? & ? & ?) end.
  some_inj.
  eapply RotateTranslateAligner_decide_dims; [| |eassumption]; dims_norm; reflexivity.
Qed.

Lemma RotateTranslateFlipAligner_dims img to cmp_name cmp_params :
  ensures (RotateTranslateFlipAligner_align (Some img) to cmp_name cmp_params)
          (fun r => exists e, r = Some e /\ dims e = dims img).
Proof.
  intros s r s' E.
  unfold RotateTranslateFlipAligner_align, RotateTranslateFlipAligner_candidates,
    RotateTranslateFlipAligner_decide in E.
  run_inv.
  all: repeat match goal with H : RotateTranslateAligner_align _ _ _ _ _ = _ |- _ =>
         apply RotateTranslateAligner_dims in H as (? & ? & ?) end.
  all: some_inj; attr_dims.
  all: eexists; split; [reflexivity|]; dims_norm; reflexivity.
Qed.

Lemma RotateFlipAligner_dims img to cmp_name cmp_params :
  ensures (RotateFlipAligner_align (Some img) to cmp_name cmp_params)
          (fun r => exists e, r = Some e /\ dims e = dims img).
Proof.
  intros s r s' E.
  unfold RotateFlipAligner_align, RotateFlipAligner_candidates,
    RotateFlipAligner_decide in E.
  run_inv.
  all: repeat match goal with H : RotationalAligner_align _ _ _ _ _ = _ |- _ =>
         apply RotationalAligner_dims in H as (? & ? & ?) end.
  all: some_inj; attr_dims.
  all: eexists; split; [reflexivity|]; dims_norm; reflexivity.
Qed.

Lemma RTFExhaustiveAligner_dims img to cmp_name cmp_params :
  ensures (RTFExhaustiveAligner_align (Some img) to cmp_name cmp_params)
          (fun r => exists e, r = Some e /\ dims e = dims img).
Proof.
  intros s r s' E. unfold RTFExhaustiveAligner_align in E. run_inv.
  eexists; split; [reflexivity|]; dims_norm; reflexivity.
Qed.

Lemma RTFSlowExhaustiveAligner_dims img to cmp_name cmp_params :
  ensures (RTFSlowExhaustiveAligner_align (Some img) to cmp_name cmp_params)
          (fun r => exists e, r = Some e /\ dims e = dims img).
Proof.
  intros s r s' E. unfold RTFSlowExhaustiveAligner_align in E. run_inv.
  eexists; split; [reflexivity|]; dims_norm; reflexivity.
Qed.

Lemma RefineAligner_dims img to cmp_name cmp_params :
  ensures (RefineAligner_align (Some img) to cmp_name cmp_params)
          (fun r => forall e, r = Some e -> dims e = dims img).
Proof.
  intros s r s' E. unfold RefineAligner_align, RefineAligner_minimize in E.
  destruct to; run_inv.
  all: intros res Hres; some_inj; dims_norm; reflexivity.
Qed.

End Dimensions.

(** ** States and recorded operations through the primitive steps *)

Section StateFacts.
Context {Pix : Type}.

Lemma run_inv_eq {A} (m : M Pix A) (p : Dict Pix) o tr :
  run m p = (o, tr) -> exists s', m (mkState p []) = (o, s') /\ trace s' = tr.
Proof.
  unfold run. destruct (m _) as [o' s'] eqn:E. intros E'. inversion E'; subst. eauto.
Qed.

Lemma set_default_Ok_inv key (v o : EMObject Pix) (s s' : State Pix) :
  set_default key v s = (Ok o, s') ->
  o = Dict_read key v (params s) /\
  s' = mkState (snd (Dict_set_default key v (params s))) (trace s).
Proof.
  unfold set_default, Dict_read. destruct (Dict_set_default _ _ _) as [o' d].
  intros E. inversion E. auto.
Qed.

Lemma index_Ok_inv key (o : EMObject Pix) (s s' : State Pix) :
  index key s = (Ok o, s') ->
  o = fst (Dict_index key (params s)) /\
  s' = mkState (snd (Dict_index key (params s))) (trace s).
Proof.
  unfold index. destruct (Dict_index _ _) as [o' d].
  intros E. inversion E. auto.
Qed.

Lemma Dict_read_unset key (v : EMObject Pix) (d : Dict Pix) :
  d !! key = None -> Dict_read key v d = v.
Proof. unfold Dict_read, Dict_set_default. intros ->. reflexivity. Qed.


(** Reading a key after [set_default] on it: the value just read. *)
Lemma Dict_index_after_set_default key (v : EMObject Pix) (d : Dict Pix) :
  fst (Dict_index key (snd (Dict_set_default key v d))) = Dict_read key v d.
Proof.
  unfold Dict_index, Dict_read, Dict_set_default.
  destruct (d !! key) eqn:E; cbn.
  - rewrite E. reflexivity.
  - rewrite lookup_insert_eq. reflexivity.
Qed.

Lemma Dict_index_idem key (d : Dict Pix) :
  fst (Dict_index key (snd (Dict_index key d))) = fst (Dict_index key d).
Proof.
  unfold Dict_index. destruct (d !! key) eqn:E; cbn.
  - rewrite E. reflexivity.
  - rewrite lookup_insert_eq. reflexivity.
Qed.

Lemma Dict_index_lookup_ne key key' (d : Dict Pix) :
  key <> key' ->
  snd (Dict_index key' d) !! key = d !! key.
Proof.
  intros Hne. unfold Dict_index. destruct (d !! key'); cbn; [reflexivity|].
  apply lookup_insert_ne. congruence.
Qed.

Lemma Dict_set_default_lookup_ne key key' (v : EMObject Pix) (d : Dict Pix) :
  key <> key' ->
  snd (Dict_set_default key' v d) !! key = d !! key.
Proof.
  intros Hne. unfold Dict_set_default. destruct (d !! key'); cbn; [reflexivity|].
  apply lookup_insert_ne. congruence.
Qed.

Lemma Dict_read_ext key (v : EMObject Pix) (d d' : Dict Pix) :
  d' !! key = d !! key -> Dict_read key v d' = Dict_read key v d.
Proof. unfold Dict_read, Dict_set_default. intros ->. destruct (d !! key); reflexivity. Qed.

End StateFacts.

(** Decomposes a normal run, keeping track of the state. *)
Ltac run_inv_state :=
  repeat first
    [ progress run_inv
    | match goal with
      | H : set_default _ _ _ = (Ok _, _) |- _ =>
          apply set_default_Ok_inv in H as [? ?]; subst; cbn [params trace] in *
      | H : index _ _ = (Ok _, _) |- _ =>
          apply index_Ok_inv in H as [? ?]; subst; cbn [params trace] in *
      end ].

(** ** The concrete backend satisfies the assumptions *)

Lemma Toy_backend_laws score size_after : ImageBackendLaws (Toy.backend score size_after).
Proof.
  split; cbn; intros; try reflexivity.
  repeat split; intros; lia.
Qed.

(** ** Null images *)

Section NullImages.
Context {Pix : Type} {B : ImageBackend Pix}.

Implicit Types (this_img to : option (EMData Pix)) (s : State Pix).

(** C9: called with a null moving image, the translational aligner returns
    null at once: whatever the reference, the comparator and the parameter
    bag, the result is null, the bag is left as it was (no default is
    stored, no parameter read) and no image operation is performed. *)
Theorem translational_null_moving to cmp_name cmp_params s (p : Dict Pix) :
  TranslationalAligner_align None to cmp_name cmp_params s = (Ok None, s)
  /\ run (TranslationalAligner_align None to cmp_name cmp_params) p = (Ok None, []).
Proof. split; reflexivity. Qed.

(** C2, as the code has it: with a null reference the rotational aligner
    fails with an invalid-parameter exception before anything else is done,
    while the refine aligner returns null without any failure. *)
Theorem null_reference_outcomes this_img cmp_name cmp_params s :
  RotationalAligner_align this_img None cmp_name cmp_params s
    = (Throw (InvalidParameterException
                "Can not rotational align - the image to align to is NULL"), s)
  /\ RefineAligner_align this_img None cmp_name cmp_params s = (Ok None, s).
Proof. split; reflexivity. Qed.

End NullImages.

(** C2 fails as stated: the refine aligner given a null reference returns
    null and raises nothing; the fast exhaustive aligner raises nothing
    either, it calls a member function through the null reference. *)
Lemma refine_null_reference_returns_null :
  run (RefineAligner_align (B:=Toy.ties) (Some Toy.moving) None "dot" ∅) ∅ = (Ok None, [])
  /\ (forall e, fst (run (RefineAligner_align (B:=Toy.ties) (Some Toy.moving) None "dot" ∅) ∅)
                <> Throw e)
  /\ fst (run (RTFExhaustiveAligner_align (B:=Toy.ties) (Some Toy.moving) None "dot" ∅) ∅)
     = NullDeref.
Proof. repeat split. intros e. discriminate. Qed.

Section Translational.
Context {Pix : Type} {B : ImageBackend Pix}.
Implicit Types (img image from_image : EMData Pix) (this_img to : option (EMData Pix)) (s : State Pix).

Lemma peak_searches_app tr1 tr2 :
  peak_searches (tr1 ++ tr2) = peak_searches tr1 ++ peak_searches tr2.
Proof. apply flat_map_app. Qed.

Lemma attrs_written_app tr1 tr2 :
  attrs_written (tr1 ++ tr2) = attrs_written tr1 ++ attrs_written tr2.
Proof. apply flat_map_app. Qed.

Lemma processors_applied_app tr1 tr2 :
  processors_applied (tr1 ++ tr2) = processors_applied tr1 ++ processors_applied tr2.
Proof. apply flat_map_app. Qed.

Lemma get_set_align_attr_run key image from_image s r s' :
  get_set_align_attr key image from_image s = (Ok r, s') ->
  exists t, r = (t, set_attr key (TRANSFORM (Some t)) image)
            /\ s' = mkState (params s) (trace s ++ [EvSetAttr key]).
Proof.
  unfold get_set_align_attr. intros E. run_inv; eexists; split; reflexivity.
Qed.

Lemma TranslationalAligner_run img to cmp_name cmp_params s r s' :
  TranslationalAligner_align (Some img) to cmp_name cmp_params s = (Ok r, s') ->
  exists m cf intonly t,
    EMObject_to_int (Dict_read "maxshift" (INT (-1)) (params s)) = inr m
    /\ (to = None ->
        EMObject_to_int (Dict_read "intonly" (INT 0) (params s)) = inr intonly)
    /\ let bounds := translational_maxshift (get_xsize img) (get_ysize img)
                       (get_zsize img) m m m in
       let peak := calc_max_location_wrap cf bounds.1.1 bounds.1.2 bounds.2 in
       let cur_trans := translational_shift to intonly peak in
       let p := math_translate_int (to_int_vector cur_trans) in
       let key := if negb (get_zsize img =? 1) then ["xform.align3d"]
                  else if negb (get_ysize img =? 1) then ["xform.align2d"] else [] in
       peak_searches (trace s') = peak_searches (trace s) ++ [(bounds, peak)]
       /\ processors_applied (trace s') = processors_applied (trace s) ++ [p]
       /\ attrs_written (trace s') = attrs_written (trace s) ++ key
       /\ r = Some (if negb (get_zsize img =? 1) then
                      store_transform "xform.align3d" (set_trans cur_trans t)
                        (set_attr "xform.align3d" (TRANSFORM (Some t)) (process p img))
                    else if negb (get_ysize img =? 1) then
                      store_transform "xform.align2d"
                        (set_trans (cur_trans.1.1, cur_trans.1.2, 0%Q) t)
                        (set_attr "xform.align2d" (TRANSFORM (Some t)) (process p img))
                    else process p img).
Proof.
  intros E. unfold TranslationalAligner_align in E. run_inv_state.
  all: repeat match goal with
       | H : get_set_align_attr _ _ _ _ = _ |- _ =>
           apply get_set_align_attr_run in H as (? & ? & ?)
       end; some_inj; cbn [params trace] in *.
  all: rewrite ?Dict_index_idem, ?Dict_index_after_set_default in *.
  all: repeat match goal with
       | H1 : ?x = inr ?a, H2 : ?x = inr ?b |- _ =>
           rewrite H1 in H2; injection H2 as <-
       end.
  all: try match goal with
       | Hi : EMObject_to_int (Dict_read "intonly" _ _) = _ |- _ =>
           erewrite (Dict_read_ext "intonly") in Hi
             by (rewrite ?Dict_index_lookup_ne, ?Dict_set_default_lookup_ne by discriminate;
                 reflexivity)
       end.
  all: match goal with
       | Hm : EMObject_to_int (Dict_read "maxshift" _ _) = inr ?m |- _ => exists m
       end.
  all: eexists.
  all: first [ match goal with
               | Hi : EMObject_to_int (Dict_read "intonly" _ _) = inr ?i |- _ => exists i
               end
             | exists 0 ].
  all: first [ match goal with x : Transform |- _ => exists x end
             | exists Transform_identity ].
  all: split; [eassumption|].
  all: split; [intros; first [discriminate | eassumption] |].
  all: rewrite Heqp; cbn zeta; cbn [fst snd translational_shift].
  all: rewrite !peak_searches_app, !processors_applied_app, !attrs_written_app.
  all: cbn [peak_searches processors_applied attrs_written flat_map app].
  all: rewrite ?app_nil_r.
  all: repeat match goal with
       | Hb : ?c = true |- context [if ?c then _ else _] => rewrite Hb
       | Hb : ?c = false |- context [if ?c then _ else _] => rewrite Hb
       end.
  all: repeat split; try reflexivity.
  all: match goal with
       | |- context [let '(_, _) := ?v in _] => destruct v as [[? ?] ?]
       end; reflexivity.
Qed.

Lemma translational_maxshift_spec nx ny nz m :
  1 <= nx -> 1 <= ny -> 1 <= nz ->
  let '(mx, my, mz) := translational_maxshift nx ny nz m m m in
  (m <= 0 -> mx = nx ÷ 8 /\ my = ny ÷ 8 /\ mz = nz ÷ 8)
  /\ (nx <> 1 -> mx <= nx ÷ 2 - 1)
  /\ (ny <> 1 -> my <= ny ÷ 2 - 1)
  /\ (nz <> 1 -> mz <= nz ÷ 2 - 1)
  /\ (nx = 1 -> mx = 0) /\ (ny = 1 -> my = 0) /\ (nz = 1 -> mz = 0).
Proof.
  intros Hx Hy Hz.
  unfold translational_maxshift, default_maxshift, clamp_maxshift, unit_axis.
  destruct (Z.leb_spec m 0); cbn beta iota;
  repeat match goal with
         | |- context [if ?c then _ else _] =>
             match c with
             | Z.ltb ?a ?b => destruct (Z.ltb_spec a b)
             | Z.eqb ?a ?b => destruct (Z.eqb_spec a b)
             end
         end;
  repeat split; intros; try lia; Z.to_euclidean_division_equations; lia.
Qed.

Lemma clamp_maxshift_le n m : clamp_maxshift n m <= n ÷ 2 - 1.
Proof. unfold clamp_maxshift. destruct (Z.ltb_spec (n ÷ 2 - 1) m); lia. Qed.

(** C4: the bounds handed to the peak search of the translational aligner.
    On every normal run there is exactly one peak search; when [maxshift] is
    unset or converts to a non-positive integer its bound on each axis is
    that axis's extent divided by 8; the clamping step never leaves a bound
    above extent/2 - 1, which is what the search receives on every axis of
    extent other than 1; and an axis of extent 1 is searched with bound 0. *)
Theorem translational_search_bounds img to cmp_name cmp_params (p : Dict Pix) r tr :
  1 <= get_xsize img -> 1 <= get_ysize img -> 1 <= get_zsize img ->
  run (TranslationalAligner_align (Some img) to cmp_name cmp_params) p = (Ok r, tr) ->
  exists mx my mz peak,
    peak_searches tr = [((mx, my, mz), peak)]
    /\ ((p !! "maxshift" = None
         \/ exists m, EMObject_to_int (Dict_read "maxshift" (INT (-1)) p) = inr m /\ m <= 0) ->
        mx = get_xsize img ÷ 8 /\ my = get_ysize img ÷ 8 /\ mz = get_zsize img ÷ 8)
    /\ (forall n m, clamp_maxshift n m <= n ÷ 2 - 1)
    /\ (get_xsize img <> 1 -> mx <= get_xsize img ÷ 2 - 1)
    /\ (get_ysize img <> 1 -> my <= get_ysize img ÷ 2 - 1)
    /\ (get_zsize img <> 1 -> mz <= get_zsize img ÷ 2 - 1)
    /\ (get_xsize img = 1 -> mx = 0)
    /\ (get_ysize img = 1 -> my = 0)
    /\ (get_zsize img = 1 -> mz = 0).
Proof.
  intros Hx Hy Hz E. apply run_inv_eq in E as (s' & E & <-).
  apply TranslationalAligner_run in E as (m & cf & intonly & t & Hm & _ & Hrun).
  cbn zeta in Hrun. cbn [params trace] in Hm, Hrun.
  destruct Hrun as (Hpeaks & _).
  pose proof (translational_maxshift_spec _ _ _ m Hx Hy Hz) as Hspec.
  destruct (translational_maxshift _ _ _ m m m) as [[mx my] mz].
  destruct Hspec as (Hdef & Hrest).
  exists mx, my, mz. eexists. split; [exact Hpeaks|].
  split.
  - intros [Hunset | (m' & Hm' & Hle)]; apply Hdef.
    + rewrite Dict_read_unset in Hm by exact Hunset. cbn in Hm. injection Hm as <-. lia.
    + rewrite Hm in Hm'. injection Hm' as <-. exact Hle.
  - split; [exact clamp_maxshift_le | exact Hrest].
Qed.

(** C10: the metadata keys written by the translational aligner.  A key is
    written exactly when the moving image is a volume (the 3D key) or a
    plane (the 2D key); for a one-dimensional moving image the image
    returned is the translated copy as the processor produced it, with
    nothing attached by the aligner. *)
Theorem translational_transform_key img to cmp_name cmp_params (p : Dict Pix) r tr :
  run (TranslationalAligner_align (Some img) to cmp_name cmp_params) p = (Ok r, tr) ->
  (forall key, In key (attrs_written tr) <->
               (key = "xform.align3d" /\ get_zsize img <> 1)
               \/ (key = "xform.align2d" /\ get_zsize img = 1 /\ get_ysize img <> 1))
  /\ (get_ysize img = 1 -> get_zsize img = 1 ->
      attrs_written tr = []
      /\ exists v, r = Some (process (math_translate_int v) img)).
Proof.
  intros E. apply run_inv_eq in E as (s' & E & <-).
  apply TranslationalAligner_run in E as (m & cf & intonly & t & _ & _ & Hrun).
  cbn zeta in Hrun. cbn [params trace] in Hrun.
  destruct Hrun as (_ & _ & Hattrs & Hr).
  cbn [attrs_written flat_map app] in Hattrs. rewrite Hattrs. clear Hattrs.
  destruct (Z.eqb_spec (get_zsize img) 1) as [Hz|Hz];
    destruct (Z.eqb_spec (get_ysize img) 1) as [Hy|Hy]; cbn [negb] in *.
  - split.
    + intros key. cbn. split; [tauto|]. intros [[_ ?]|(_ & _ & ?)]; contradiction.
    + intros _ _. split; [reflexivity|]. eexists. exact Hr.
  - split; [|intros; contradiction].
    intros key. cbn. split.
    + intros [<-|[]]. right. auto.
    + intros [[_ ?]|(-> & _ & _)]; [contradiction|auto].
  - split; [|intros; contradiction].
    intros key. cbn. split.
    + intros [<-|[]]. left. auto.
    + intros [[-> _]|(_ & ? & _)]; [auto|contradiction].
  - split; [|intros; contradiction].
    intros key. cbn. split.
    + intros [<-|[]]. left. auto.
    + intros [[-> _]|(_ & ? & _)]; [auto|contradiction].
Qed.

End Translational.

Section SelfAlignment.
Context {Pix : Type} {B : ImageBackend Pix} {L : ImageBackendLaws B}.
Implicit Types (img : EMData Pix) (this_img to : option (EMData Pix)) (s : State Pix).

Lemma transform_attr_store key t (e : EMData Pix) :
  transform_attr key (store_transform key t e) = Some t.
Proof.
  unfold transform_attr, store_transform, set_attr. cbn.
  rewrite lookup_insert_eq. reflexivity.
Qed.

(** C5: self-alignment by the translational aligner.  With a null reference,
    on every normal run the peak [(px, py, pz)] found by the single peak
    search gives the translation [(-px/2, -py/2, -pz/2)], each component
    replaced by [floor(c + 1/2)] when [intonly] is set; this is the
    translation applied to the moving image (after conversion to integers)
    and the one held by the Transform attached under the 3D key for a
    volume and under the 2D key for a plane. *)
Theorem translational_self_alignment img cmp_name cmp_params (p : Dict Pix) r tr :
  run (TranslationalAligner_align (Some img) None cmp_name cmp_params) p = (Ok r, tr) ->
  exists bounds px py pz intonly e,
    peak_searches tr = [(bounds, (px, py, pz))]
    /\ EMObject_to_int (Dict_read "intonly" (INT 0) p) = inr intonly
    /\ r = Some e
    /\ let half := (inject_Z (- px) / 2, inject_Z (- py) / 2, inject_Z (- pz) / 2)%Q in
       let rounded := (floorf (inject_Z (- px) / 2 + (1 # 2)),
                       floorf (inject_Z (- py) / 2 + (1 # 2)),
                       floorf (inject_Z (- pz) / 2 + (1 # 2)))%Q in
       let shift := if intonly =? 0 then half else rounded in
       processors_applied tr = [math_translate_int (to_int_vector shift)]
       /\ (get_zsize img <> 1 ->
           exists t, transform_attr "xform.align3d" e = Some t /\ vec_eq (t_trans t) shift)
       /\ (get_zsize img = 1 -> get_ysize img <> 1 ->
           exists t, transform_attr "xform.align2d" e = Some t /\ vec_eq (t_trans t) shift).
Proof.
  intros E. apply run_inv_eq in E as (s' & E & <-).
  apply TranslationalAligner_run in E as (m & cf & intonly & t & Hm & Hint & Hrun).
  cbn zeta in Hrun. cbn [params trace] in Hm, Hint, Hrun.
  specialize (Hint eq_refl).
  destruct Hrun as (Hpeaks & Hproc & _ & Hr).
  pose proof (calc_max_location_wrap_window cf
                (translational_maxshift (get_xsize img) (get_ysize img) (get_zsize img) m m m).1.1
                (translational_maxshift (get_xsize img) (get_ysize img) (get_zsize img) m m m).1.2
                (translational_maxshift (get_xsize img) (get_ysize img) (get_zsize img) m m m).2)
    as Hwin.
  assert (Hmz : get_zsize img = 1 ->
                (translational_maxshift (get_xsize img) (get_ysize img)
                   (get_zsize img) m m m).2 = 0).
  { intros Hz. unfold translational_maxshift, default_maxshift.
    destruct (m <=? 0); cbn; unfold unit_axis; rewrite Hz; reflexivity. }
  destruct (calc_max_location_wrap _ _ _ _) as [[px py] pz].
  exists (translational_maxshift (get_xsize img) (get_ysize img) (get_zsize img) m m m),
    px, py, pz, intonly.
  eexists. split; [exact Hpeaks|]. split; [exact Hint|]. split; [exact Hr|].
  cbn zeta. cbn [processors_applied flat_map app] in Hproc.
  unfold translational_shift in *.
  assert (Hshift : (if negb (intonly =? 0)
                    then round_components (halve (negated_peak (px, py, pz)))
                    else halve (negated_peak (px, py, pz)))
                   = (if intonly =? 0
                      then (inject_Z (- px) / 2, inject_Z (- py) / 2, inject_Z (- pz) / 2)%Q
                      else (floorf (inject_Z (- px) / 2 + (1 # 2)),
                            floorf (inject_Z (- py) / 2 + (1 # 2)),
                            floorf (inject_Z (- pz) / 2 + (1 # 2)))%Q)).
  { destruct (intonly =? 0); reflexivity. }
  rewrite Hshift in *. clear Hshift.
  split; [exact Hproc|]. split.
  - intros Hz. destruct (Z.eqb_spec (get_zsize img) 1); [contradiction|]. cbn [negb].
    eexists. split; [apply transform_attr_store|].
    cbn. destruct (intonly =? 0); cbn; repeat split; reflexivity.
  - intros Hz Hy. destruct (Z.eqb_spec (get_zsize img) 1); [|contradiction]. cbn [negb].
    destruct (Z.eqb_spec (get_ysize img) 1); [contradiction|]. cbn [negb].
    eexists. split; [apply transform_attr_store|].
    destruct Hwin as (_ & _ & Hpz). rewrite (Hmz Hz) in Hpz.
    assert (pz = 0) by lia. subst pz.
    cbn. destruct (intonly =? 0); cbn; repeat split; reflexivity.
Qed.

End SelfAlignment.

(** ** The translational aligner on concrete images *)

(** A 16 x 16 image aligned to itself with the default parameters. *)
Lemma translational_search_bounds_witness :
  exists r tr,
    (1 <= get_xsize Toy.moving /\ 1 <= get_ysize Toy.moving /\ 1 <= get_zsize Toy.moving)
    /\ run (TranslationalAligner_align (B:=Toy.ties) (Some Toy.moving) None "dot" ∅) ∅
       = (Ok r, tr)
    /\ exists mx my mz peak,
         peak_searches tr = [((mx, my, mz), peak)]
         /\ (((∅ : Dict Toy.Pix) !! "maxshift" = None
              \/ exists m, EMObject_to_int (Dict_read "maxshift" (INT (-1)) (∅ : Dict Toy.Pix))
                           = inr m /\ m <= 0) ->
             mx = get_xsize Toy.moving ÷ 8 /\ my = get_ysize Toy.moving ÷ 8
             /\ mz = get_zsize Toy.moving ÷ 8)
         /\ (forall n m, clamp_maxshift n m <= n ÷ 2 - 1)
         /\ (get_xsize Toy.moving <> 1 -> mx <= get_xsize Toy.moving ÷ 2 - 1)
         /\ (get_ysize Toy.moving <> 1 -> my <= get_ysize Toy.moving ÷ 2 - 1)
         /\ (get_zsize Toy.moving <> 1 -> mz <= get_zsize Toy.moving ÷ 2 - 1)
         /\ (get_xsize Toy.moving = 1 -> mx = 0)
         /\ (get_ysize Toy.moving = 1 -> my = 0)
         /\ (get_zsize Toy.moving = 1 -> mz = 0).
Proof.
  do 2 eexists. split; [cbn; lia|]. split; [vm_compute; reflexivity|].
  eapply (translational_search_bounds (B:=Toy.ties) Toy.moving None "dot" ∅ ∅);
    [cbn; lia | cbn; lia | cbn; lia | vm_compute; reflexivity].
Defined.

(** A one-dimensional image aligned to itself. *)
Lemma translational_transform_key_witness :
  exists r tr,
    run (TranslationalAligner_align (B:=Toy.ties) (Some Toy.line) None "dot" ∅) ∅
    = (Ok r, tr)
    /\ (forall key, In key (attrs_written tr) <->
                    (key = "xform.align3d" /\ get_zsize Toy.line <> 1)
                    \/ (key = "xform.align2d" /\ get_zsize Toy.line = 1
                        /\ get_ysize Toy.line <> 1))
    /\ (get_ysize Toy.line = 1 -> get_zsize Toy.line = 1 ->
        attrs_written tr = []
        /\ exists v, r = Some (process (ImageBackend:=Toy.ties) (math_translate_int v) Toy.line)).
Proof.
  do 2 eexists. split; [vm_compute; reflexivity|].
  eapply (translational_transform_key (B:=Toy.ties) Toy.line None "dot" ∅ ∅).
  vm_compute; reflexivity.
Defined.

(** A 16 x 16 image aligned to itself with [maxshift] 3 and [intonly]. *)
Lemma translational_self_alignment_witness :
  exists r tr,
    run (TranslationalAligner_align (B:=Toy.ties) (Some Toy.moving) None "dot" ∅)
      Toy.intonly_params
    = (Ok r, tr)
    /\ exists bounds px py pz intonly e,
         peak_searches tr = [(bounds, (px, py, pz))]
         /\ EMObject_to_int (Dict_read "intonly" (INT 0) Toy.intonly_params) = inr intonly
         /\ r = Some e
         /\ let half := (inject_Z (- px) / 2, inject_Z (- py) / 2, inject_Z (- pz) / 2)%Q in
            let rounded := (floorf (inject_Z (- px) / 2 + (1 # 2)),
                            floorf (inject_Z (- py) / 2 + (1 # 2)),
                            floorf (inject_Z (- pz) / 2 + (1 # 2)))%Q in
            let shift := if intonly =? 0 then half else rounded in
            processors_applied tr = [math_translate_int (to_int_vector shift)]
            /\ (get_zsize Toy.moving <> 1 ->
                exists t, transform_attr "xform.align3d" e = Some t
                          /\ vec_eq (t_trans t) shift)
            /\ (get_zsize Toy.moving = 1 -> get_ysize Toy.moving <> 1 ->
                exists t, transform_attr "xform.align2d" e = Some t
                          /\ vec_eq (t_trans t) shift).
Proof.
  do 2 eexists. split; [vm_compute; reflexivity|].
  eapply (translational_self_alignment (B:=Toy.ties)
           (L:=Toy_backend_laws Toy.constant_score Toy.never_shrinking)
           Toy.moving "dot" ∅ Toy.intonly_params).
  vm_compute; reflexivity.
Defined.

(** ** The two-branch decisions of the composite aligners *)

Lemma Qlt_bool_irrefl_eq (x y : Q) : (x == y)%Q -> Qlt_bool x y = false.
Proof.
  intros E. unfold Qlt_bool. apply negb_false_iff.
  apply Qle_bool_iff. rewrite E. apply Qle_refl.
Qed.

Lemma Qlt_bool_false_of_lt (x y : Q) : (y < x)%Q -> Qlt_bool x y = false.
Proof.
  intros E. unfold Qlt_bool. apply negb_false_iff.
  apply Qle_bool_iff. apply Qlt_le_weak. exact E.
Qed.

Section Decisions.
Context {Pix : Type} {B : ImageBackend Pix}.
Implicit Types (a b e : EMData Pix) (this_img to : option (EMData Pix)) (s : State Pix).

Lemma bind_run_Ok {A C} (m : M Pix A) (k : A -> M Pix C) s x s1 :
  m s = (Ok x, s1) -> bind m k s = k x s1.
Proof. unfold bind. intros ->. reflexivity. Qed.

Lemma get_align_attr_data key a s r s' :
  get_align_attr key a s = (Ok r, s') -> same_data (snd r) a.
Proof.
  unfold get_align_attr. intros E. run_inv; split; reflexivity.
Qed.

(** C1, as the code has it: in each of the four composite aligners, when
    the comparator scores of the two branches are equal the candidate of the
    second-evaluated branch (rotated by 180 degrees, or aligned to the
    mirrored reference) is the one returned: with its angle lowered by 180
    for the rotational and rotate_translate aligners, flipped about x in
    place for the rotate_flip and rotate_translate_flip aligners. *)
Theorem tie_returns_second_candidate this_img to cmp_name cmp_params s :
  (forall a b c1 c2 ang s1 r s2,
      RotationalAligner_candidates this_img to cmp_name cmp_params s
        = (Ok (a, b, c1, c2, ang), s1) ->
      (c1 == c2)%Q ->
      RotationalAligner_align this_img to cmp_name cmp_params s = (Ok r, s2) ->
      exists e t, r = Some e /\ same_data e b
                  /\ transform_attr "xform.align2d" e = Some t
                  /\ t_alpha t = (ang - 180)%Q)
  /\ (forall a b c1 c2 ang s1 r s2,
      RotateTranslateAligner_candidates this_img to cmp_name cmp_params s
        = (Ok (a, b, c1, c2, ang), s1) ->
      (c1 == c2)%Q ->
      RotateTranslateAligner_align this_img to cmp_name cmp_params s = (Ok r, s2) ->
      exists e t, r = Some e /\ same_data e b
                  /\ transform_attr "xform.align2d" e = Some t
                  /\ t_alpha t = (ang - 180)%Q)
  /\ (forall a b c1 c2 s1,
      RotateFlipAligner_candidates this_img to cmp_name cmp_params s
        = (Ok (a, b, c1, c2), s1) ->
      (c1 == c2)%Q ->
      RotateFlipAligner_align this_img to cmp_name cmp_params s
        = (Ok (Some (process_inplace (xform_flip "x") b)),
           mkState (params s1) (trace s1 ++ [EvProcess (xform_flip "x")])))
  /\ (forall a b c1 c2 s1,
      RotateTranslateFlipAligner_candidates this_img to cmp_name cmp_params s
        = (Ok (a, b, c1, c2), s1) ->
      (c1 == c2)%Q ->
      RotateTranslateFlipAligner_align this_img to cmp_name cmp_params s
        = (Ok (Some (process_inplace (xform_flip "x") b)),
           mkState (params s1) (trace s1 ++ [EvProcess (xform_flip "x")]))).
Proof.
  repeat split.
  - intros a b c1 c2 ang s1 r s2 Hc Heq E.
    unfold RotationalAligner_align in E. rewrite (bind_run_Ok _ _ _ _ _ Hc) in E.
    unfold RotationalAligner_decide in E. rewrite (Qlt_bool_irrefl_eq _ _ Heq) in E.
    run_inv.
    match goal with H : get_align_attr _ _ _ = _ |- _ =>
      apply get_align_attr_data in H as [Hp Hd]; cbn in Hp, Hd end.
    do 2 eexists. split; [reflexivity|]. split; [|split].
    + split; cbn; [exact Hp | exact Hd].
    + apply transform_attr_store.
    + reflexivity.
  - intros a b c1 c2 ang s1 r s2 Hc Heq E.
    unfold RotateTranslateAligner_align in E. rewrite (bind_run_Ok _ _ _ _ _ Hc) in E.
    unfold RotateTranslateAligner_decide in E. rewrite (Qlt_bool_irrefl_eq _ _ Heq) in E.
    run_inv.
    do 2 eexists. split; [reflexivity|]. split; [|split].
    + split; reflexivity.
    + apply transform_attr_store.
    + reflexivity.
  - intros a b c1 c2 s1 Hc Heq.
    unfold RotateFlipAligner_align. rewrite (bind_run_Ok _ _ _ _ _ Hc).
    unfold RotateFlipAligner_decide. rewrite (Qlt_bool_irrefl_eq _ _ Heq).
    reflexivity.
  - intros a b c1 c2 s1 Hc Heq.
    unfold RotateTranslateFlipAligner_align. rewrite (bind_run_Ok _ _ _ _ _ Hc).
    unfold RotateTranslateFlipAligner_decide. rewrite (Qlt_bool_irrefl_eq _ _ Heq).
    reflexivity.
Qed.

(** C7: in the rotate_translate_flip aligner, when the candidate aligned to
    the mirrored reference scores strictly lower, the image returned is that
    candidate flipped about the x axis in place, the flip being the last
    operation of the call. *)
Theorem mirrored_winner_is_flipped_back this_img to cmp_name cmp_params s
    a b c1 c2 s1 :
  RotateTranslateFlipAligner_candidates this_img to cmp_name cmp_params s
    = (Ok (a, b, c1, c2), s1) ->
  (c2 < c1)%Q ->
  RotateTranslateFlipAligner_align this_img to cmp_name cmp_params s
    = (Ok (Some (process_inplace (xform_flip "x") b)),
       mkState (params s1) (trace s1 ++ [EvProcess (xform_flip "x")])).
Proof.
  intros Hc Hlt.
  unfold RotateTranslateFlipAligner_align. rewrite (bind_run_Ok _ _ _ _ _ Hc).
  unfold RotateTranslateFlipAligner_decide. rewrite (Qlt_bool_false_of_lt _ _ Hlt).
  reflexivity.
Qed.

End Decisions.

(** ** The composite aligners on concrete images *)

(** C1 fails as stated: with a comparator that scores every pair alike the
    rotational aligner evaluates two candidates with equal scores and
    returns the second (rotated by 180 degrees), not the first. *)
Lemma tie_returns_rotated_candidate :
  exists first second c ang s1 e s2,
    RotationalAligner_candidates (B:=Toy.ties) (Some Toy.moving) (Some Toy.reference)
      "dot" ∅ Toy.start = (Ok (first, second, c, c, ang), s1)
    /\ RotationalAligner_align (B:=Toy.ties) (Some Toy.moving) (Some Toy.reference)
         "dot" ∅ Toy.start = (Ok (Some e), s2)
    /\ pixels e <> pixels first
    /\ pixels e = pixels second.
Proof.
  do 7 eexists. split; [vm_compute; reflexivity|].
  split; [vm_compute; reflexivity|].
  split; [discriminate | reflexivity].
Defined.

(** The four composite aligners on a pair of 16 x 16 images whose
    candidates all score alike. *)
Lemma tie_returns_second_candidate_witness :
  (exists a b c1 c2 ang s1 r s2,
      RotationalAligner_candidates (B:=Toy.ties) (Some Toy.moving) (Some Toy.reference)
        "dot" ∅ Toy.start = (Ok (a, b, c1, c2, ang), s1)
      /\ (c1 == c2)%Q
      /\ RotationalAligner_align (B:=Toy.ties) (Some Toy.moving) (Some Toy.reference)
           "dot" ∅ Toy.start = (Ok r, s2)
      /\ exists e t, r = Some e /\ same_data e b
                     /\ transform_attr "xform.align2d" e = Some t
                     /\ t_alpha t = (ang - 180)%Q)
  /\ (exists a b c1 c2 ang s1 r s2,
      RotateTranslateAligner_candidates (B:=Toy.ties) (Some Toy.moving) (Some Toy.reference)
        "dot" ∅ Toy.start = (Ok (a, b, c1, c2, ang), s1)
      /\ (c1 == c2)%Q
      /\ RotateTranslateAligner_align (B:=Toy.ties) (Some Toy.moving) (Some Toy.reference)
           "dot" ∅ Toy.start = (Ok r, s2)
      /\ exists e t, r = Some e /\ same_data e b
                     /\ transform_attr "xform.align2d" e = Some t
                     /\ t_alpha t = (ang - 180)%Q)
  /\ (exists a b c1 c2 s1,
      RotateFlipAligner_candidates (B:=Toy.ties) (Some Toy.moving) (Some Toy.reference)
        "dot" ∅ Toy.start = (Ok (a, b, c1, c2), s1)
      /\ (c1 == c2)%Q
      /\ RotateFlipAligner_align (B:=Toy.ties) (Some Toy.moving) (Some Toy.reference)
           "dot" ∅ Toy.start
         = (Ok (Some (process_inplace (ImageBackend:=Toy.ties) (xform_flip "x") b)),
            mkState (params s1) (trace s1 ++ [EvProcess (xform_flip "x")])))
  /\ (exists a b c1 c2 s1,
      RotateTranslateFlipAligner_candidates (B:=Toy.ties) (Some Toy.moving)
        (Some Toy.reference) "dot" ∅ Toy.start = (Ok (a, b, c1, c2), s1)
      /\ (c1 == c2)%Q
      /\ RotateTranslateFlipAligner_align (B:=Toy.ties) (Some Toy.moving)
           (Some Toy.reference) "dot" ∅ Toy.start
         = (Ok (Some (process_inplace (ImageBackend:=Toy.ties) (xform_flip "x") b)),
            mkState (params s1) (trace s1 ++ [EvProcess (xform_flip "x")]))).
Proof.
  pose proof (tie_returns_second_candidate (B:=Toy.ties) (Some Toy.moving)
                (Some Toy.reference) "dot" ∅ Toy.start) as (H1 & H2 & H3 & H4).
  split; [|split; [|split]].
  - do 8 eexists. split; [vm_compute; reflexivity|]. split; [reflexivity|].
    split; [vm_compute; reflexivity|].
    eapply H1; [vm_compute; reflexivity | reflexivity | vm_compute; reflexivity].
  - do 8 eexists. split; [vm_compute; reflexivity|]. split; [reflexivity|].
    split; [vm_compute; reflexivity|].
    eapply H2; [vm_compute; reflexivity | reflexivity | vm_compute; reflexivity].
  - do 5 eexists. split; [vm_compute; reflexivity|]. split; [reflexivity|].
    eapply H3; [vm_compute; reflexivity | reflexivity].
  - do 5 eexists. split; [vm_compute; reflexivity|]. split; [reflexivity|].
    eapply H4; [vm_compute; reflexivity | reflexivity].
Defined.

(** The rotate_translate_flip aligner with a comparator that favours the
    mirrored reference. *)
Lemma mirrored_winner_is_flipped_back_witness :
  exists a b c1 c2 s1,
    RotateTranslateFlipAligner_candidates (B:=Toy.mirror_wins) (Some Toy.moving)
      (Some Toy.reference) "dot" ∅ Toy.start = (Ok (a, b, c1, c2), s1)
    /\ (c2 < c1)%Q
    /\ RotateTranslateFlipAligner_align (B:=Toy.mirror_wins) (Some Toy.moving)
         (Some Toy.reference) "dot" ∅ Toy.start
       = (Ok (Some (process_inplace (ImageBackend:=Toy.mirror_wins) (xform_flip "x") b)),
          mkState (params s1) (trace s1 ++ [EvProcess (xform_flip "x")])).
Proof.
  do 5 eexists. split; [vm_compute; reflexivity|]. split; [reflexivity|].
  eapply (mirrored_winner_is_flipped_back (B:=Toy.mirror_wins));
    [vm_compute; reflexivity | reflexivity].
Defined.

(** ** Forward evaluation of the primitive steps *)

Section Forward.
Context {Pix : Type}.
Implicit Types (s : State Pix).

Lemma bind_ret {A C} (a : A) (k : A -> M Pix C) s : bind (ret a) k s = k a s.
Proof. reflexivity. Qed.

Lemma bind_set_default {C} key (v : EMObject Pix) (k : EMObject Pix -> M Pix C) s :
  bind (set_default key v) k s
  = k (Dict_read key v (params s))
      (mkState (snd (Dict_set_default key v (params s))) (trace s)).
Proof.
  unfold bind, set_default, Dict_read. destruct (Dict_set_default _ _ _). reflexivity.
Qed.

Lemma bind_index {C} key (k : EMObject Pix -> M Pix C) s :
  bind (index key) k s
  = k (fst (Dict_index key (params s)))
      (mkState (snd (Dict_index key (params s))) (trace s)).
Proof.
  unfold bind, index. destruct (Dict_index _ _). reflexivity.
Qed.

Lemma bind_lift_conv {A C} (r : Exception + A) (a : A) (k : A -> M Pix C) s :
  r = inr a -> bind (lift_conv r) k s = k a s.
Proof. intros ->. reflexivity. Qed.


Lemma bind_emit {C} ev (k : unit -> M Pix C) s :
  bind (emit ev) k s = k tt (mkState (params s) (trace s ++ [ev])).
Proof. reflexivity. Qed.

Lemma bind_deref {A C} (a : A) (k : A -> M Pix C) s :
  bind (deref (Some a)) k s = k a s.
Proof. reflexivity. Qed.


End Forward.

Section SlowExhaustive.
Context {Pix : Type} {B : ImageBackend Pix} {L : ImageBackendLaws B}.
Implicit Types (img : EMData Pix) (this_img to flip : option (EMData Pix)) (s : State Pix).

Lemma flipped_reference_trace flip to s :
  flip <> None \/ to <> None ->
  exists f, flipped_reference flip to s
            = (Ok f, mkState (params s)
                       (trace s ++ match flip with
                                   | Some _ => []
                                   | None => [EvProcess (xform_flip "x")]
                                   end)).
Proof.
  intros Hsome. unfold flipped_reference. destruct flip as [f|].
  - exists f. unfold ret. rewrite app_nil_r. destruct s; reflexivity.
  - destruct to as [t|]; [|destruct Hsome; contradiction].
    eexists. reflexivity.
Qed.

(** C6, as the code has it: the slow exhaustive aligner given [transtep]
    at most 0 or [angstep] below 0 (with well-typed parameters and a
    reference or a mirrored reference to work on) raises an
    invalid-parameter failure; when it does, the moving image has been
    copied and, unless the [flip] parameter supplies it, the reference has
    been mirrored, and nothing else has been done to any image. *)
Theorem slow_exhaustive_rejects_steps img to cmp_name cmp_params (p : Dict Pix)
    flip maxshift angstep transtep :
  EMObject_to_EMData (Dict_read "flip" (EMDATA None) p) = inr flip ->
  EMObject_to_int (Dict_read "maxshift" (INT (-1)) p) = inr maxshift ->
  EMObject_to_float (Dict_read "angstep" (FLOAT 0) p) = inr angstep ->
  EMObject_to_float (Dict_read "transtep" (FLOAT 1) p) = inr transtep ->
  flip <> None \/ to <> None ->
  (transtep <= 0 \/ angstep < 0)%Q ->
  exists msg,
    run (RTFSlowExhaustiveAligner_align (Some img) to cmp_name cmp_params) p
    = (Throw (InvalidParameterException msg),
       EvCopy :: match flip with
                 | Some _ => []
                 | None => [EvProcess (xform_flip "x")]
                 end).
Proof.
  intros Hflip Hmax Hang Htrans Href Hbad.
  unfold run, RTFSlowExhaustiveAligner_align.
  rewrite bind_set_default. cbn [params trace].
  rewrite (bind_lift_conv _ _ _ _ Hflip).
  rewrite bind_set_default. cbn [params trace].
  erewrite bind_lift_conv; cycle 1.
  { erewrite Dict_read_ext; [exact Hmax|].
    rewrite Dict_set_default_lookup_ne by discriminate. reflexivity. }
  rewrite bind_deref, bind_emit. cbn [params trace].
  match goal with
  | |- context [bind (flipped_reference flip to) _ ?s0] =>
      destruct (flipped_reference_trace flip to s0 Href) as [f Hf];
      rewrite (bind_run_Ok _ _ _ _ _ Hf)
  end.
  rewrite bind_set_default. cbn [params trace].
  erewrite bind_lift_conv; cycle 1.
  { erewrite Dict_read_ext; [exact Hang|].
    rewrite !Dict_set_default_lookup_ne by discriminate. reflexivity. }
  rewrite bind_set_default. cbn [params trace].
  erewrite bind_lift_conv; cycle 1.
  { erewrite Dict_read_ext; [exact Htrans|].
    rewrite !Dict_set_default_lookup_ne by discriminate. reflexivity. }
  destruct (Qle_bool transtep 0) eqn:Ht.
  - eexists. reflexivity.
  - destruct Hbad as [Hle|Hlt].
    + apply Qle_bool_iff in Hle. congruence.
    + assert (Hne : Qeq_bool angstep 0 = false).
      { destruct (Qeq_bool angstep 0) eqn:He; [|reflexivity].
        apply Qeq_bool_iff in He. rewrite He in Hlt. apply Qlt_irrefl in Hlt. contradiction. }
      assert (Hneg : Qle_bool (angstep * deg2rad) 0 = true).
      { apply Qle_bool_iff. pose proof deg2rad_pos. nra. }
      rewrite Hne, Hneg. eexists. reflexivity.
Qed.

End SlowExhaustive.

(** C6 fails as stated: [angstep] 0 selects the default step and the search
    runs to its end; and with [transtep] 0 the failure comes after the
    moving image has been copied and the reference mirrored. *)
Lemma slow_exhaustive_accepts_zero_angstep :
  EMObject_to_float (Dict_read "angstep" (FLOAT 0) Toy.zero_angstep) = inr 0%Q
  /\ (exists e tr,
       run (RTFSlowExhaustiveAligner_align (B:=Toy.ties) (Some Toy.moving)
              (Some Toy.reference) "dot" ∅) Toy.zero_angstep = (Ok (Some e), tr))
  /\ (exists msg,
       run (RTFSlowExhaustiveAligner_align (B:=Toy.ties) (Some Toy.moving)
              (Some Toy.reference) "dot" ∅) Toy.zero_transtep
       = (Throw (InvalidParameterException msg), [EvCopy; EvProcess (xform_flip "x")])).
Proof.
  split; [reflexivity|]. split.
  - do 2 eexists. vm_compute. reflexivity.
  - eexists. vm_compute. reflexivity.
Defined.

(** The slow exhaustive aligner given [transtep] 0 on a pair of 16 x 16
    images. *)
Lemma slow_exhaustive_rejects_steps_witness :
  exists flip maxshift angstep transtep,
    EMObject_to_EMData (Dict_read "flip" (EMDATA None) Toy.zero_transtep) = inr flip
    /\ EMObject_to_int (Dict_read "maxshift" (INT (-1)) Toy.zero_transtep) = inr maxshift
    /\ EMObject_to_float (Dict_read "angstep" (FLOAT 0) Toy.zero_transtep) = inr angstep
    /\ EMObject_to_float (Dict_read "transtep" (FLOAT 1) Toy.zero_transtep) = inr transtep
    /\ (flip <> None \/ Some Toy.reference <> None)
    /\ (transtep <= 0 \/ angstep < 0)%Q
    /\ exists msg,
         run (RTFSlowExhaustiveAligner_align (B:=Toy.ties) (Some Toy.moving)
                (Some Toy.reference) "dot" ∅) Toy.zero_transtep
         = (Throw (InvalidParameterException msg),
            EvCopy :: match flip with
                      | Some _ => []
                      | None => [EvProcess (xform_flip "x")]
                      end).
Proof.
  exists None, (-1), 0%Q, 0%Q.
  split; [reflexivity|]. split; [reflexivity|]. split; [reflexivity|].
  split; [reflexivity|]. split; [right; discriminate|]. split; [left; apply Qle_refl|].
  apply (slow_exhaustive_rejects_steps (B:=Toy.ties)
           (L:=Toy_backend_laws Toy.constant_score Toy.never_shrinking)
           Toy.moving (Some Toy.reference) "dot" ∅ Toy.zero_transtep None (-1) 0%Q 0%Q);
    [reflexivity | reflexivity | reflexivity | reflexivity
    | right; discriminate | left; apply Qle_refl].
Defined.

(** ** The minimisation loop of the refine aligner *)




Section RefineLoop.
Context {Pix : Type} {B : ImageBackend Pix}.
Implicit Types (s : fminimizer) (st : State Pix).

Lemma iterate_n_shift k s :
  iterate_n (S k) s = iterate_n k (snd (fminimizer_iterate s)).
Proof.
  induction k as [|k IH]; [reflexivity|].
  change (iterate_n (S (S k)) s) with (snd (fminimizer_iterate (iterate_n (S k) s))).
  rewrite IH. reflexivity.
Qed.

Lemma status_at_shift k s :
  status_at (S (S k)) s = status_at (S k) (snd (fminimizer_iterate s)).
Proof. cbn [status_at]. rewrite iterate_n_shift. reflexivity. Qed.

(** The loop returns, for fuel above the iterations left to the cap, the
    state after [k] iterations; none of the first [k - 1] met a stopping
    condition, and the loop stopped at the cap or because the [k]-th
    iteration reported a status or met the size test. *)
Lemma refine_loop_run precision maxiter fuel :
  forall rval iter s st,
    (Z.to_nat (maxiter - iter) < fuel)%nat ->
    exists k,
      refine_loop fuel rval iter precision maxiter s st
      = (Ok (iterate_n k s),
         mkState (params st) (trace st ++ repeat EvMinimizerIterate k))
      /\ (k <= Z.to_nat (maxiter - iter))%nat
      /\ (rval <> GSL_CONTINUE -> k = O)
      /\ (rval = GSL_CONTINUE ->
          (forall j, (1 <= j < k)%nat ->
                     status_at j s = 0
                     /\ gsl_multimin_test_size (fminimizer_size (iterate_n j s)) precision
                        = GSL_CONTINUE)
          /\ (k = Z.to_nat (maxiter - iter)
              \/ (1 <= k)%nat
                 /\ (status_at k s <> 0
                     \/ gsl_multimin_test_size (fminimizer_size (iterate_n k s)) precision
                        <> GSL_CONTINUE))).
Proof.
  induction fuel as [|fuel IH]; intros rval iter s st Hfuel; [lia|].
  cbn [refine_loop].
  destruct (Z.eqb_spec rval GSL_CONTINUE) as [Hr|Hr]; cbn [andb].
  2:{ exists O. cbn [repeat iterate_n]. rewrite app_nil_r.
      split; [destruct st; reflexivity|]. split; [lia|]. split; [reflexivity|].
      intros; contradiction. }
  destruct (Z.ltb_spec iter maxiter) as [Hlt|Hge].
  2:{ exists O. cbn [repeat iterate_n]. rewrite app_nil_r.
      split; [destruct st; reflexivity|]. split; [lia|]. split; [reflexivity|].
      intros _. split; [intros; lia|]. left. lia. }
  rewrite bind_emit.
  destruct (fminimizer_iterate s) as [status s1] eqn:Hit.
  assert (Hs1 : s1 = snd (fminimizer_iterate s)) by (rewrite Hit; reflexivity).
  assert (Hst : status = status_at 1 s) by (cbn; rewrite Hit; reflexivity).
  destruct (Z.eqb_spec status 0) as [H0|H0]; cbn [negb].
  - destruct (IH (gsl_multimin_test_size (fminimizer_size s1) precision) (iter + 1) s1
                (mkState (params st) (trace st ++ [EvMinimizerIterate])))
      as (k & Hrun & Hk & Hstop & Hcont); [lia|].
    exists (S k). rewrite iterate_n_shift, <- Hs1.
    split.
    { rewrite Hrun. cbn [params trace]. rewrite <- app_assoc. reflexivity. }
    split; [lia|]. split; [intros; contradiction|]. intros _.
    destruct (Z.eq_dec (gsl_multimin_test_size (fminimizer_size s1) precision) GSL_CONTINUE)
      as [Hc|Hc].
    + destruct (Hcont Hc) as (Hbefore & Hend). split.
      * intros j Hj. destruct j as [|[|j]]; [lia| |].
        -- split; [congruence|]. cbn [iterate_n]. rewrite <- Hs1. exact Hc.
        -- rewrite status_at_shift, iterate_n_shift, <- Hs1. apply Hbefore. lia.
      * destruct Hend as [Hcap|(Hk1 & Hwhy)]; [left; lia|].
        right. split; [lia|].
        destruct k as [|k]; [lia|].
        rewrite status_at_shift, <- Hs1. exact Hwhy.
    + rewrite (Hstop Hc) in *. split; [intros; lia|].
      right. split; [lia|]. right. cbn [iterate_n]. exact Hc.
  - exists 1%nat. cbn [repeat iterate_n]. rewrite <- Hs1.
    split; [reflexivity|]. split; [lia|]. split; [intros; contradiction|].
    intros _. split; [intros; lia|]. right. split; [lia|]. left. congruence.
Qed.

End RefineLoop.

Section ConversionFailures.
Context {Pix : Type}.

Lemma EMObject_to_int_exn (o : EMObject Pix) e :
  EMObject_to_int o = inl e -> exists msg, e = TypeException msg.
Proof. destruct o; cbn; intros E; inversion E; eauto. Qed.

Lemma EMObject_to_float_exn (o : EMObject Pix) e :
  EMObject_to_float o = inl e -> exists msg, e = TypeException msg.
Proof. destruct o; cbn; intros E; inversion E; eauto. Qed.

Lemma EMObject_to_Transform_exn (o : EMObject Pix) e :
  EMObject_to_Transform o = inl e -> exists msg, e = TypeException msg.
Proof. destruct o; cbn; intros E; inversion E; eauto. Qed.

End ConversionFailures.


Section Refine.
Context {Pix : Type} {B : ImageBackend Pix} {L : ImageBackendLaws B}.
Implicit Types (img t result : EMData Pix).



End Refine.





(** ** The size of the image returned *)

Section OutputSize.
Context {Pix : Type} {B : ImageBackend Pix} {L : ImageBackendLaws B}.
Implicit Types (img t e : EMData Pix) (this_img to : option (EMData Pix)).

(** X22: every strategy other than rotate_precenter: an image returned by
    [align] has the size of the moving image. *)
Theorem align_keeps_dimensions (a : Strategy) this_img to cmp_name cmp_params s e s' :
  a <> RotatePrecenter ->
  align a this_img to cmp_name cmp_params s = (Ok (Some e), s') ->
  exists img, this_img = Some img /\ dims e = dims img.
Proof.
  intros Ha E.
  destruct this_img as [img|].
  2:{ exfalso. destruct a; try contradiction; cbn [align] in E.
      - discriminate E.
      - unfold RotationalAligner_align, RotationalAligner_candidates,
          align_180_ambiguous in E.
        destruct to; run_inv.
      - unfold RotateTranslateAligner_align, RotateTranslateAligner_candidates,
          align_180_ambiguous in E.
        run_inv.
      - unfold RotateFlipAligner_align, RotateFlipAligner_candidates in E. run_inv.
      - unfold RotateTranslateFlipAligner_align,
          RotateTranslateFlipAligner_candidates in E. run_inv.
      - unfold RTFExhaustiveAligner_align in E. run_inv.
      - unfold RTFSlowExhaustiveAligner_align in E. run_inv.
      - unfold RefineAligner_align in E. destruct to; run_inv. }
  exists img. split; [reflexivity|].
  destruct a; try contradiction; cbn [align] in E.
  - apply TranslationalAligner_dims in E as (? & ? & ?). some_inj. assumption.
  - apply RotationalAligner_dims in E as (? & ? & ?). some_inj. assumption.
  - apply RotateTranslateAligner_dims in E as (? & ? & ?). some_inj. assumption.
  - apply RotateFlipAligner_dims in E as (? & ? & ?). some_inj. assumption.
  - apply RotateTranslateFlipAligner_dims in E as (? & ? & ?). some_inj. assumption.
  - apply RTFExhaustiveAligner_dims in E as (? & ? & ?). some_inj. assumption.
  - apply RTFSlowExhaustiveAligner_dims in E as (? & ? & ?). some_inj. assumption.
  - apply RefineAligner_dims in E. apply E. reflexivity.
Qed.

(** C3 does not hold of the rotate_precenter strategy: whenever it returns
    an image, that image is [cf], the row-wise correlation of the two
    unwrapped images, with the alignment Transform attached; its samples
    and its size are those of the correlation, not of the moving image. *)
Theorem rotate_precenter_returns_correlation img t cmp_name cmp_params s r s' :
  align RotatePrecenter (Some img) (Some t) cmp_name cmp_params s = (Ok r, s') ->
  let ny := get_ysize img in
  let size := calc_best_fft_size (float_to_int (M_PI * inject_Z ny * (3 # 2))%Q) in
  let e1 := unwrap 4 (ny * 7 ÷ 16) size 0 0 true img in
  let e2 := unwrap 4 (ny * 7 ÷ 16) size 0 0 true t in
  exists e, r = Some e /\ same_data e (calc_ccfx e1 e2 0 ny).
Proof.
  intros E. cbn [align] in E. unfold RotatePrecenterAligner_align in E.
  run_inv.
  match goal with H : get_set_align_attr _ _ _ _ = _ |- _ =>
    apply get_set_align_attr_run in H as (? & ? & ?) end.
  some_inj. cbn zeta. eexists. split; [reflexivity|]. split; reflexivity.
Qed.

End OutputSize.

(** The eight strategies other than rotate_precenter on a pair of 16 x 16
    images: each returns an image, of the size of the moving image. *)
Lemma align_keeps_dimensions_witness :
  Forall (fun a =>
            a <> RotatePrecenter
            /\ exists e s',
                 align (B:=Toy.ties) a (Some Toy.moving) (Some Toy.reference)
                   "dot" ∅ Toy.start = (Ok (Some e), s')
                 /\ exists img, Some Toy.moving = Some img /\ dims e = dims img)
         [Translational; Rotational; RotateTranslate; RotateFlip; RotateTranslateFlip;
          RTFExhaustive; RTFSlowExhaustive; Refine].
Proof.
  repeat
    (constructor 2;
     [ lazy beta;
       match goal with
       | |- ?a <> _ /\ _ =>
           split; [discriminate|];
           do 2 eexists; split; [vm_compute; reflexivity|];
           eapply (align_keeps_dimensions (B:=Toy.ties)
                     (L:=Toy_backend_laws Toy.constant_score Toy.never_shrinking) a
                     (Some Toy.moving) (Some Toy.reference) "dot" ∅ Toy.start);
           [discriminate | vm_compute; reflexivity]
       end
     | ]).
  constructor 1.
Defined.

(** The rotate_precenter strategy on a pair of 16 x 16 images returns a
    75 x 1 x 1 image, the correlation of the unwrapped images. *)
Lemma rotate_precenter_returns_correlation_witness :
  exists r s',
    align (B:=Toy.ties) RotatePrecenter (Some Toy.moving) (Some Toy.reference)
      "dot" ∅ Toy.start = (Ok r, s')
    /\ (exists e, r = Some e
                  /\ same_data e
                       (calc_ccfx (ImageBackend:=Toy.ties)
                          (unwrap (ImageBackend:=Toy.ties) 4 7 75 0 0 true Toy.moving)
                          (unwrap (ImageBackend:=Toy.ties) 4 7 75 0 0 true Toy.reference)
                          0 16)
                  /\ dims e = (75, 1, 1)
                  /\ dims e <> dims Toy.moving).
Proof.
  do 2 eexists. split; [vm_compute; reflexivity|].
  destruct (rotate_precenter_returns_correlation (B:=Toy.ties)
              Toy.moving Toy.reference "dot" ∅ Toy.start _ _ eq_refl)
    as (e & He & Hdata).
  exists e. split; [exact He|]. split; [exact Hdata|].
  injection He as <-. split; [reflexivity | discriminate].
Defined.

(** ** The fuel of the loops suffices *)

Lemma Qfloor_pred (q : Q) : Qfloor (q - 1) = Qfloor q - 1.
Proof.
  pose proof (Qfloor_le q) as H1. pose proof (Qlt_floor q) as H2.
  pose proof (Qfloor_le (q - 1)) as H3. pose proof (Qlt_floor (q - 1)) as H4.
  rewrite inject_Z_plus in H2, H4.
  change (inject_Z 1) with 1%Q in H2, H4.
  assert (Ha : (inject_Z (Qfloor (q - 1)) < inject_Z (Qfloor q))%Q) by lra.
  assert (Hb : (inject_Z (Qfloor q) < inject_Z (Qfloor (q - 1) + 2))%Q).
  { rewrite inject_Z_plus. change (inject_Z 2) with 2%Q. lra. }
  rewrite <- Zlt_Qlt in Ha, Hb. lia.
Qed.

Section Termination.
Context {Pix : Type} {B : ImageBackend Pix}.
Implicit Types (this_img to : option (EMData Pix)).

Lemma fuelled_bind {A C} (m : M Pix A) (k : A -> M Pix C) :
  fuelled m -> (forall a, fuelled (k a)) -> fuelled (bind m k).
Proof.
  intros Hm Hk s. unfold bind. specialize (Hm s).
  destruct (m s) as [[a| | |] s1]; cbn in *; try discriminate; [apply Hk | contradiction].
Qed.

Lemma fuelled_ret {A} (a : A) : fuelled (ret a : M Pix A).
Proof. intros s. discriminate. Qed.

Lemma fuelled_throw {A} e : fuelled (throw e : M Pix A).
Proof. intros s. discriminate. Qed.

Lemma fuelled_deref {A} (p : option A) : fuelled (deref p : M Pix A).
Proof. intros s. destruct p; discriminate. Qed.

Lemma fuelled_emit ev : fuelled (emit ev : M Pix unit).
Proof. intros s. discriminate. Qed.

Lemma fuelled_lift_conv {A} (r : Exception + A) : fuelled (lift_conv r : M Pix A).
Proof. intros s. destruct r; discriminate. Qed.

Lemma fuelled_set_default key (v : EMObject Pix) : fuelled (set_default key v).
Proof. intros s. unfold set_default. destruct (Dict_set_default _ _ _). discriminate. Qed.

Lemma fuelled_index key : fuelled (index key : M Pix (EMObject Pix)).
Proof. intros s. unfold index. destruct (Dict_index _ _). discriminate. Qed.

Lemma fuelled_get_attr key (e : EMData Pix) : fuelled (get_attr key e).
Proof. intros s. unfold get_attr. destruct (attr_dict e !! key); discriminate. Qed.

Lemma fuelled_with_params {A} (p : Dict Pix) (m : M Pix A) :
  fuelled m -> fuelled (with_params p m).
Proof.
  intros Hm s. unfold with_params. specialize (Hm (mkState p (trace s))).
  destruct (m _) as [o s1]. exact Hm.
Qed.

Lemma fuelled_for_each {A S} (l : list A) (body : A -> S -> M Pix S) :
  (forall a s, fuelled (body a s)) -> forall s, fuelled (for_each l body s).
Proof.
  intros Hb. induction l as [|a l IH]; intros s; cbn [for_each].
  - apply fuelled_ret.
  - apply fuelled_bind; [apply Hb | exact IH].
Qed.

Lemma fuelled_for_float {S} (body : Q -> S -> M Pix S) (hi step : Q) :
  (0 < step)%Q ->
  (forall x s, fuelled (body x s)) ->
  forall fuel x s,
    (Z.to_nat (Qfloor ((hi - x) / step) + 1) + 1 <= fuel)%nat ->
    fuelled (for_float fuel x hi step body s).
Proof.
  intros Hstep Hb. induction fuel as [|fuel IH]; intros x s Hfuel; [lia|].
  cbn [for_float]. destruct (Qle_bool x hi) eqn:Hle; [|apply fuelled_ret].
  apply fuelled_bind; [apply Hb|]. intros s1. apply IH.
  apply Qle_bool_iff in Hle.
  assert (Heq : ((hi - (x + step)) / step == (hi - x) / step - 1)%Q) by (field; lra).
  rewrite Heq, Qfloor_pred.
  assert (0 <= Qfloor ((hi - x) / step)).
  { change 0 with (Qfloor 0). apply Qfloor_resp_le.
    apply Qle_shift_div_l; [exact Hstep|]. lra. }
  lia.
Qed.

(** A loop from [lo] to [hi] by a positive [step] given [float_loop_fuel]
    runs to its end. *)
Lemma fuelled_float_loop {S} (body : Q -> S -> M Pix S) (lo hi step : Q) s :
  (0 < step)%Q ->
  (forall x s, fuelled (body x s)) ->
  fuelled (for_float (float_loop_fuel lo hi step) lo hi step body s).
Proof.
  intros Hstep Hb. apply fuelled_for_float; [exact Hstep | exact Hb |].
  unfold float_loop_fuel. lia.
Qed.

End Termination.

Create HintDb fuel discriminated.

#[export] Hint Resolve fuelled_ret fuelled_throw fuelled_deref fuelled_emit
  fuelled_lift_conv fuelled_set_default fuelled_index fuelled_get_attr : fuel.

(** Takes a run apart down to its primitive steps. *)
Ltac fuelled_steps :=
  repeat first
    [ solve [auto with fuel nocore]
    | apply fuelled_bind; [|intros ?]
    | apply fuelled_with_params
    | apply fuelled_for_each; intros ? ?
    | match goal with
      | |- fuelled (if ?c then _ else _) => destruct c eqn:?
      | |- fuelled (let '(_, _) := ?p in _) => destruct p
      | |- fuelled (match ?p with Some _ => _ | None => _ end) => destruct p
      end ].

Section AlignersTerminate.
Context {Pix : Type} {B : ImageBackend Pix}.
Implicit Types (image from_image a b : EMData Pix) (this_img to flip : option (EMData Pix)).

Lemma fuelled_get_set_align_attr key image from_image :
  fuelled (get_set_align_attr key image from_image).
Proof. unfold get_set_align_attr. fuelled_steps. Qed.

Lemma fuelled_get_align_attr key image : fuelled (get_align_attr key image).
Proof. unfold get_align_attr. fuelled_steps. Qed.

#[local] Hint Resolve fuelled_get_set_align_attr fuelled_get_align_attr : fuel.

Lemma fuelled_TranslationalAligner this_img to cmp_name cmp_params :
  fuelled (TranslationalAligner_align this_img to cmp_name cmp_params).
Proof. unfold TranslationalAligner_align. destruct this_img; fuelled_steps. Qed.

Lemma fuelled_align_180_ambiguous this_img to rfp_mode :
  fuelled (align_180_ambiguous this_img to rfp_mode).
Proof. unfold align_180_ambiguous. fuelled_steps. Qed.

#[local] Hint Resolve fuelled_TranslationalAligner fuelled_align_180_ambiguous : fuel.

Lemma fuelled_RotationalAligner this_img to cmp_name cmp_params :
  fuelled (RotationalAligner_align this_img to cmp_name cmp_params).
Proof.
  unfold RotationalAligner_align, RotationalAligner_candidates, RotationalAligner_decide.
  destruct to; fuelled_steps.
Qed.

Lemma fuelled_RotatePrecenterAligner this_img to cmp_name cmp_params :
  fuelled (RotatePrecenterAligner_align this_img to cmp_name cmp_params).
Proof. unfold RotatePrecenterAligner_align. destruct to; fuelled_steps. Qed.

Lemma fuelled_RotateTranslateAligner this_img to cmp_name cmp_params :
  fuelled (RotateTranslateAligner_align this_img to cmp_name cmp_params).
Proof.
  unfold RotateTranslateAligner_align, RotateTranslateAligner_candidates,
    RotateTranslateAligner_decide.
  fuelled_steps.
Qed.

Lemma fuelled_flipped_reference flip to : fuelled (flipped_reference flip to).
Proof. unfold flipped_reference. destruct flip; fuelled_steps. Qed.

#[local] Hint Resolve fuelled_RotationalAligner fuelled_RotateTranslateAligner
  fuelled_flipped_reference : fuel.

Lemma fuelled_RotateTranslateFlipAligner this_img to cmp_name cmp_params :
  fuelled (RotateTranslateFlipAligner_align this_img to cmp_name cmp_params).
Proof.
  unfold RotateTranslateFlipAligner_align, RotateTranslateFlipAligner_candidates,
    RotateTranslateFlipAligner_decide.
  fuelled_steps.
Qed.

Lemma fuelled_RotateFlipAligner this_img to cmp_name cmp_params :
  fuelled (RotateFlipAligner_align this_img to cmp_name cmp_params).
Proof.
  unfold RotateFlipAligner_align, RotateFlipAligner_candidates, RotateFlipAligner_decide.
  fuelled_steps.
Qed.

Lemma fuelled_rtf_exhaustive_candidate a b1 b2 b3 b4 r2 xs cmp_name cmp_params dx dy best :
  fuelled (rtf_exhaustive_candidate a b1 b2 b3 b4 r2 xs cmp_name cmp_params dx dy best).
Proof. unfold rtf_exhaustive_candidate. fuelled_steps. Qed.

Lemma fuelled_rtf_slow_candidate a b1 b2 cmp_name cmp_params dx dy ang best :
  fuelled (rtf_slow_candidate a b1 b2 cmp_name cmp_params dx dy ang best).
Proof. unfold rtf_slow_candidate. fuelled_steps. Qed.

#[local] Hint Resolve fuelled_rtf_exhaustive_candidate fuelled_rtf_slow_candidate : fuel.

(** The seven values [b - 3], ..., [b + 3] and the failed test after them. *)
Lemma fuelled_window {S} (body : Q -> S -> M Pix S) (b : Q) s :
  (forall x s, fuelled (body x s)) ->
  fuelled (for_float 8 (b - 3) (b + 3) 1 body s).
Proof.
  intros Hb. apply fuelled_for_float; [reflexivity | exact Hb |].
  assert (Heq : ((b + 3 - (b - 3)) / 1 == 6)%Q) by (field).
  rewrite Heq. vm_compute. lia.
Qed.

Lemma fuelled_RTFExhaustiveAligner this_img to cmp_name cmp_params :
  fuelled (RTFExhaustiveAligner_align this_img to cmp_name cmp_params).
Proof.
  unfold RTFExhaustiveAligner_align, for_int.
  fuelled_steps.
  all: try (apply fuelled_window; intros ? ?; fuelled_steps).
  all: try (apply fuelled_window; intros ? ?; fuelled_steps).
Qed.

Lemma Qle_bool_false_lt (x y : Q) : Qle_bool x y = false -> (y < x)%Q.
Proof.
  intros E. apply Qnot_le_lt. intros Hle. apply Qle_bool_iff in Hle. congruence.
Qed.

Lemma fuelled_RTFSlowExhaustiveAligner this_img to cmp_name cmp_params :
  fuelled (RTFSlowExhaustiveAligner_align this_img to cmp_name cmp_params).
Proof.
  unfold RTFSlowExhaustiveAligner_align, for_int.
  fuelled_steps.
  all: repeat match goal with
       | H : Qle_bool _ 0 = false |- _ => apply Qle_bool_false_lt in H
       end.
  all: repeat (apply fuelled_float_loop; [lra | intros ? ?]; fuelled_steps).
Qed.

Lemma fuelled_refine_loop precision maxiter fuel rval iter (s : fminimizer) :
  (Z.to_nat (maxiter - iter) < fuel)%nat ->
  fuelled (refine_loop fuel rval iter precision maxiter s).
Proof.
  intros Hfuel st.
  destruct (refine_loop_run precision maxiter fuel rval iter s st Hfuel) as (k & -> & _).
  discriminate.
Qed.

Lemma fuelled_RefineAligner this_img to cmp_name cmp_params :
  fuelled (RefineAligner_align this_img to cmp_name cmp_params).
Proof.
  unfold RefineAligner_align, RefineAligner_minimize.
  destruct to; fuelled_steps.
  all: try (apply fuelled_refine_loop; lia).
  all: fuelled_steps.
Qed.

(** No strategy stops for lack of fuel: every call of [align] returns,
    throws or dereferences a null pointer. *)
Theorem align_fuelled (st : Strategy) this_img to cmp_name cmp_params :
  fuelled (align st this_img to cmp_name cmp_params).
Proof.
  destruct st; cbn [align].
  - apply fuelled_TranslationalAligner.
  - apply fuelled_RotationalAligner.
  - apply fuelled_RotatePrecenterAligner.
  - apply fuelled_RotateTranslateAligner.
  - apply fuelled_RotateFlipAligner.
  - apply fuelled_RotateTranslateFlipAligner.
  - apply fuelled_RTFExhaustiveAligner.
  - apply fuelled_RTFSlowExhaustiveAligner.
  - apply fuelled_RefineAligner.
Qed.

End AlignersTerminate.

(** ** Which exceptions a run can raise *)

Section Raises.
Context {Pix : Type}.

Lemma raises_bind {A C} (m : M Pix A) (k : A -> M Pix C) P :
  raises m P -> (forall a, raises (k a) P) -> raises (bind m k) P.
Proof.
  intros Hm Hk s e s' E. unfold bind in E.
  destruct (m s) as [[a| e0 | |] s1] eqn:Em; try discriminate.
  - eapply Hk. exact E.
  - injection E as <- <-. eapply Hm. exact Em.
Qed.

(** The continuation need only be considered on the results [m] returns. *)
Lemma raises_bind_ensures {A C} (m : M Pix A) (k : A -> M Pix C) P Q :
  ensures m Q -> raises m P -> (forall a, Q a -> raises (k a) P) -> raises (bind m k) P.
Proof.
  intros HQ Hm Hk s e s' E. unfold bind in E.
  destruct (m s) as [[a| e0 | |] s1] eqn:Em; try discriminate.
  - eapply Hk; [eapply HQ; exact Em | exact E].
  - injection E as <- <-. eapply Hm. exact Em.
Qed.

Lemma raises_ret {A} (a : A) P : raises (ret a : M Pix A) P.
Proof. intros s e s' E. discriminate E. Qed.

Lemma raises_throw {A} e P : P e -> raises (throw e : M Pix A) P.
Proof. intros He s e' s' E. injection E as <- <-. exact He. Qed.

Lemma raises_out_of_fuel {A} P : raises (out_of_fuel : M Pix A) P.
Proof. intros s e s' E. discriminate E. Qed.

Lemma raises_deref {A} (p : option A) P : raises (deref p : M Pix A) P.
Proof. intros s e s' E. destruct p; discriminate E. Qed.

Lemma raises_emit ev P : raises (emit ev : M Pix unit) P.
Proof. intros s e s' E. discriminate E. Qed.

Lemma raises_lift_conv {A} (r : Exception + A) P :
  (forall e, r = inl e -> P e) -> raises (lift_conv r : M Pix A) P.
Proof.
  intros Hr s e s' E. destruct r as [e0|a]; [|discriminate E].
  injection E as <- <-. apply Hr. reflexivity.
Qed.

Lemma raises_set_default key (v : EMObject Pix) P : raises (set_default key v) P.
Proof.
  intros s e s' E. unfold set_default in E.
  destruct (Dict_set_default _ _ _). discriminate E.
Qed.

Lemma raises_index key P : raises (index key : M Pix (EMObject Pix)) P.
Proof.
  intros s e s' E. unfold index in E. destruct (Dict_index _ _). discriminate E.
Qed.

Lemma raises_with_params {A} (p : Dict Pix) (m : M Pix A) P :
  raises m P -> raises (with_params p m) P.
Proof.
  intros Hm s e s' E. unfold with_params in E.
  destruct (m _) as [o s1] eqn:Em. injection E as -> <-. eapply Hm. exact Em.
Qed.

Lemma raises_weaken {A} (m : M Pix A) (P Q : Exception -> Prop) :
  (forall e, P e -> Q e) -> raises m P -> raises m Q.
Proof. intros HPQ Hm s e s' E. apply HPQ. eapply Hm. exact E. Qed.

Lemma raises_to_int (o : EMObject Pix) P :
  (forall msg, P (TypeException msg)) -> raises (lift_conv (EMObject_to_int o) : M Pix Z) P.
Proof.
  intros HP. apply raises_lift_conv. intros e He.
  apply EMObject_to_int_exn in He as [msg ->]. apply HP.
Qed.

Lemma raises_to_float (o : EMObject Pix) P :
  (forall msg, P (TypeException msg)) -> raises (lift_conv (EMObject_to_float o) : M Pix Q) P.
Proof.
  intros HP. apply raises_lift_conv. intros e He.
  apply EMObject_to_float_exn in He as [msg ->]. apply HP.
Qed.

Lemma raises_to_Transform (o : EMObject Pix) P :
  (forall msg, P (TypeException msg)) ->
  raises (lift_conv (EMObject_to_Transform o) : M Pix (option Transform)) P.
Proof.
  intros HP. apply raises_lift_conv. intros e He.
  apply EMObject_to_Transform_exn in He as [msg ->]. apply HP.
Qed.

Lemma raises_to_EMData (o : EMObject Pix) P :
  (forall msg, P (TypeException msg)) ->
  raises (lift_conv (EMObject_to_EMData o) : M Pix (option (EMData Pix))) P.
Proof.
  intros HP. apply raises_lift_conv. intros e He.
  destruct o; cbn in He; inversion He; apply HP.
Qed.

End Raises.

Section RaisesAligners.
Context {Pix : Type} {B : ImageBackend Pix}.
Implicit Types (img t image from_image : EMData Pix) (this_img to : option (EMData Pix))
  (s : State Pix).

(** The key is looked up only when the image has it: no lookup fails. *)
Lemma raises_get_set_align_attr key image from_image P :
  (forall msg, P (TypeException msg)) ->
  raises (get_set_align_attr key image from_image) P.
Proof.
  intros HP. unfold get_set_align_attr, has_attr, get_attr.
  apply raises_bind; [|intros; apply raises_bind; [apply raises_emit | intros; apply raises_ret]].
  destruct (attr_dict from_image !! key) as [o|]; [|apply raises_ret].
  apply raises_bind; [apply raises_ret|]. intros o'.
  apply raises_bind; [apply raises_to_Transform, HP|]. intros p. apply raises_deref.
Qed.

Lemma raises_get_align_attr key image P :
  (forall msg, P (TypeException msg)) ->
  raises (get_align_attr key image) P.
Proof.
  intros HP. unfold get_align_attr, has_attr, get_attr.
  destruct (attr_dict image !! key) as [o|].
  - apply raises_bind; [apply raises_ret|]. intros o'.
    apply raises_bind; [apply raises_to_Transform, HP|]. intros p.
    apply raises_bind; [apply raises_deref|]. intros; apply raises_ret.
  - apply raises_bind; [apply raises_emit | intros; apply raises_ret].
Qed.

End RaisesAligners.

Create HintDb exn discriminated.

#[export] Hint Resolve raises_ret raises_deref raises_emit raises_set_default raises_index
  raises_out_of_fuel : exn.

(** Takes a run apart down to its primitive steps, for exceptions of the
    kinds listed. *)
Ltac raises_steps :=
  repeat first
    [ solve [auto with exn nocore]
    | solve [apply raises_throw; cbn; tauto]
    | solve [apply raises_to_int; intros; cbn; tauto]
    | solve [apply raises_to_float; intros; cbn; tauto]
    | solve [apply raises_to_Transform; intros; cbn; tauto]
    | solve [apply raises_to_EMData; intros; cbn; tauto]
    | solve [apply raises_get_set_align_attr; intros; cbn; tauto]
    | solve [apply raises_get_align_attr; intros; cbn; tauto]
    | match goal with
      | |- raises (bind _ _) _ => apply raises_bind; [|intros ?]
      | |- raises (with_params _ _) _ => apply raises_with_params
      | |- raises (if ?c then _ else _) _ => destruct c eqn:?
      | |- raises (let '(_, _) := ?p in _) _ => destruct p
      | |- raises (match ?p with Some _ => _ | None => _ end) _ => destruct p
      end ].

Section ForwardMore.
Context {Pix : Type}.
Implicit Types (s : State Pix).

Lemma bind_bind {A C D} (m : M Pix A) (k : A -> M Pix C) (k' : C -> M Pix D) s :
  bind (bind m k) k' s = bind m (fun a => bind (k a) k') s.
Proof. unfold bind. destruct (m s) as [[a| | |] s1]; reflexivity. Qed.

Lemma bind_run_Throw {A C} (m : M Pix A) (k : A -> M Pix C) s e s1 :
  m s = (Throw e, s1) -> bind m k s = (Throw e, s1).
Proof. unfold bind. intros ->. reflexivity. Qed.

Lemma with_params_run {A} (p : Dict Pix) (m : M Pix A) s o s1 :
  m (mkState p (trace s)) = (o, s1) ->
  with_params p m s = (o, mkState (params s) (trace s1)).
Proof. unfold with_params. intros ->. reflexivity. Qed.

Lemma Qlt_bool_true_of_lt (x y : Q) : (x < y)%Q -> Qlt_bool x y = true.
Proof.
  intros H. unfold Qlt_bool. destruct (Qle_bool y x) eqn:E; [|reflexivity].
  apply Qle_bool_iff in E. exfalso. apply (Qlt_not_le _ _ H E).
Qed.

End ForwardMore.

Section StateInversion.
Context {Pix : Type}.

Lemma with_params_Ok_inv_state {A} (p : Dict Pix) (m : M Pix A) c s s' :
  with_params p m s = (Ok c, s') ->
  exists s1, m (mkState p (trace s)) = (Ok c, s1)
             /\ s' = mkState (params s) (trace s1).
Proof.
  unfold with_params. destruct (m _) as [o s1] eqn:E. intros E'.
  inversion E'; subst. eauto.
Qed.

End StateInversion.

(** Decomposes a normal run, keeping track of the state through every
    step, calls on a sub-aligner included. *)
Ltac run_inv_st :=
  repeat match goal with
  | H : bind _ _ _ = (Ok _, _) |- _ =>
      let a := fresh "a" in let s := fresh "s" in
      let H1 := fresh "Hrun" in
      apply bind_Ok_inv in H as (a & s & H1 & H)
  | H : ret _ _ = (Ok _, _) |- _ => apply ret_Ok_inv in H as [? ?]; try discriminate; subst
  | H : throw _ _ = (Ok _, _) |- _ => apply throw_Ok_inv in H; contradiction
  | H : out_of_fuel _ = (Ok _, _) |- _ => apply out_of_fuel_Ok_inv in H; contradiction
  | H : deref _ _ = (Ok _, _) |- _ =>
      let Hp := fresh "Hp" in
      apply deref_Ok_inv in H as [Hp ?]; subst;
      try discriminate; try (injection Hp as Hp; subst)
  | H : emit _ _ = (Ok _, _) |- _ => apply emit_Ok_inv in H; subst; cbn [params trace] in *
  | H : lift_conv _ _ = (Ok _, _) |- _ => apply lift_conv_Ok_inv in H as [? ?]; subst
  | H : with_params _ _ _ = (Ok _, _) |- _ =>
      let s1 := fresh "s" in
      apply with_params_Ok_inv_state in H as (s1 & H & ?); subst; cbn [params trace] in *
  | H : get_attr _ _ _ = (Ok _, _) |- _ => apply get_attr_Ok_inv in H as [? ?]; subst
  | H : set_default _ _ _ = (Ok _, _) |- _ =>
      apply set_default_Ok_inv in H as [? ?]; subst; cbn [params trace] in *
  | H : index _ _ = (Ok _, _) |- _ =>
      apply index_Ok_inv in H as [? ?]; subst; cbn [params trace] in *
  | H : (let '(_, _) := ?p in _) _ = (Ok _, _) |- _ => destruct p eqn:?
  | H : (if ?c then _ else _) _ = (Ok _, _) |- _ => destruct c eqn:?
  | H : (match ?p with Some _ => _ | None => _ end) _ = (Ok _, _) |- _ => destruct p eqn:?
  end.

(** ** The translational aligner: size check, operations and shift *)

Section TranslationalMore.
Context {Pix : Type} {B : ImageBackend Pix}.
Implicit Types (img t : EMData Pix) (this_img to : option (EMData Pix)) (s : State Pix).

Lemma is_same_size_dims img t : is_same_size img t = true <-> dims img = dims t.
Proof.
  unfold is_same_size, dims. rewrite !andb_true_iff, !Z.eqb_eq. split.
  - intros [[-> ->] ->]. reflexivity.
  - intros E. injection E as -> -> ->. auto.
Qed.

Lemma raises_TranslationalAligner img to cmp_name cmp_params :
  raises (TranslationalAligner_align (Some img) to cmp_name cmp_params)
         (of_kinds [KImageDimension; KType]).
Proof. unfold TranslationalAligner_align, of_kinds. raises_steps. Qed.

(** X1: the size check of the translational aligner (lines 102-104).  Given
    a reference whose size differs from the moving image's, the aligner
    throws the image-dimension exception before reading a parameter or
    touching an image: bag and trace are as they were.  Conversely this is
    the only way the aligner throws an image-dimension exception: it comes
    from a reference of another size, never from self-alignment. *)
Theorem translational_size_mismatch img to cmp_name cmp_params s :
  (forall t, to = Some t -> dims img <> dims t ->
     TranslationalAligner_align (Some img) to cmp_name cmp_params s
     = (Throw (ImageDimensionException
                 "Images must be the same size to perform translational alignment"), s))
  /\ (forall msg s',
        TranslationalAligner_align (Some img) to cmp_name cmp_params s
        = (Throw (ImageDimensionException msg), s') ->
        exists t, to = Some t /\ dims img <> dims t).
Proof.
  split.
  - intros t -> Hd. unfold TranslationalAligner_align.
    destruct (is_same_size img t) eqn:E; [apply is_same_size_dims in E; contradiction|].
    reflexivity.
  - intros msg s' E. destruct to as [t|].
    + exists t. split; [reflexivity|]. intros Hd. apply is_same_size_dims in Hd.
      unfold TranslationalAligner_align in E. rewrite Hd in E. cbn [negb] in E.
      rewrite bind_ret in E.
      revert E.
      match goal with |- ?m s = _ -> _ =>
        assert (Hr : raises m (of_kinds [KType])) by (unfold of_kinds; raises_steps)
      end.
      intros E. apply Hr in E. cbn in E. intuition discriminate.
    + exfalso. unfold TranslationalAligner_align in E. rewrite bind_ret in E.
      revert E.
      match goal with |- ?m s = _ -> _ =>
        assert (Hr : raises m (of_kinds [KType])) by (unfold of_kinds; raises_steps)
      end.
      intros E. apply Hr in E. cbn in E. intuition discriminate.
Qed.


Lemma Dict_index_read key (d : Dict Pix) :
  fst (Dict_index key d) = Dict_read key UNKNOWN d.
Proof.
  unfold Dict_index, Dict_read, Dict_set_default. destruct (d !! key); reflexivity.
Qed.

(** The operations of a normal run of the translational aligner. *)
Lemma TranslationalAligner_trace img to cmp_name cmp_params s r s' :
  TranslationalAligner_align (Some img) to cmp_name cmp_params s = (Ok r, s') ->
  exists m nozero cf intonly,
    EMObject_to_int (Dict_read "maxshift" (INT (-1)) (params s)) = inr m
    /\ EMObject_to_int (Dict_read "nozero" UNKNOWN (params s)) = inr nozero
    /\ let bounds := translational_maxshift (get_xsize img) (get_ysize img)
                       (get_zsize img) m m m in
       let peak := calc_max_location_wrap cf bounds.1.1 bounds.1.2 bounds.2 in
       let cur_trans := translational_shift to intonly peak in
       trace s' = trace s ++ translational_events nozero bounds peak
                               (to_int_vector cur_trans) (get_ysize img) (get_zsize img).
Proof.
  intros E. unfold TranslationalAligner_align in E. run_inv_state.
  all: repeat match goal with
       | H : get_set_align_attr _ _ _ _ = _ |- _ =>
           apply get_set_align_attr_run in H as (? & ? & ?)
       end; some_inj; cbn [params trace] in *.
  all: rewrite ?Dict_index_idem, ?Dict_index_after_set_default in *.
  all: repeat match goal with
       | H1 : ?x = inr ?a, H2 : ?x = inr ?b |- _ =>
           rewrite H1 in H2; injection H2 as <-
       end.
  all: match goal with
       | Hn : EMObject_to_int (Dict_index "nozero" _).1 = _ |- _ =>
           rewrite Dict_index_read in Hn;
           erewrite (Dict_read_ext "nozero") in Hn
             by (rewrite ?Dict_index_lookup_ne, ?Dict_set_default_lookup_ne by discriminate;
                 reflexivity)
       end.
  all: match goal with
       | Hm : EMObject_to_int (Dict_read "maxshift" _ _) = inr ?m |- _ => exists m
       end.
  all: match goal with
       | Hm : EMObject_to_int (Dict_read "nozero" _ _) = inr ?m |- _ => exists m
       end.
  all: eexists.
  all: first [ match goal with
               | Hi : EMObject_to_int (Dict_read "intonly" _ _) = inr ?i |- _ => exists i
               end
             | exists 0 ].
  all: split; [eassumption|].
  all: split; [eassumption|].
  all: rewrite Heqp; cbn zeta; cbn [fst snd translational_shift].
  all: unfold translational_events; cbn [fst snd].
  all: repeat match goal with
       | Hb : ?c = true |- context [if ?c then _ else _] => rewrite Hb
       | Hb : ?c = false |- context [if ?c then _ else _] => rewrite Hb
       end.
  all: repeat match goal with
       | Hb : negb (?a =? 0) = true |- context [if ?a =? 0 then _ else _] =>
           apply negb_true_iff in Hb; rewrite Hb
       | Hb : negb (?a =? 0) = false |- context [if ?a =? 0 then _ else _] =>
           apply negb_false_iff in Hb; rewrite Hb
       end.
  all: cbn [app]; rewrite <- ?app_assoc; cbn [app]; try reflexivity.
  all: try (rewrite app_nil_r; reflexivity).
Qed.

Lemma float_to_int_inject_Z (z : Z) : float_to_int (inject_Z z) = z.
Proof.
  unfold float_to_int. destruct (Qle_bool 0 (inject_Z z)).
  - apply Qfloor_Z.
  - apply Qceiling_Z.
Qed.

(** X2: the operations of the translational aligner.  On every normal run
    it computes one correlation, zeroes the corner of the correlation
    exactly when [nozero] converts to a non-zero integer (an absent
    [nozero] converts to 0), searches the peak once, translates the moving
    image once by whole pixels and writes at most one attribute, in this
    order; the comparator it is handed is never called. *)
Theorem translational_operations img to cmp_name cmp_params (p : Dict Pix) r tr :
  run (TranslationalAligner_align (Some img) to cmp_name cmp_params) p = (Ok r, tr) ->
  exists nozero mx my mz peak v,
    EMObject_to_int (Dict_read "nozero" UNKNOWN p) = inr nozero
    /\ tr = EvCalcCcf
            :: (if nozero =? 0 then [] else [EvZeroCorner])
            ++ EvMaxLocation mx my mz peak
            :: EvProcess (math_translate_int v)
            :: (if negb (get_zsize img =? 1) then [EvSetAttr "xform.align3d"]
                else if negb (get_ysize img =? 1) then [EvSetAttr "xform.align2d"]
                else [])
    /\ (In EvZeroCorner tr <-> nozero <> 0)
    /\ ~ In EvCmp tr.
Proof.
  intros E. apply run_inv_eq in E as (s' & E & <-).
  apply TranslationalAligner_trace in E as (m & nozero & cf & intonly & _ & Hn & Htr).
  cbn zeta in Htr. cbn [params trace app] in Hn, Htr.
  unfold translational_events in Htr.
  do 6 eexists. split; [exact Hn|]. split; [exact Htr|].
  rewrite Htr. clear Htr.
  destruct (Z.eqb_spec nozero 0) as [Hz|Hz];
    destruct (negb (get_zsize img =? 1)); destruct (negb (get_ysize img =? 1));
    cbn [app In]; split; try split; intros H;
    repeat match goal with H : _ \/ _ |- _ => destruct H as [H|H] end;
    try discriminate; try contradiction; auto.
Qed.

(** X3: alignment to a reference by the translational aligner.  On every
    normal run the peak [(px, py, pz)] found by the single peak search gives
    the translation [(-px, -py, -pz)]: whole numbers, never halved or
    rounded whatever [intonly] says.  This is the shift applied to the
    moving image and the translation of the Transform attached under the 3D
    key for a volume, under the 2D key (with third component 0) for a
    plane. *)
Theorem translational_reference_shift img t cmp_name cmp_params (p : Dict Pix) r tr :
  run (TranslationalAligner_align (Some img) (Some t) cmp_name cmp_params) p = (Ok r, tr) ->
  exists bounds px py pz e,
    peak_searches tr = [(bounds, (px, py, pz))]
    /\ r = Some e
    /\ processors_applied tr = [math_translate_int (- px, - py, - pz)]
    /\ (get_zsize img <> 1 ->
        exists tf, transform_attr "xform.align3d" e = Some tf
                   /\ t_trans tf = (inject_Z (- px), inject_Z (- py), inject_Z (- pz)))
    /\ (get_zsize img = 1 -> get_ysize img <> 1 ->
        exists tf, transform_attr "xform.align2d" e = Some tf
                   /\ t_trans tf = (inject_Z (- px), inject_Z (- py), 0%Q)).
Proof.
  intros E. apply run_inv_eq in E as (s' & E & <-).
  apply TranslationalAligner_run in E as (m & cf & intonly & tf0 & _ & _ & Hrun).
  cbn zeta in Hrun. cbn [params trace] in Hrun.
  destruct Hrun as (Hpeaks & Hproc & _ & Hr).
  destruct (calc_max_location_wrap _ _ _ _) as [[px py] pz].
  cbn [translational_shift negated_peak to_int_vector] in Hproc, Hr.
  rewrite !float_to_int_inject_Z in Hproc, Hr.
  do 5 eexists. split; [exact Hpeaks|]. split; [exact Hr|]. split; [exact Hproc|].
  split.
  - intros Hz. destruct (Z.eqb_spec (get_zsize img) 1); [contradiction|]. cbn [negb].
    eexists. split; [apply transform_attr_store|]. reflexivity.
  - intros Hz Hy. destruct (Z.eqb_spec (get_zsize img) 1); [|contradiction]. cbn [negb].
    destruct (Z.eqb_spec (get_ysize img) 1); [contradiction|]. cbn [negb].
    eexists. split; [apply transform_attr_store|]. reflexivity.
Qed.

End TranslationalMore.

(** ** The translational aligner on further concrete images *)

(** A 16 x 16 image against an 8 x 8 reference. *)
Lemma translational_size_mismatch_witness :
  TranslationalAligner_align (B:=Toy.ties) (Some Toy.moving) (Some Cases.small) "dot" ∅
    Toy.start
  = (Throw (ImageDimensionException
              "Images must be the same size to perform translational alignment"), Toy.start)
  /\ exists t, Some Cases.small = Some t /\ dims Toy.moving <> dims t.
Proof.
  destruct (translational_size_mismatch (B:=Toy.ties) Toy.moving (Some Cases.small) "dot" ∅
              Toy.start) as [Hthrows Honly].
  assert (Hd : dims Toy.moving <> dims Cases.small) by (vm_compute; discriminate).
  split.
  - exact (Hthrows Cases.small eq_refl Hd).
  - exact (Honly _ _ (Hthrows Cases.small eq_refl Hd)).
Defined.

(** A 16 x 16 image aligned to itself with [nozero] set. *)
Lemma translational_operations_witness :
  exists r tr,
    run (TranslationalAligner_align (B:=Toy.ties) (Some Toy.moving) None "dot" ∅)
      Cases.nozero_params = (Ok r, tr)
    /\ exists nozero mx my mz peak v,
         EMObject_to_int (Dict_read "nozero" UNKNOWN Cases.nozero_params) = inr nozero
         /\ tr = EvCalcCcf
                 :: (if nozero =? 0 then [] else [EvZeroCorner])
                 ++ EvMaxLocation mx my mz peak
                 :: EvProcess (math_translate_int v)
                 :: (if negb (get_zsize Toy.moving =? 1) then [EvSetAttr "xform.align3d"]
                     else if negb (get_ysize Toy.moving =? 1) then [EvSetAttr "xform.align2d"]
                     else [])
         /\ (In EvZeroCorner tr <-> nozero <> 0)
         /\ ~ In EvCmp tr.
Proof.
  do 2 eexists. split; [vm_compute; reflexivity|].
  eapply (translational_operations (B:=Toy.ties) Toy.moving None "dot" ∅ Cases.nozero_params).
  vm_compute; reflexivity.
Defined.

(** A 16 x 16 image aligned to a reference of the same size, with
    [intonly] set. *)
Lemma translational_reference_shift_witness :
  exists r tr,
    run (TranslationalAligner_align (B:=Toy.ties) (Some Toy.moving) (Some Toy.reference)
           "dot" ∅) Toy.intonly_params = (Ok r, tr)
    /\ exists bounds px py pz e,
         peak_searches tr = [(bounds, (px, py, pz))]
         /\ r = Some e
         /\ processors_applied tr = [math_translate_int (- px, - py, - pz)]
         /\ (get_zsize Toy.moving <> 1 ->
             exists tf, transform_attr "xform.align3d" e = Some tf
                        /\ t_trans tf = (inject_Z (- px), inject_Z (- py), inject_Z (- pz)))
         /\ (get_zsize Toy.moving = 1 -> get_ysize Toy.moving <> 1 ->
             exists tf, transform_attr "xform.align2d" e = Some tf
                        /\ t_trans tf = (inject_Z (- px), inject_Z (- py), 0%Q)).
Proof.
  do 2 eexists. split; [vm_compute; reflexivity|].
  eapply (translational_reference_shift (B:=Toy.ties) Toy.moving Toy.reference "dot" ∅
            Toy.intonly_params).
  vm_compute; reflexivity.
Defined.

(** ** The attribute helpers and the footprint mode *)

Section AlignAttr.
Context {Pix : Type} {B : ImageBackend Pix}.
Implicit Types (img t image from_image e : EMData Pix) (this_img to : option (EMData Pix))
  (s : State Pix).

Lemma transform_attr_has key e tf : transform_attr key e = Some tf -> has_attr key e = true.
Proof.
  unfold transform_attr, has_attr. destruct (attr_dict e !! key); [reflexivity|discriminate].
Qed.

(** Where the Transform of [get_set_align_attr] comes from. *)
Lemma get_set_align_attr_inv key image from_image s r s' :
  get_set_align_attr key image from_image s = (Ok r, s') ->
  exists tf, r = (tf, set_attr key (TRANSFORM (Some tf)) image)
             /\ s' = mkState (params s) (trace s ++ [EvSetAttr key])
             /\ (transform_attr key from_image = Some tf
                 \/ has_attr key from_image = false /\ tf = Transform_identity).
Proof.
  unfold get_set_align_attr. intros E.
  destruct (has_attr key from_image) eqn:Hh; run_inv.
  - eexists. split; [reflexivity|]. split; [reflexivity|]. left.
    unfold transform_attr.
    match goal with H : attr_dict _ !! _ = Some ?o |- _ => rewrite H end.
    match goal with H : EMObject_to_Transform ?o = inr _ |- _ =>
      destruct o; cbn in H; try discriminate H; injection H as -> end.
    reflexivity.
  - eexists. split; [reflexivity|]. split; [reflexivity|]. right. auto.
Qed.

(** X4: the two attribute helpers of the aligners.  [get_set_align_attr]
    attaches to [image], under [key], a copy of the Transform [from_image]
    holds under that key, or the identity when [from_image] has none; it
    changes nothing else of [image]; and [get_align_attr] on the image so
    obtained hands back that very Transform, leaving the image and the run
    as they are. *)
Theorem align_attr_round_trip key image from_image s tf image' s' :
  get_set_align_attr key image from_image s = (Ok (tf, image'), s') ->
  (transform_attr key from_image = Some tf
   \/ has_attr key from_image = false /\ tf = Transform_identity)
  /\ transform_attr key image' = Some tf
  /\ (forall key', key' <> key -> attr_dict image' !! key' = attr_dict image !! key')
  /\ same_data image' image
  /\ get_align_attr key image' s' = (Ok (tf, image'), s').
Proof.
  intros E. apply get_set_align_attr_inv in E as (tf' & Hr & -> & Hsrc).
  injection Hr as -> ->.
  split; [exact Hsrc|]. split; [apply transform_attr_store|].
  split; [|split].
  - intros key' Hne. cbn. apply lookup_insert_ne. congruence.
  - split; reflexivity.
  - unfold get_align_attr, has_attr, get_attr. cbn [attr_dict set_attr].
    rewrite lookup_insert_eq. reflexivity.
Qed.

End AlignAttr.

Section RfpMode.
Context {Pix : Type} {B : ImageBackend Pix}.
Implicit Types (img t image from_image e : EMData Pix) (this_img to : option (EMData Pix))
  (s : State Pix).

Lemma align_180_ambiguous_bad_mode this_img to m s :
  m <> 0 -> m <> 1 -> m <> 2 ->
  align_180_ambiguous this_img to m s
  = (Throw (InvalidParameterException "rfp_mode must be 0,1 or 2"), s).
Proof.
  intros H0 H1 H2. unfold align_180_ambiguous.
  destruct (Z.eqb_spec m 0); [contradiction|].
  destruct (Z.eqb_spec m 1); [contradiction|].
  destruct (Z.eqb_spec m 2); [contradiction|].
  reflexivity.
Qed.

Lemma Dict_read_insert key (v o : EMObject Pix) (d : Dict Pix) :
  Dict_read key v (<[key := o]> d) = o.
Proof. unfold Dict_read, Dict_set_default. rewrite lookup_insert_eq. reflexivity. Qed.

(** X5: a footprint mode other than 0, 1 and 2.  [align_180_ambiguous]
    rejects it with an invalid-parameter failure before it touches either
    image (null or not); so do the four composite aligners built on it when
    their [rfp_mode] parameter converts to such a value, before any image
    operation: the rotational aligner given a reference, the
    rotate_translate aligner whatever the images, the rotate_flip aligner
    given both images and the rotate_translate_flip aligner given a moving
    image. *)
Theorem rfp_mode_rejected (m : Z) this_img to img t cmp_name cmp_params (p : Dict Pix) :
  m <> 0 -> m <> 1 -> m <> 2 ->
  EMObject_to_int (Dict_read "rfp_mode" (INT 0) p) = inr m ->
  let failure : outcome (option (EMData Pix)) * list Event :=
    (Throw (InvalidParameterException "rfp_mode must be 0,1 or 2"), []) in
  (forall s, align_180_ambiguous this_img to m s
             = (Throw (InvalidParameterException "rfp_mode must be 0,1 or 2"), s))
  /\ run (RotationalAligner_align this_img (Some t) cmp_name cmp_params) p = failure
  /\ run (RotateTranslateAligner_align this_img to cmp_name cmp_params) p = failure
  /\ run (RotateFlipAligner_align (Some img) (Some t) cmp_name cmp_params) p = failure
  /\ run (RotateTranslateFlipAligner_align (Some img) to cmp_name cmp_params) p = failure.
Proof.
  intros H0 H1 H2 Hm failure. subst failure.
  split; [intros s; apply align_180_ambiguous_bad_mode; assumption|].
  assert (Hin : forall d, EMObject_to_int (Dict_read "rfp_mode" (INT 0)
                                 (<["rfp_mode" := INT m]> d : Dict Pix)) = inr m).
  { intros d. rewrite Dict_read_insert. reflexivity. }
  assert (Hbad : forall (C : Type) this_img to (k : EMData Pix -> M Pix C) s,
             bind (align_180_ambiguous this_img to m) k s
             = (Throw (InvalidParameterException "rfp_mode must be 0,1 or 2"), s)).
  { intros. apply bind_run_Throw, align_180_ambiguous_bad_mode; assumption. }
  repeat split.
  - unfold run, RotationalAligner_align, RotationalAligner_candidates.
    rewrite !bind_bind, bind_set_default. cbn [params trace].
    rewrite !bind_bind, (bind_lift_conv _ _ _ _ Hm).
    rewrite !bind_bind, Hbad. reflexivity.
  - unfold run, RotateTranslateAligner_align, RotateTranslateAligner_candidates.
    rewrite !bind_bind, bind_set_default. cbn [params trace].
    rewrite !bind_bind, (bind_lift_conv _ _ _ _ Hm).
    rewrite !bind_bind, Hbad. reflexivity.
  - unfold run, RotateFlipAligner_align, RotateFlipAligner_candidates.
    rewrite !bind_bind, bind_set_default. cbn [params trace].
    rewrite !bind_bind, (bind_lift_conv _ _ _ _ Hm).
    rewrite !bind_bind, bind_deref, !bind_bind.
    erewrite bind_run_Throw; cycle 1.
    { apply with_params_run. cbn [params trace].
      unfold RotationalAligner_align, RotationalAligner_candidates.
      rewrite !bind_bind, bind_set_default. cbn [params trace].
      rewrite !bind_bind, (bind_lift_conv _ _ _ _ (Hin _)).
      rewrite !bind_bind, Hbad. reflexivity. }
    reflexivity.
  - unfold run, RotateTranslateFlipAligner_align, RotateTranslateFlipAligner_candidates.
    rewrite !bind_bind, bind_index. cbn [params trace].
    rewrite !bind_bind, bind_set_default. cbn [params trace].
    rewrite !bind_bind.
    erewrite bind_lift_conv; cycle 1.
    { erewrite Dict_read_ext; [exact Hm|].
      rewrite Dict_index_lookup_ne by discriminate. reflexivity. }
    rewrite !bind_bind, bind_deref, !bind_bind.
    erewrite bind_run_Throw; cycle 1.
    { apply with_params_run. cbn [params trace].
      unfold RotateTranslateAligner_align, RotateTranslateAligner_candidates.
      rewrite !bind_bind, bind_set_default. cbn [params trace].
      rewrite !bind_bind, (bind_lift_conv _ _ _ _ (Hin _)).
      rewrite !bind_bind, Hbad. reflexivity. }
    reflexivity.
Qed.

End RfpMode.

(** ** The attribute helpers and the footprint mode on concrete images *)

(** A 16 x 16 image receives the alignment of an image that carries one. *)
Lemma align_attr_round_trip_witness :
  exists tf image' s',
    get_set_align_attr "xform.align2d" Toy.moving Cases.aligned_before Toy.start
    = (Ok (tf, image'), s')
    /\ (transform_attr "xform.align2d" Cases.aligned_before = Some tf
        \/ has_attr "xform.align2d" Cases.aligned_before = false /\ tf = Transform_identity)
    /\ transform_attr "xform.align2d" image' = Some tf
    /\ (forall key', key' <> "xform.align2d" ->
                     attr_dict image' !! key' = attr_dict Toy.moving !! key')
    /\ same_data image' Toy.moving
    /\ get_align_attr "xform.align2d" image' s' = (Ok (tf, image'), s').
Proof.
  do 3 eexists. split; [vm_compute; reflexivity|].
  eapply (align_attr_round_trip "xform.align2d" Toy.moving Cases.aligned_before Toy.start).
  vm_compute; reflexivity.
Defined.

(** A pair of 16 x 16 images with [rfp_mode] 3. *)
Lemma rfp_mode_rejected_witness :
  (3 <> 0 /\ 3 <> 1 /\ 3 <> 2
   /\ EMObject_to_int (Dict_read "rfp_mode" (INT 0) Cases.bad_rfp_mode) = inr 3)
  /\ (forall s, align_180_ambiguous (B:=Toy.ties) (Some Toy.moving) (Some Toy.reference) 3 s
                = (Throw (InvalidParameterException "rfp_mode must be 0,1 or 2"), s))
  /\ run (RotationalAligner_align (B:=Toy.ties) (Some Toy.moving) (Some Toy.reference)
            "dot" ∅) Cases.bad_rfp_mode
     = (Throw (InvalidParameterException "rfp_mode must be 0,1 or 2"), [])
  /\ run (RotateTranslateAligner_align (B:=Toy.ties) (Some Toy.moving) (Some Toy.reference)
            "dot" ∅) Cases.bad_rfp_mode
     = (Throw (InvalidParameterException "rfp_mode must be 0,1 or 2"), [])
  /\ run (RotateFlipAligner_align (B:=Toy.ties) (Some Toy.moving) (Some Toy.reference)
            "dot" ∅) Cases.bad_rfp_mode
     = (Throw (InvalidParameterException "rfp_mode must be 0,1 or 2"), [])
  /\ run (RotateTranslateFlipAligner_align (B:=Toy.ties) (Some Toy.moving)
            (Some Toy.reference) "dot" ∅) Cases.bad_rfp_mode
     = (Throw (InvalidParameterException "rfp_mode must be 0,1 or 2"), []).
Proof.
  split; [repeat split; try discriminate|].
  apply (rfp_mode_rejected (B:=Toy.ties) 3 (Some Toy.moving) (Some Toy.reference)
           Toy.moving Toy.reference "dot" ∅ Cases.bad_rfp_mode);
    [discriminate | discriminate | discriminate | reflexivity].
Defined.

(** ** The rotation found by align_180_ambiguous *)

Section Ambiguous.
Context {Pix : Type} {B : ImageBackend Pix}.
Implicit Types (img t image from_image e : EMData Pix) (this_img to : option (EMData Pix))
  (s : State Pix).

Lemma transform_attr_store_rotation key tf (e : EMData Pix) a :
  exists tf', transform_attr key (store_transform key (set_rotation a tf) e) = Some tf'
              /\ t_alpha tf' = a /\ t_trans tf' = t_trans tf /\ t_mirror tf' = t_mirror tf.
Proof. eexists. split; [apply transform_attr_store|]. repeat split. Qed.

(** The result, the angle and the operations of [align_180_ambiguous]. *)
Lemma align_180_ambiguous_inv img t rfp_mode s e s' :
  align_180_ambiguous (Some img) (Some t) rfp_mode s = (Ok e, s') ->
  let fp := rotational_footprint rfp_mode img in
  let cf := calc_ccfx fp (rotational_footprint rfp_mode t) 0 (get_ysize img) in
  let peak_index := snd (find_max cf (get_xsize fp)) in
  let angle := (inject_Z peak_index * 180 / inject_Z (get_xsize fp))%Q in
  (rfp_mode = 0 \/ rfp_mode = 1 \/ rfp_mode = 2)
  /\ same_data e (process (math_transform (Transform_2d angle)) img)
  /\ (exists tf, transform_attr "xform.align2d" e = Some tf
                 /\ t_alpha tf = angle
                 /\ (forall old, transform_attr "xform.align2d" img = Some old ->
                                t_trans tf = t_trans old /\ t_mirror tf = t_mirror old)
                 /\ (has_attr "xform.align2d" img = false ->
                     t_trans tf = (0, 0, 0)%Q /\ t_mirror tf = false))
  /\ s' = mkState (params s)
              (trace s ++ [EvFootprint rfp_mode; EvFootprint rfp_mode; EvCalcCcfx;
                           EvFindMax; EvProcess (math_transform (Transform_2d angle));
                           EvSetAttr "xform.align2d"])
  /\ (0 <= peak_index < get_xsize fp -> (0 <= angle < 180)%Q).
Proof.
  intros E fp cf peak_index angle.
  assert (Hrange : 0 <= peak_index < get_xsize fp -> (0 <= angle < 180)%Q).
  { intros [Hlo Hhi]. subst angle.
    assert (Hn : (0 < inject_Z (get_xsize fp))%Q).
    { change 0%Q with (inject_Z 0). rewrite <- Zlt_Qlt. lia. }
    assert (Hi : (0 <= inject_Z peak_index)%Q).
    { change 0%Q with (inject_Z 0). rewrite <- Zle_Qle. lia. }
    assert (Hlt : (inject_Z peak_index < inject_Z (get_xsize fp))%Q).
    { rewrite <- Zlt_Qlt. lia. }
    split.
    - apply Qle_shift_div_l; [exact Hn|]. nra.
    - apply Qlt_shift_div_r; [exact Hn|]. nra. }
  unfold align_180_ambiguous in E.
  destruct (Z.eqb_spec rfp_mode 0) as [->|H0];
    [|destruct (Z.eqb_spec rfp_mode 1) as [->|H1];
      [|destruct (Z.eqb_spec rfp_mode 2) as [->|H2]]].
  4:{ exfalso. run_inv. }
  all: cbv beta iota delta [rotational_footprint Z.eqb Pos.eqb] in fp, cf.
  all: run_inv.
  all: match goal with H : get_set_align_attr _ _ _ _ = _ |- _ =>
         apply get_set_align_attr_inv in H as (tf & Hr & -> & Hsrc) end.
  all: some_inj.
  all: match goal with H : find_max _ _ = (_, ?i) |- _ =>
         assert (Hpi : peak_index = i) by (subst peak_index cf fp; rewrite H; reflexivity)
       end.
  all: clearbody peak_index; subst peak_index.
  all: split; [auto|].
  all: split; [split; reflexivity|].
  all: split; [|split; [cbn [params trace]; rewrite <- !app_assoc; reflexivity | exact Hrange]].
  all: match goal with |- context [store_transform ?k (set_rotation ?a ?x) ?e] =>
         destruct (transform_attr_store_rotation k x e a) as (tf' & Hattr & Ha & Htr & Hmi)
       end.
  all: exists tf'; split; [exact Hattr|]; split; [exact Ha|]; split.
  all: try (intros old Ht0; destruct Hsrc as [Hs|[Hs _]];
            [rewrite Ht0 in Hs; injection Hs as ->; split; assumption
            | apply transform_attr_has in Ht0; congruence]).
  all: intros Hno; destruct Hsrc as [Hs|[_ ->]];
       [apply transform_attr_has in Hs; congruence
       | rewrite Htr, Hmi; split; reflexivity].
Qed.

(** X6: what [align_180_ambiguous] returns.  A call that returns was made
    in mode 0, 1 or 2; with [n] the width of the rotational footprint of
    the moving image and [i] the index of the peak of the row-wise
    correlation of the two footprints, the angle is [i * 180 / n]; the image
    returned is the moving image rotated by that angle, with a Transform
    attached under the 2D key whose angle is that angle and whose
    translation and mirror flag are those of the Transform the moving image
    already carried under that key (those of the identity if it carried
    none); the operations performed are the two footprints, the
    correlation, the peak search, the rotation and the attribute write, the
    parameter bag being left alone; and
    an index within the footprint gives an angle from 0 up to, not
    including, 180 degrees. *)
Theorem align_180_ambiguous_result img t rfp_mode s e s' :
  align_180_ambiguous (Some img) (Some t) rfp_mode s = (Ok e, s') ->
  let fp := rotational_footprint rfp_mode img in
  let cf := calc_ccfx fp (rotational_footprint rfp_mode t) 0 (get_ysize img) in
  let peak_index := snd (find_max cf (get_xsize fp)) in
  let angle := (inject_Z peak_index * 180 / inject_Z (get_xsize fp))%Q in
  (rfp_mode = 0 \/ rfp_mode = 1 \/ rfp_mode = 2)
  /\ same_data e (process (math_transform (Transform_2d angle)) img)
  /\ (exists tf, transform_attr "xform.align2d" e = Some tf
                 /\ t_alpha tf = angle
                 /\ (forall old, transform_attr "xform.align2d" img = Some old ->
                                t_trans tf = t_trans old /\ t_mirror tf = t_mirror old)
                 /\ (has_attr "xform.align2d" img = false ->
                     t_trans tf = (0, 0, 0)%Q /\ t_mirror tf = false))
  /\ s' = mkState (params s)
              (trace s ++ [EvFootprint rfp_mode; EvFootprint rfp_mode; EvCalcCcfx;
                           EvFindMax; EvProcess (math_transform (Transform_2d angle));
                           EvSetAttr "xform.align2d"])
  /\ (0 <= peak_index < get_xsize fp -> (0 <= angle < 180)%Q).
Proof. apply align_180_ambiguous_inv. Qed.

End Ambiguous.

(** A 16 x 16 image that already carries a mirrored alignment shifted by
    (2, -1), against a reference of the same size, with footprint mode
    1. *)
Lemma align_180_ambiguous_result_witness :
  exists e s',
    align_180_ambiguous (B:=Toy.ties) (Some Cases.aligned_before) (Some Toy.reference) 1
      Toy.start = (Ok e, s')
    /\ let fp := rotational_footprint (B:=Toy.ties) 1 Cases.aligned_before in
       let cf := calc_ccfx (ImageBackend:=Toy.ties) fp
                   (rotational_footprint (B:=Toy.ties) 1 Toy.reference) 0
                   (get_ysize Cases.aligned_before) in
       let peak_index := snd (find_max (ImageBackend:=Toy.ties) cf (get_xsize fp)) in
       let angle := (inject_Z peak_index * 180 / inject_Z (get_xsize fp))%Q in
       (1 = 0 \/ 1 = 1 \/ 1 = 2)
       /\ same_data e (process (ImageBackend:=Toy.ties) (math_transform (Transform_2d angle))
                         Cases.aligned_before)
       /\ (exists tf, transform_attr "xform.align2d" e = Some tf
                      /\ t_alpha tf = angle
                      /\ (forall old,
                            transform_attr "xform.align2d" Cases.aligned_before = Some old ->
                            t_trans tf = t_trans old /\ t_mirror tf = t_mirror old)
                      /\ (has_attr "xform.align2d" Cases.aligned_before = false ->
                          t_trans tf = (0, 0, 0)%Q /\ t_mirror tf = false))
       /\ s' = mkState (params Toy.start)
                 (trace Toy.start
                  ++ [EvFootprint 1; EvFootprint 1; EvCalcCcfx; EvFindMax;
                      EvProcess (math_transform (Transform_2d angle));
                      EvSetAttr "xform.align2d"])
       /\ (0 <= peak_index < get_xsize fp -> (0 <= angle < 180)%Q).
Proof.
  do 2 eexists. split; [vm_compute; reflexivity|].
  eapply (align_180_ambiguous_result (B:=Toy.ties) Cases.aligned_before Toy.reference 1
            Toy.start).
  vm_compute; reflexivity.
Defined.

(** ** The lower score wins *)

Section DecisionsMore.
Context {Pix : Type} {B : ImageBackend Pix}.
Implicit Types (a b e : EMData Pix) (this_img to : option (EMData Pix)) (s : State Pix).

(** X7: the lower score wins.  In each composite aligner, when the
    candidate of the first branch scores strictly lower it is the one
    returned, as it is: with the angle found for it in the rotational and
    rotate_translate aligners, with no flip applied and nothing further done
    in the rotate_flip and rotate_translate_flip aligners.  When the second
    candidate scores strictly lower, the rotational and rotate_translate
    aligners return it with the angle lowered by 180 degrees, and the
    rotate_flip aligner returns it flipped about x in place. *)
Theorem lower_score_wins this_img to cmp_name cmp_params s :
  (forall a b c1 c2 ang s1 r s2,
      RotationalAligner_candidates this_img to cmp_name cmp_params s
        = (Ok (a, b, c1, c2, ang), s1) ->
      RotationalAligner_align this_img to cmp_name cmp_params s = (Ok r, s2) ->
      exists e tf, r = Some e /\ transform_attr "xform.align2d" e = Some tf
                   /\ ((c1 < c2)%Q -> same_data e a /\ t_alpha tf = ang)
                   /\ ((c2 < c1)%Q -> same_data e b /\ t_alpha tf = (ang - 180)%Q))
  /\ (forall a b c1 c2 ang s1 r s2,
      RotateTranslateAligner_candidates this_img to cmp_name cmp_params s
        = (Ok (a, b, c1, c2, ang), s1) ->
      RotateTranslateAligner_align this_img to cmp_name cmp_params s = (Ok r, s2) ->
      exists e tf, r = Some e /\ transform_attr "xform.align2d" e = Some tf
                   /\ ((c1 < c2)%Q -> same_data e a /\ t_alpha tf = ang)
                   /\ ((c2 < c1)%Q -> same_data e b /\ t_alpha tf = (ang - 180)%Q))
  /\ (forall a b c1 c2 s1,
      RotateFlipAligner_candidates this_img to cmp_name cmp_params s
        = (Ok (a, b, c1, c2), s1) ->
      ((c1 < c2)%Q ->
       RotateFlipAligner_align this_img to cmp_name cmp_params s = (Ok (Some a), s1))
      /\ ((c2 < c1)%Q ->
          RotateFlipAligner_align this_img to cmp_name cmp_params s
          = (Ok (Some (process_inplace (xform_flip "x") b)),
             mkState (params s1) (trace s1 ++ [EvProcess (xform_flip "x")]))))
  /\ (forall a b c1 c2 s1,
      RotateTranslateFlipAligner_candidates this_img to cmp_name cmp_params s
        = (Ok (a, b, c1, c2), s1) ->
      (c1 < c2)%Q ->
      RotateTranslateFlipAligner_align this_img to cmp_name cmp_params s
      = (Ok (Some a), s1)).
Proof.
  repeat split.
  - intros a b c1 c2 ang s1 r s2 Hc E.
    unfold RotationalAligner_align in E. rewrite (bind_run_Ok _ _ _ _ _ Hc) in E.
    unfold RotationalAligner_decide in E.
    destruct (Qlt_bool c1 c2) eqn:Hlt; run_inv.
    all: match goal with H : get_align_attr _ _ _ = _ |- _ =>
           apply get_align_attr_data in H as [Hp Hd]; cbn in Hp, Hd end.
    all: do 2 eexists; split; [reflexivity|]; split; [apply transform_attr_store|].
    all: split; intros Hc12.
    all: try (split; [split; cbn; [exact Hp | exact Hd] | reflexivity]).
    + apply Qlt_bool_false_of_lt in Hc12. congruence.
    + apply Qlt_bool_true_of_lt in Hc12. congruence.
  - intros a b c1 c2 ang s1 r s2 Hc E.
    unfold RotateTranslateAligner_align in E. rewrite (bind_run_Ok _ _ _ _ _ Hc) in E.
    unfold RotateTranslateAligner_decide in E.
    destruct (Qlt_bool c1 c2) eqn:Hlt; run_inv.
    all: do 2 eexists; split; [reflexivity|]; split; [apply transform_attr_store|].
    all: split; intros Hc12.
    all: try (split; [split; reflexivity | reflexivity]).
    + apply Qlt_bool_false_of_lt in Hc12. congruence.
    + apply Qlt_bool_true_of_lt in Hc12. congruence.
  - intros Hlt.
    unfold RotateFlipAligner_align. rewrite (bind_run_Ok _ _ _ _ _ H).
    unfold RotateFlipAligner_decide. rewrite (Qlt_bool_true_of_lt _ _ Hlt).
    reflexivity.
  - intros Hlt.
    unfold RotateFlipAligner_align. rewrite (bind_run_Ok _ _ _ _ _ H).
    unfold RotateFlipAligner_decide. rewrite (Qlt_bool_false_of_lt _ _ Hlt).
    reflexivity.
  - intros a b c1 c2 s1 Hc Hlt.
    unfold RotateTranslateFlipAligner_align. rewrite (bind_run_Ok _ _ _ _ _ Hc).
    unfold RotateTranslateFlipAligner_decide. rewrite (Qlt_bool_true_of_lt _ _ Hlt).
    reflexivity.
Qed.

Lemma transform_attr_store_mirror key tf (e : EMData Pix) :
  exists tf', transform_attr key (store_transform key (set_mirror true tf) e) = Some tf'
              /\ t_mirror tf' = true.
Proof. eexists. split; [apply transform_attr_store|]. reflexivity. Qed.

(** X8: the candidate of the mirrored branch is marked.  In the rotate_flip
    and rotate_translate_flip aligners the candidate aligned to the mirrored
    reference carries, under the 2D key, a Transform whose mirror flag is
    set; when the first candidate does not score strictly lower, the image
    returned is this candidate flipped about x in place, and it still
    carries that Transform if the flip leaves the attributes alone. *)
Theorem mirrored_candidate_is_marked this_img to cmp_name cmp_params s :
  (forall a b c1 c2 s1,
      RotateFlipAligner_candidates this_img to cmp_name cmp_params s
        = (Ok (a, b, c1, c2), s1) ->
      (exists tf, transform_attr "xform.align2d" b = Some tf /\ t_mirror tf = true)
      /\ ((c2 <= c1)%Q ->
          (forall e, attr_dict (process_inplace (xform_flip "x") e) = attr_dict e) ->
          exists e tf s2,
            RotateFlipAligner_align this_img to cmp_name cmp_params s = (Ok (Some e), s2)
            /\ transform_attr "xform.align2d" e = Some tf /\ t_mirror tf = true))
  /\ (forall a b c1 c2 s1,
      RotateTranslateFlipAligner_candidates this_img to cmp_name cmp_params s
        = (Ok (a, b, c1, c2), s1) ->
      (exists tf, transform_attr "xform.align2d" b = Some tf /\ t_mirror tf = true)
      /\ ((c2 <= c1)%Q ->
          (forall e, attr_dict (process_inplace (xform_flip "x") e) = attr_dict e) ->
          exists e tf s2,
            RotateTranslateFlipAligner_align this_img to cmp_name cmp_params s
            = (Ok (Some e), s2)
            /\ transform_attr "xform.align2d" e = Some tf /\ t_mirror tf = true)).
Proof.
  assert (Hle : forall c1 c2 : Q, (c2 <= c1)%Q -> Qlt_bool c1 c2 = false).
  { intros c1 c2 H. unfold Qlt_bool. apply Qle_bool_iff in H. rewrite H. reflexivity. }
  split; intros a b c1 c2 s1 Hc.
  - assert (Hb : exists tf, transform_attr "xform.align2d" b = Some tf /\ t_mirror tf = true).
    { unfold RotateFlipAligner_candidates in Hc. run_inv. some_inj.
      apply transform_attr_store_mirror. }
    split; [exact Hb|]. intros Hc12 Hkeep. destruct Hb as (tf & Hb & Hm).
    do 3 eexists. split; [|split; [|exact Hm]].
    + unfold RotateFlipAligner_align. rewrite (bind_run_Ok _ _ _ _ _ Hc).
      unfold RotateFlipAligner_decide. rewrite (Hle _ _ Hc12). reflexivity.
    + unfold transform_attr in *. rewrite Hkeep. exact Hb.
  - assert (Hb : exists tf, transform_attr "xform.align2d" b = Some tf /\ t_mirror tf = true).
    { unfold RotateTranslateFlipAligner_candidates in Hc. run_inv. some_inj.
      apply transform_attr_store_mirror. }
    split; [exact Hb|]. intros Hc12 Hkeep. destruct Hb as (tf & Hb & Hm).
    do 3 eexists. split; [|split; [|exact Hm]].
    + unfold RotateTranslateFlipAligner_align. rewrite (bind_run_Ok _ _ _ _ _ Hc).
      unfold RotateTranslateFlipAligner_decide. rewrite (Hle _ _ Hc12). reflexivity.
    + unfold transform_attr in *. rewrite Hkeep. exact Hb.
Qed.

End DecisionsMore.

(** ** The decisions on concrete images *)

(** A pair of 16 x 16 images under comparators that favour the first
    candidate, the candidate rotated by 180 degrees, and the mirrored
    reference. *)
Lemma lower_score_wins_witness :
  (exists a b c1 c2 ang s1 r s2,
      RotationalAligner_candidates (B:=Cases.first_wins) (Some Toy.moving)
        (Some Toy.reference) "dot" ∅ Toy.start = (Ok (a, b, c1, c2, ang), s1)
      /\ (c1 < c2)%Q
      /\ RotationalAligner_align (B:=Cases.first_wins) (Some Toy.moving)
           (Some Toy.reference) "dot" ∅ Toy.start = (Ok r, s2)
      /\ exists e tf, r = Some e /\ transform_attr "xform.align2d" e = Some tf
                      /\ same_data e a /\ t_alpha tf = ang)
  /\ (exists a b c1 c2 ang s1 r s2,
      RotationalAligner_candidates (B:=Cases.rotated_wins) (Some Toy.moving)
        (Some Toy.reference) "dot" ∅ Toy.start = (Ok (a, b, c1, c2, ang), s1)
      /\ (c2 < c1)%Q
      /\ RotationalAligner_align (B:=Cases.rotated_wins) (Some Toy.moving)
           (Some Toy.reference) "dot" ∅ Toy.start = (Ok r, s2)
      /\ exists e tf, r = Some e /\ transform_attr "xform.align2d" e = Some tf
                      /\ same_data e b /\ t_alpha tf = (ang - 180)%Q)
  /\ (exists a b c1 c2 ang s1 r s2,
      RotateTranslateAligner_candidates (B:=Cases.first_wins) (Some Toy.moving)
        (Some Toy.reference) "dot" ∅ Toy.start = (Ok (a, b, c1, c2, ang), s1)
      /\ (c1 < c2)%Q
      /\ RotateTranslateAligner_align (B:=Cases.first_wins) (Some Toy.moving)
           (Some Toy.reference) "dot" ∅ Toy.start = (Ok r, s2)
      /\ exists e tf, r = Some e /\ transform_attr "xform.align2d" e = Some tf
                      /\ same_data e a /\ t_alpha tf = ang)
  /\ (exists a b c1 c2 ang s1 r s2,
      RotateTranslateAligner_candidates (B:=Cases.rotated_wins) (Some Toy.moving)
        (Some Toy.reference) "dot" ∅ Toy.start = (Ok (a, b, c1, c2, ang), s1)
      /\ (c2 < c1)%Q
      /\ RotateTranslateAligner_align (B:=Cases.rotated_wins) (Some Toy.moving)
           (Some Toy.reference) "dot" ∅ Toy.start = (Ok r, s2)
      /\ exists e tf, r = Some e /\ transform_attr "xform.align2d" e = Some tf
                      /\ same_data e b /\ t_alpha tf = (ang - 180)%Q)
  /\ (exists a b c1 c2 s1,
      RotateFlipAligner_candidates (B:=Cases.first_wins) (Some Toy.moving)
        (Some Toy.reference) "dot" ∅ Toy.start = (Ok (a, b, c1, c2), s1)
      /\ (c1 < c2)%Q
      /\ RotateFlipAligner_align (B:=Cases.first_wins) (Some Toy.moving)
           (Some Toy.reference) "dot" ∅ Toy.start = (Ok (Some a), s1))
  /\ (exists a b c1 c2 s1,
      RotateFlipAligner_candidates (B:=Toy.mirror_wins) (Some Toy.moving)
        (Some Toy.reference) "dot" ∅ Toy.start = (Ok (a, b, c1, c2), s1)
      /\ (c2 < c1)%Q
      /\ RotateFlipAligner_align (B:=Toy.mirror_wins) (Some Toy.moving)
           (Some Toy.reference) "dot" ∅ Toy.start
         = (Ok (Some (process_inplace (ImageBackend:=Toy.mirror_wins) (xform_flip "x") b)),
            mkState (params s1) (trace s1 ++ [EvProcess (xform_flip "x")])))
  /\ (exists a b c1 c2 s1,
      RotateTranslateFlipAligner_candidates (B:=Cases.first_wins) (Some Toy.moving)
        (Some Toy.reference) "dot" ∅ Toy.start = (Ok (a, b, c1, c2), s1)
      /\ (c1 < c2)%Q
      /\ RotateTranslateFlipAligner_align (B:=Cases.first_wins) (Some Toy.moving)
           (Some Toy.reference) "dot" ∅ Toy.start = (Ok (Some a), s1)).
Proof.
  pose proof (lower_score_wins (B:=Cases.first_wins) (Some Toy.moving)
                (Some Toy.reference) "dot" ∅ Toy.start) as (F1 & F2 & F3 & F4).
  pose proof (lower_score_wins (B:=Cases.rotated_wins) (Some Toy.moving)
                (Some Toy.reference) "dot" ∅ Toy.start) as (R1 & R2 & _ & _).
  pose proof (lower_score_wins (B:=Toy.mirror_wins) (Some Toy.moving)
                (Some Toy.reference) "dot" ∅ Toy.start) as (_ & _ & M3 & _).
  split; [|split; [|split; [|split; [|split; [|split]]]]].
  - edestruct F1 as (e & tf & Hr & Htf & Hfirst & _);
      [vm_compute; reflexivity | vm_compute; reflexivity |].
    do 8 eexists. split; [vm_compute; reflexivity|]. split; [reflexivity|].
    split; [vm_compute; reflexivity|].
    exists e, tf. injection Hr as <-. split; [reflexivity|]. split; [exact Htf|].
    apply Hfirst. reflexivity.
  - edestruct R1 as (e & tf & Hr & Htf & _ & Hsecond);
      [vm_compute; reflexivity | vm_compute; reflexivity |].
    do 8 eexists. split; [vm_compute; reflexivity|]. split; [reflexivity|].
    split; [vm_compute; reflexivity|].
    exists e, tf. injection Hr as <-. split; [reflexivity|]. split; [exact Htf|].
    apply Hsecond. reflexivity.
  - edestruct F2 as (e & tf & Hr & Htf & Hfirst & _);
      [vm_compute; reflexivity | vm_compute; reflexivity |].
    do 8 eexists. split; [vm_compute; reflexivity|]. split; [reflexivity|].
    split; [vm_compute; reflexivity|].
    exists e, tf. injection Hr as <-. split; [reflexivity|]. split; [exact Htf|].
    apply Hfirst. reflexivity.
  - edestruct R2 as (e & tf & Hr & Htf & _ & Hsecond);
      [vm_compute; reflexivity | vm_compute; reflexivity |].
    do 8 eexists. split; [vm_compute; reflexivity|]. split; [reflexivity|].
    split; [vm_compute; reflexivity|].
    exists e, tf. injection Hr as <-. split; [reflexivity|]. split; [exact Htf|].
    apply Hsecond. reflexivity.
  - do 5 eexists. split; [vm_compute; reflexivity|]. split; [reflexivity|].
    eapply F3; [vm_compute; reflexivity | reflexivity].
  - do 5 eexists. split; [vm_compute; reflexivity|]. split; [reflexivity|].
    eapply M3; [vm_compute; reflexivity | reflexivity].
  - do 5 eexists. split; [vm_compute; reflexivity|]. split; [reflexivity|].
    eapply F4; [vm_compute; reflexivity | reflexivity].
Defined.

(** A pair of 16 x 16 images: candidates that score alike in the
    rotate_flip aligner, and a comparator that favours the mirrored
    reference in the rotate_translate_flip aligner. *)
Lemma mirrored_candidate_is_marked_witness :
  (exists a b c1 c2 s1,
      RotateFlipAligner_candidates (B:=Toy.ties) (Some Toy.moving) (Some Toy.reference)
        "dot" ∅ Toy.start = (Ok (a, b, c1, c2), s1)
      /\ (c2 <= c1)%Q
      /\ (forall e, attr_dict (process_inplace (ImageBackend:=Toy.ties) (xform_flip "x") e)
                    = attr_dict e)
      /\ (exists tf, transform_attr "xform.align2d" b = Some tf /\ t_mirror tf = true)
      /\ exists e tf s2,
           RotateFlipAligner_align (B:=Toy.ties) (Some Toy.moving) (Some Toy.reference)
             "dot" ∅ Toy.start = (Ok (Some e), s2)
           /\ transform_attr "xform.align2d" e = Some tf /\ t_mirror tf = true)
  /\ (exists a b c1 c2 s1,
      RotateTranslateFlipAligner_candidates (B:=Toy.mirror_wins) (Some Toy.moving)
        (Some Toy.reference) "dot" ∅ Toy.start = (Ok (a, b, c1, c2), s1)
      /\ (c2 <= c1)%Q
      /\ (forall e, attr_dict (process_inplace (ImageBackend:=Toy.mirror_wins)
                                 (xform_flip "x") e) = attr_dict e)
      /\ (exists tf, transform_attr "xform.align2d" b = Some tf /\ t_mirror tf = true)
      /\ exists e tf s2,
           RotateTranslateFlipAligner_align (B:=Toy.mirror_wins) (Some Toy.moving)
             (Some Toy.reference) "dot" ∅ Toy.start = (Ok (Some e), s2)
           /\ transform_attr "xform.align2d" e = Some tf /\ t_mirror tf = true).
Proof.
  pose proof (mirrored_candidate_is_marked (B:=Toy.ties) (Some Toy.moving)
                (Some Toy.reference) "dot" ∅ Toy.start) as [T1 _].
  pose proof (mirrored_candidate_is_marked (B:=Toy.mirror_wins) (Some Toy.moving)
                (Some Toy.reference) "dot" ∅ Toy.start) as [_ M2].
  split.
  - edestruct T1 as [Hb Hret]; [vm_compute; reflexivity|].
    do 5 eexists. split; [vm_compute; reflexivity|].
    split; [vm_compute; discriminate|]. split; [intros e; reflexivity|].
    split; [exact Hb|]. apply Hret; [vm_compute; discriminate | intros e; reflexivity].
  - edestruct M2 as [Hb Hret]; [vm_compute; reflexivity|].
    do 5 eexists. split; [vm_compute; reflexivity|].
    split; [vm_compute; discriminate|]. split; [intros e; reflexivity|].
    split; [exact Hb|]. apply Hret; [vm_compute; discriminate | intros e; reflexivity].
Defined.

(** ** What the rotational and rotate_translate aligners report *)

Section RotationalResult.
Context {Pix : Type} {B : ImageBackend Pix}.
Implicit Types (img t e : EMData Pix) (this_img to : option (EMData Pix)) (s : State Pix).

Lemma comparisons_app tr1 tr2 :
  comparisons (tr1 ++ tr2) = (comparisons tr1 + comparisons tr2)%nat.
Proof. unfold comparisons. rewrite flat_map_app, length_app. reflexivity. Qed.

Lemma transform_attr_lookup key e tf o :
  transform_attr key e = Some tf -> attr_dict e !! key = Some o -> o = TRANSFORM (Some tf).
Proof.
  unfold transform_attr. intros H E. rewrite E in H.
  destruct o as [| | | | | |[tf'|]]; try discriminate H. injection H as ->. reflexivity.
Qed.

(** X9: what the rotational aligner reports.  Given both images, every
    normal run calls the comparator exactly twice and returns an image
    whose Transform under the 2D key has for angle either the angle [a]
    found by [align_180_ambiguous] (peak index times 180 over the footprint
    width) or [a - 180]; when the peak index lies within the footprint the
    reported angle is therefore at least -180 and below 180 degrees. *)
Theorem rotational_result_angle img t cmp_name cmp_params (p : Dict Pix) r tr :
  run (RotationalAligner_align (Some img) (Some t) cmp_name cmp_params) p = (Ok r, tr) ->
  exists rfp_mode e tf,
    EMObject_to_int (Dict_read "rfp_mode" (INT 0) p) = inr rfp_mode
    /\ r = Some e
    /\ transform_attr "xform.align2d" e = Some tf
    /\ comparisons tr = 2%nat
    /\ let fp := rotational_footprint rfp_mode img in
       let cf := calc_ccfx fp (rotational_footprint rfp_mode t) 0 (get_ysize img) in
       let peak_index := snd (find_max cf (get_xsize fp)) in
       let angle := (inject_Z peak_index * 180 / inject_Z (get_xsize fp))%Q in
       (t_alpha tf = angle \/ t_alpha tf = (angle - 180)%Q)
       /\ (0 <= peak_index < get_xsize fp -> (-180 <= t_alpha tf < 180)%Q).
Proof.
  intros E. apply run_inv_eq in E as (s' & E & <-).
  unfold RotationalAligner_align, RotationalAligner_candidates in E.
  apply bind_Ok_inv in E as (c & s1 & Hc & E).
  run_inv_state.
  match goal with H : align_180_ambiguous _ _ _ _ = _ |- _ =>
    apply align_180_ambiguous_inv in H as (_ & _ & (tf0 & Hattr & Ha & _) & -> & Hrange)
  end.
  cbn zeta in *. cbn [params trace] in *.
  match goal with H : attr_dict _ !! _ = Some ?o |- _ =>
    pose proof (transform_attr_lookup _ _ _ _ Hattr H) as ->
  end.
  match goal with H : EMObject_to_Transform _ = inr _ |- _ => cbn in H; injection H as <- end.
  try match goal with H : Some _ = Some _ |- _ => injection H as <- end.
  unfold get_rotation_alpha in E. rewrite Ha in E.
  unfold RotationalAligner_decide in E.
  destruct (Qlt_bool _ _); run_inv.
  all: match goal with H : get_align_attr _ _ ?s0 = (Ok _, ?s2) |- _ =>
         assert (Hcount : comparisons (trace s2) = comparisons (trace s0));
         [ unfold get_align_attr in H; run_inv; cbn [trace];
           rewrite ?comparisons_app; cbn; lia |]
       end.
  all: do 3 eexists; split; [eassumption|]; split; [reflexivity|].
  all: split; [apply transform_attr_store|].
  all: split; [rewrite Hcount; cbn [trace]; rewrite !comparisons_app; reflexivity|].
  all: cbn [t_alpha set_rotation].
  all: match goal with
       | |- (?x = ?x \/ _) /\ _ => split; [left; reflexivity|]
       | |- _ => split; [right; reflexivity|]
       end.
  all: intros Hin; specialize (Hrange Hin); lra.
Qed.

End RotationalResult.

(** A pair of 16 x 16 images with the default parameters. *)
Lemma rotational_result_angle_witness :
  exists r tr,
    run (RotationalAligner_align (B:=Toy.ties) (Some Toy.moving) (Some Toy.reference)
           "dot" ∅) ∅ = (Ok r, tr)
    /\ exists rfp_mode e tf,
         EMObject_to_int (Dict_read "rfp_mode" (INT 0) (∅ : Dict Toy.Pix)) = inr rfp_mode
         /\ r = Some e
         /\ transform_attr "xform.align2d" e = Some tf
         /\ comparisons tr = 2%nat
         /\ let fp := rotational_footprint (B:=Toy.ties) rfp_mode Toy.moving in
            let cf := calc_ccfx (ImageBackend:=Toy.ties) fp
                        (rotational_footprint (B:=Toy.ties) rfp_mode Toy.reference) 0
                        (get_ysize Toy.moving) in
            let peak_index := snd (find_max (ImageBackend:=Toy.ties) cf (get_xsize fp)) in
            let angle := (inject_Z peak_index * 180 / inject_Z (get_xsize fp))%Q in
            (t_alpha tf = angle \/ t_alpha tf = (angle - 180)%Q)
            /\ (0 <= peak_index < get_xsize fp -> (-180 <= t_alpha tf < 180)%Q).
Proof.
  do 2 eexists. split; [vm_compute; reflexivity|].
  eapply (rotational_result_angle (B:=Toy.ties) Toy.moving Toy.reference "dot" ∅ ∅).
  vm_compute; reflexivity.
Defined.

Section RotateTranslateResult.
Context {Pix : Type} {B : ImageBackend Pix} {L : ImageBackendLaws B}.
Implicit Types (img t e : EMData Pix) (this_img to : option (EMData Pix)) (s : State Pix).

Lemma dims_zsize (a b : EMData Pix) : dims a = dims b -> get_zsize a = get_zsize b.
Proof. unfold dims. intros E. injection E. auto. Qed.

Lemma dims_ysize (a b : EMData Pix) : dims a = dims b -> get_ysize a = get_ysize b.
Proof. unfold dims. intros E. injection E. auto. Qed.

Lemma dims_xsize (a b : EMData Pix) : dims a = dims b -> get_xsize a = get_xsize b.
Proof. unfold dims. intros E. injection E. auto. Qed.

Lemma TranslationalAligner_comparisons img to cmp_name cmp_params s r s' :
  TranslationalAligner_align (Some img) to cmp_name cmp_params s = (Ok r, s') ->
  comparisons (trace s') = comparisons (trace s).
Proof.
  intros E. apply TranslationalAligner_trace in E as (m & nozero & cf & intonly & _ & _ & Htr).
  cbn zeta in Htr. rewrite Htr, comparisons_app. unfold translational_events.
  destruct (nozero =? 0); destruct (negb (get_zsize img =? 1));
    destruct (negb (get_ysize img =? 1)); cbn; lia.
Qed.

(** X10: what the rotate_translate aligner reports on a pair of planes.
    Every normal run makes exactly two peak searches, both with the bounds
    the translational aligner derives from the caller's [maxshift] (the
    aligner hands its own bag down, not the defaults), and calls the
    comparator exactly twice; the Transform attached to the returned image
    pairs the footprint angle [a] with the negated first peak, or [a - 180]
    with the negated second peak: angle and translation always come from
    the same candidate. *)
Theorem rotate_translate_result img t cmp_name cmp_params (p : Dict Pix) r tr :
  get_zsize img = 1 -> get_ysize img <> 1 ->
  run (RotateTranslateAligner_align (Some img) (Some t) cmp_name cmp_params) p = (Ok r, tr) ->
  exists rfp_mode m e tf px1 py1 pz1 px2 py2 pz2,
    EMObject_to_int (Dict_read "rfp_mode" (INT 0) p) = inr rfp_mode
    /\ EMObject_to_int (Dict_read "maxshift" (INT (-1)) p) = inr m
    /\ r = Some e
    /\ transform_attr "xform.align2d" e = Some tf
    /\ comparisons tr = 2%nat
    /\ let bounds := translational_maxshift (get_xsize img) (get_ysize img)
                       (get_zsize img) m m m in
       let fp := rotational_footprint rfp_mode img in
       let cf := calc_ccfx fp (rotational_footprint rfp_mode t) 0 (get_ysize img) in
       let peak_index := snd (find_max cf (get_xsize fp)) in
       let angle := (inject_Z peak_index * 180 / inject_Z (get_xsize fp))%Q in
       peak_searches tr = [(bounds, (px1, py1, pz1)); (bounds, (px2, py2, pz2))]
       /\ (t_alpha tf = angle
           /\ t_trans tf = (inject_Z (- px1), inject_Z (- py1), 0%Q)
           \/ t_alpha tf = (angle - 180)%Q
              /\ t_trans tf = (inject_Z (- px2), inject_Z (- py2), 0%Q)).
Proof.
  intros Hz Hy E. apply run_inv_eq in E as (s' & E & <-).
  unfold RotateTranslateAligner_align, RotateTranslateAligner_candidates in E.
  apply bind_Ok_inv in E as (c & s1 & Hc & E).
  run_inv_st.
  match goal with H : align_180_ambiguous _ _ _ _ = _ |- _ =>
    pose proof (align_180_ambiguous_dims _ _ _ _ _ _ H) as Hdims;
    apply align_180_ambiguous_inv in H as (_ & _ & (tf0 & Hattr & Ha & _) & -> & _)
  end.
  cbn zeta in *. cbn [params trace] in *.
  match goal with H : attr_dict _ !! _ = Some ?o |- _ =>
    pose proof (transform_attr_lookup _ _ _ _ Hattr H) as ->
  end.
  match goal with H : EMObject_to_Transform _ = inr _ |- _ => cbn in H; injection H as <- end.
  unfold get_rotation_alpha in E. rewrite Ha in E. clear Ha Hattr.
  match type of E with RotateTranslateAligner_decide _ _ _ _ ?a _ = _ =>
    set (angle := a) in * end.
  match goal with
  | H : EMObject_to_int (Dict_read "maxshift" _ _) = inr ?m |- _ =>
      rewrite (Dict_read_ext "maxshift" _ p) in H
        by (rewrite ?Dict_set_default_lookup_ne by discriminate; reflexivity);
      rename H into Hmax
  end.
  pose proof (process_inplace_rotate_180_dims a1) as Hdims180. rewrite Hdims in Hdims180.
  repeat match goal with
  | H : TranslationalAligner_align (Some ?x) _ _ _ _ = _ |- _ =>
      let Hcmp := fresh "Hcmp" in
      let Hm := fresh "Hm" in
      let Hrun := fresh "Hrun" in
      let Hpeaks := fresh "Hpeaks" in
      let Hr := fresh "Hr" in
      pose proof (TranslationalAligner_comparisons _ _ _ _ _ _ _ H) as Hcmp;
      apply TranslationalAligner_run in H as (? & ? & ? & ? & Hm & _ & Hrun);
      cbn zeta in Hrun; cbn [params trace] in Hm, Hrun, Hcmp;
      unfold Dict_read, Dict_set_default in Hm;
      rewrite lookup_insert_ne, lookup_insert_eq in Hm by discriminate;
      cbn in Hm; injection Hm as <-;
      destruct Hrun as (Hpeaks & _ & _ & Hr);
      injection Hr as Hr
  end.
  rewrite ?(dims_xsize _ _ Hdims), ?(dims_ysize _ _ Hdims), ?(dims_zsize _ _ Hdims),
    ?(dims_xsize _ _ Hdims180), ?(dims_ysize _ _ Hdims180), ?(dims_zsize _ _ Hdims180) in *.
  repeat match goal with
  | H : context [calc_max_location_wrap ?cf ?x ?y ?z] |- _ =>
      destruct (calc_max_location_wrap cf x y z) as [[? ?] ?]
  end.
  destruct (Z.eqb_spec (get_zsize img) 1); [|contradiction].
  destruct (Z.eqb_spec (get_ysize img) 1); [contradiction|].
  cbn [negb translational_shift negated_peak fst snd] in *.
  unfold RotateTranslateAligner_decide in E.
  destruct (Qlt_bool _ _); run_inv_st.
  all: subst.
  all: match goal with H : attr_dict (store_transform _ _ _) !! _ = Some _ |- _ =>
         cbn [store_transform set_attr attr_dict] in H;
         rewrite lookup_insert_eq in H; injection H as <-
       end.
  all: match goal with H : EMObject_to_Transform _ = inr _ |- _ => cbn in H; injection H as <- end.
  all: exists a0; do 9 eexists.
  all: split; [eassumption|]; split; [exact Hmax|]; split; [reflexivity|].
  all: split; [apply transform_attr_store|].
  all: split; [cbn [trace]; rewrite !comparisons_app;
               repeat match goal with Hc : comparisons _ = _ |- _ => rewrite Hc; clear Hc end;
               rewrite ?comparisons_app; reflexivity|].
  all: split; [cbn [trace]; rewrite !peak_searches_app;
               repeat match goal with Hp : peak_searches _ = _ |- _ => rewrite Hp; clear Hp end;
               rewrite ?peak_searches_app; cbn [peak_searches flat_map app];
               reflexivity|].
  - left. split; reflexivity.
  - right. split; reflexivity.
Qed.

End RotateTranslateResult.

(** A pair of 16 x 16 images with [maxshift] 3. *)
Lemma rotate_translate_result_witness :
  exists r tr,
    (get_zsize Toy.moving = 1 /\ get_ysize Toy.moving <> 1)
    /\ run (RotateTranslateAligner_align (B:=Toy.ties) (Some Toy.moving) (Some Toy.reference)
              "dot" ∅) Toy.intonly_params = (Ok r, tr)
    /\ exists rfp_mode m e tf px1 py1 pz1 px2 py2 pz2,
         EMObject_to_int (Dict_read "rfp_mode" (INT 0) Toy.intonly_params) = inr rfp_mode
         /\ EMObject_to_int (Dict_read "maxshift" (INT (-1)) Toy.intonly_params) = inr m
         /\ r = Some e
         /\ transform_attr "xform.align2d" e = Some tf
         /\ comparisons tr = 2%nat
         /\ let bounds := translational_maxshift (get_xsize Toy.moving)
                            (get_ysize Toy.moving) (get_zsize Toy.moving) m m m in
            let fp := rotational_footprint (B:=Toy.ties) rfp_mode Toy.moving in
            let cf := calc_ccfx (ImageBackend:=Toy.ties) fp
                        (rotational_footprint (B:=Toy.ties) rfp_mode Toy.reference) 0
                        (get_ysize Toy.moving) in
            let peak_index := snd (find_max (ImageBackend:=Toy.ties) cf (get_xsize fp)) in
            let angle := (inject_Z peak_index * 180 / inject_Z (get_xsize fp))%Q in
            peak_searches tr = [(bounds, (px1, py1, pz1)); (bounds, (px2, py2, pz2))]
            /\ (t_alpha tf = angle
                /\ t_trans tf = (inject_Z (- px1), inject_Z (- py1), 0%Q)
                \/ t_alpha tf = (angle - 180)%Q
                   /\ t_trans tf = (inject_Z (- px2), inject_Z (- py2), 0%Q)).
Proof.
  do 2 eexists. split; [split; [reflexivity | discriminate]|].
  split; [vm_compute; reflexivity|].
  eapply (rotate_translate_result (B:=Toy.ties)
            (L:=Toy_backend_laws Toy.constant_score Toy.never_shrinking)
            Toy.moving Toy.reference "dot" ∅ Toy.intonly_params);
    [reflexivity | discriminate | vm_compute; reflexivity].
Defined.

(** ** The exhaustive aligners: search range and result *)

Section ExhaustiveMore.
Context {Pix : Type} {B : ImageBackend Pix} {L : ImageBackendLaws B}.
Implicit Types (img t e : EMData Pix) (this_img to : option (EMData Pix)) (s : State Pix).

(** X11: the smallest search range of the fast exhaustive aligner (lines
    490-492).  A [maxshift] that converts to less than 2 is rejected with
    an invalid-parameter failure before either image is touched.  The
    default being an eighth of the width, a moving image narrower than 16
    pixels aligned with neither [flip] nor [maxshift] set is always
    rejected. *)
Theorem rtf_exhaustive_rejects_small_maxshift img to cmp_name cmp_params (p : Dict Pix) :
  let failure : outcome (option (EMData Pix)) * list Event :=
    (Throw (InvalidParameterException "maxshift must be greater than or equal to 2"), []) in
  (forall flip m,
      EMObject_to_EMData (Dict_read "flip" (EMDATA None) p) = inr flip ->
      EMObject_to_int (Dict_read "maxshift" (INT (get_xsize img ÷ 8)) p) = inr m ->
      m < 2 ->
      run (RTFExhaustiveAligner_align (Some img) to cmp_name cmp_params) p = failure)
  /\ (p !! "flip" = None -> p !! "maxshift" = None -> get_xsize img < 16 ->
      run (RTFExhaustiveAligner_align (Some img) to cmp_name cmp_params) p = failure).
Proof.
  intros failure.
  assert (H : forall flip m,
      EMObject_to_EMData (Dict_read "flip" (EMDATA None) p) = inr flip ->
      EMObject_to_int (Dict_read "maxshift" (INT (get_xsize img ÷ 8)) p) = inr m ->
      m < 2 ->
      run (RTFExhaustiveAligner_align (Some img) to cmp_name cmp_params) p = failure).
  { intros flip m Hflip Hm Hlt. unfold run, RTFExhaustiveAligner_align.
    rewrite bind_set_default. cbn [params trace].
    rewrite (bind_lift_conv _ _ _ _ Hflip), bind_deref.
    rewrite bind_set_default. cbn [params trace].
    erewrite bind_lift_conv; cycle 1.
    { erewrite Dict_read_ext; [exact Hm|].
      rewrite Dict_set_default_lookup_ne by discriminate. reflexivity. }
    destruct (Z.ltb_spec m 2); [reflexivity|lia]. }
  split; [exact H|].
  intros Hf Hm Hnx. apply (H None (get_xsize img ÷ 8)).
  - rewrite Dict_read_unset by exact Hf. reflexivity.
  - rewrite Dict_read_unset by exact Hm. reflexivity.
  - Z.to_euclidean_division_equations. lia.
Qed.


End ExhaustiveMore.

(** ** The exhaustive aligners on further concrete images *)

(** A 16 x 16 image with [maxshift] 1, and an 8 x 8 image with the default
    parameters. *)
Lemma rtf_exhaustive_rejects_small_maxshift_witness :
  ((EMObject_to_EMData (Dict_read "flip" (EMDATA None) (<["maxshift" := INT 1]> ∅))
    = inr (None : option (EMData Toy.Pix))
    /\ EMObject_to_int (Dict_read "maxshift" (INT (get_xsize Toy.moving ÷ 8))
                          (<["maxshift" := INT 1]> ∅ : Dict Toy.Pix)) = inr 1
    /\ 1 < 2)
   /\ run (RTFExhaustiveAligner_align (B:=Toy.ties) (Some Toy.moving) (Some Toy.reference)
             "dot" ∅) (<["maxshift" := INT 1]> ∅)
      = (Throw (InvalidParameterException "maxshift must be greater than or equal to 2"), []))
  /\ (((∅ : Dict Toy.Pix) !! "flip" = None /\ (∅ : Dict Toy.Pix) !! "maxshift" = None
       /\ get_xsize Cases.small < 16)
      /\ run (RTFExhaustiveAligner_align (B:=Toy.ties) (Some Cases.small) (Some Cases.small)
                "dot" ∅) ∅
         = (Throw (InvalidParameterException "maxshift must be greater than or equal to 2"),
            [])).
Proof.
  split.
  - split; [split; [reflexivity | split; [reflexivity | reflexivity]]|].
    eapply (proj1 (rtf_exhaustive_rejects_small_maxshift (B:=Toy.ties) Toy.moving
                     (Some Toy.reference) "dot" ∅ (<["maxshift" := INT 1]> ∅)));
      [reflexivity | reflexivity | reflexivity].
  - split; [split; [reflexivity | split; [reflexivity | reflexivity]]|].
    apply (proj2 (rtf_exhaustive_rejects_small_maxshift (B:=Toy.ties) Cases.small
                    (Some Cases.small) "dot" ∅ ∅));
      reflexivity.
Defined.


(** ** The start and the result of the refinement *)

Section RefineMore.
Context {Pix : Type} {B : ImageBackend Pix}.
Implicit Types (img t result e : EMData Pix) (this_img to : option (EMData Pix)).

(** A normal run of the minimisation: the steps read, the iterations made
    from the seed, the Transform built and the image returned. *)
Lemma RefineAligner_minimize_inv img t result cmp_name cmp_params mode
    saz sdx sdy mirror (st : State Pix) r st' :
  RefineAligner_minimize img t result cmp_name cmp_params mode saz sdx sdy mirror st
    = (Ok r, st') ->
  exists stepx stepy stepaz k,
    EMObject_to_float (Dict_read "stepx" (FLOAT 1) (params st)) = inr stepx
    /\ EMObject_to_float (Dict_read "stepy" (FLOAT 1) (params st)) = inr stepy
    /\ EMObject_to_float (Dict_read "stepaz" (FLOAT 5) (params st)) = inr stepaz
    /\ let f := if mode =? 2 then refalifnfast img t mirror
                else refalifn img t mirror cmp_name cmp_params in
       let s0 := fminimizer_set f (sdx, sdy, saz) (stepx, stepy, stepaz) in
       let x := fminimizer_x (iterate_n k s0) in
       let tsoln := {| t_alpha := x.2; t_trans := (x.1.1, x.1.2, 0%Q); t_mirror := mirror |} in
       r = Some (transform tsoln (set_attr "xform.align2d" (TRANSFORM (Some tsoln)) result))
       /\ trace st' = trace st ++ EvMinimizerSet :: repeat EvMinimizerIterate k
                                ++ [EvSetAttr "xform.align2d"; EvTransform tsoln].
Proof.
  intros E. unfold RefineAligner_minimize in E.
  apply bind_Ok_inv in E as (snr & s1 & Hsnr & E).
  apply index_Ok_inv in Hsnr as [_ ->].
  apply bind_Ok_inv in E as (o1 & s2 & H1 & E).
  apply set_default_Ok_inv in H1 as [-> ->]. cbn [params trace] in E.
  apply bind_Ok_inv in E as (stepx & s3 & H1 & E).
  apply lift_conv_Ok_inv in H1 as [Hx ->].
  apply bind_Ok_inv in E as (o2 & s4 & H1 & E).
  apply set_default_Ok_inv in H1 as [-> ->]. cbn [params trace] in E.
  apply bind_Ok_inv in E as (stepy & s5 & H1 & E).
  apply lift_conv_Ok_inv in H1 as [Hy ->].
  apply bind_Ok_inv in E as (o3 & s6 & H1 & E).
  apply set_default_Ok_inv in H1 as [-> ->]. cbn [params trace] in E.
  apply bind_Ok_inv in E as (stepaz & s7 & H1 & E).
  apply lift_conv_Ok_inv in H1 as [Haz ->].
  rewrite bind_emit in E. cbn [params trace] in E.
  apply bind_Ok_inv in E as (o4 & s8 & H1 & E).
  apply set_default_Ok_inv in H1 as [-> ->]. cbn [params trace] in E.
  apply bind_Ok_inv in E as (precision & s9 & H1 & E).
  apply lift_conv_Ok_inv in H1 as [_ ->].
  apply bind_Ok_inv in E as (o5 & s10 & H1 & E).
  apply set_default_Ok_inv in H1 as [-> ->]. cbn [params trace] in E.
  apply bind_Ok_inv in E as (maxiter & s11 & H1 & E).
  apply lift_conv_Ok_inv in H1 as [_ ->].
  rewrite (Dict_read_ext "stepx" _ (params st)) in Hx
    by (rewrite ?Dict_set_default_lookup_ne, ?Dict_index_lookup_ne by discriminate;
        reflexivity).
  rewrite (Dict_read_ext "stepy" _ (params st)) in Hy
    by (rewrite ?Dict_set_default_lookup_ne, ?Dict_index_lookup_ne by discriminate;
        reflexivity).
  rewrite (Dict_read_ext "stepaz" _ (params st)) in Haz
    by (rewrite ?Dict_set_default_lookup_ne, ?Dict_index_lookup_ne by discriminate;
        reflexivity).
  match type of E with
  | context [bind (refine_loop ?fuel ?rval ?iter ?prec ?maxiter ?s0) _ ?st0] =>
      assert (Hfuel : (Z.to_nat (maxiter - iter) < fuel)%nat) by lia;
      destruct (refine_loop_run prec maxiter fuel rval iter s0 st0 Hfuel)
        as (k & Hloop & _);
      rewrite (bind_run_Ok _ _ _ _ _ Hloop) in E;
      destruct (fminimizer_x (iterate_n k s0)) as [[x0 x1] x2] eqn:Hxs;
      rewrite !bind_emit in E; cbn [params trace] in E;
      unfold ret in E; injection E as <- <-;
      exists stepx, stepy, stepaz, k
  end.
  split; [exact Hx|]. split; [exact Hy|]. split; [exact Haz|].
  cbn zeta. rewrite Hxs. cbn [fst snd trace].
  split; [reflexivity|].
  rewrite <- !app_assoc. reflexivity.
Qed.

(** X13: where the refinement starts and what it returns.  Given both
    images, every normal run builds one minimiser and nothing else before
    iterating: its starting point is the translation and angle of the
    Transform passed as [xform.align2d], or the origin when none is passed;
    its step sizes are [stepx], [stepy] and [stepaz] (1, 1 and 5 by
    default); its objective is the dot-product one exactly when [mode] is
    2, the comparator-based one otherwise, both with the mirror flag of the
    seed.  The Transform written is the point the minimiser holds after
    the iterations performed, with that same mirror flag, and the image
    returned is the copy of the moving image transformed by it. *)
Theorem refine_starts_from_seed img t cmp_name cmp_params (p : Dict Pix) r tr :
  run (RefineAligner_align (Some img) (Some t) cmp_name cmp_params) p = (Ok r, tr) ->
  exists mode seed stepx stepy stepaz k,
    EMObject_to_int (Dict_read "mode" (INT 0) p) = inr mode
    /\ EMObject_to_Transform (Dict_read "xform.align2d" (TRANSFORM None) p) = inr seed
    /\ EMObject_to_float (Dict_read "stepx" (FLOAT 1) p) = inr stepx
    /\ EMObject_to_float (Dict_read "stepy" (FLOAT 1) p) = inr stepy
    /\ EMObject_to_float (Dict_read "stepaz" (FLOAT 5) p) = inr stepaz
    /\ let start := match seed with
                    | Some tf => ((t_trans tf).1.1, (t_trans tf).1.2, t_alpha tf)
                    | None => (0, 0, 0)%Q
                    end in
       let mirror := match seed with Some tf => t_mirror tf | None => false end in
       let f := if mode =? 2 then refalifnfast img t mirror
                else refalifn img t mirror cmp_name cmp_params in
       let s0 := fminimizer_set f start (stepx, stepy, stepaz) in
       let x := fminimizer_x (iterate_n k s0) in
       let tsoln := {| t_alpha := x.2; t_trans := (x.1.1, x.1.2, 0%Q); t_mirror := mirror |} in
       r = Some (transform tsoln (set_attr "xform.align2d" (TRANSFORM (Some tsoln)) img))
       /\ tr = EvCopy :: EvMinimizerSet :: repeat EvMinimizerIterate k
                 ++ [EvSetAttr "xform.align2d"; EvTransform tsoln].
Proof.
  intros E. apply run_inv_eq in E as (s' & E & <-).
  unfold RefineAligner_align in E.
  rewrite bind_deref, bind_emit in E. cbn [params trace] in E.
  apply bind_Ok_inv in E as (o1 & s1 & H1 & E).
  apply set_default_Ok_inv in H1 as [-> ->]. cbn [params trace] in E.
  apply bind_Ok_inv in E as (mode & s2 & H1 & E).
  apply lift_conv_Ok_inv in H1 as [Hmode ->].
  apply bind_Ok_inv in E as (o2 & s3 & H1 & E).
  apply set_default_Ok_inv in H1 as [-> ->]. cbn [params trace] in E.
  apply bind_Ok_inv in E as (seed & s4 & H1 & E).
  apply lift_conv_Ok_inv in H1 as [Hseed ->].
  rewrite (Dict_read_ext "xform.align2d" _ p) in Hseed
    by (rewrite ?Dict_set_default_lookup_ne by discriminate; reflexivity).
  assert (Hgen : forall saz sdx sdy mirror,
    RefineAligner_minimize img t img cmp_name cmp_params mode saz sdx sdy mirror
      {| params := (Dict_set_default "xform.align2d" (TRANSFORM None)
                      (Dict_set_default "mode" (INT 0) p).2).2;
         trace := [] ++ [EvCopy] |} = (Ok r, s') ->
    exists stepx stepy stepaz k,
      EMObject_to_float (Dict_read "stepx" (FLOAT 1) p) = inr stepx
      /\ EMObject_to_float (Dict_read "stepy" (FLOAT 1) p) = inr stepy
      /\ EMObject_to_float (Dict_read "stepaz" (FLOAT 5) p) = inr stepaz
      /\ let f := if mode =? 2 then refalifnfast img t mirror
                  else refalifn img t mirror cmp_name cmp_params in
         let s0 := fminimizer_set f (sdx, sdy, saz) (stepx, stepy, stepaz) in
         let x := fminimizer_x (iterate_n k s0) in
         let tsoln := {| t_alpha := x.2; t_trans := (x.1.1, x.1.2, 0%Q);
                         t_mirror := mirror |} in
         r = Some (transform tsoln (set_attr "xform.align2d" (TRANSFORM (Some tsoln)) img))
         /\ trace s' = EvCopy :: EvMinimizerSet :: repeat EvMinimizerIterate k
                         ++ [EvSetAttr "xform.align2d"; EvTransform tsoln]).
  { intros saz sdx sdy mirror Hmin.
    apply RefineAligner_minimize_inv in Hmin
      as (stepx & stepy & stepaz & k & Hx & Hy & Haz & Hres).
    cbn [params trace] in Hx, Hy, Haz, Hres.
    rewrite (Dict_read_ext "stepx" _ p) in Hx
      by (rewrite ?Dict_set_default_lookup_ne by discriminate; reflexivity).
    rewrite (Dict_read_ext "stepy" _ p) in Hy
      by (rewrite ?Dict_set_default_lookup_ne by discriminate; reflexivity).
    rewrite (Dict_read_ext "stepaz" _ p) in Haz
      by (rewrite ?Dict_set_default_lookup_ne by discriminate; reflexivity).
    exists stepx, stepy, stepaz, k.
    split; [exact Hx|]. split; [exact Hy|]. split; [exact Haz|]. exact Hres. }
  exists mode, seed.
  destruct seed as [tf|]; [destruct (t_trans tf) as [[tx ty] tz] eqn:Htt|];
    apply Hgen in E as (stepx & stepy & stepaz & k & Hx & Hy & Haz & Hres);
    exists stepx, stepy, stepaz, k;
    (split; [exact Hmode|]); (split; [exact Hseed|]);
    (split; [exact Hx|]); (split; [exact Hy|]); (split; [exact Haz|]);
    exact Hres.
Qed.

End RefineMore.

(** A pair of 16 x 16 images refined from a mirrored seed at (1, -2) and
    10 degrees, with at most two iterations. *)
Lemma refine_starts_from_seed_witness :
  exists r tr,
    run (RefineAligner_align (B:=Toy.ties) (Some Toy.moving) (Some Toy.reference) "dot" ∅)
      Cases.seeded = (Ok r, tr)
    /\ exists mode seed stepx stepy stepaz k,
         EMObject_to_int (Dict_read "mode" (INT 0) Cases.seeded) = inr mode
         /\ EMObject_to_Transform (Dict_read "xform.align2d" (TRANSFORM None) Cases.seeded)
            = inr seed
         /\ EMObject_to_float (Dict_read "stepx" (FLOAT 1) Cases.seeded) = inr stepx
         /\ EMObject_to_float (Dict_read "stepy" (FLOAT 1) Cases.seeded) = inr stepy
         /\ EMObject_to_float (Dict_read "stepaz" (FLOAT 5) Cases.seeded) = inr stepaz
         /\ let start := match seed with
                         | Some tf => ((t_trans tf).1.1, (t_trans tf).1.2, t_alpha tf)
                         | None => (0, 0, 0)%Q
                         end in
            let mirror := match seed with Some tf => t_mirror tf | None => false end in
            let f := if mode =? 2 then refalifnfast (B:=Toy.ties) Toy.moving Toy.reference mirror
                     else refalifn (B:=Toy.ties) Toy.moving Toy.reference mirror "dot" ∅ in
            let s0 := fminimizer_set (ImageBackend:=Toy.ties) f start (stepx, stepy, stepaz) in
            let x := fminimizer_x (iterate_n k s0) in
            let tsoln := {| t_alpha := x.2; t_trans := (x.1.1, x.1.2, 0%Q);
                            t_mirror := mirror |} in
            r = Some (transform (ImageBackend:=Toy.ties) tsoln
                        (set_attr "xform.align2d" (TRANSFORM (Some tsoln)) Toy.moving))
            /\ tr = EvCopy :: EvMinimizerSet :: repeat EvMinimizerIterate k
                      ++ [EvSetAttr "xform.align2d"; EvTransform tsoln].
Proof.
  do 2 eexists. split; [vm_compute; reflexivity|].
  eapply (refine_starts_from_seed (B:=Toy.ties) Toy.moving Toy.reference "dot" ∅
            Cases.seeded).
  vm_compute; reflexivity.
Defined.

(** ** The rotate_precenter aligner: the angles *)

Section Precenter.
Context {Pix : Type} {B : ImageBackend Pix} {L : ImageBackendLaws B}.
Implicit Types (img t e : EMData Pix) (this_img to : option (EMData Pix)) (s : State Pix).

(** X14: the rotate_precenter aligner.  Without a reference it returns
    null and does nothing.  Given both images, with [i] the index of the
    peak of the correlation of the two unwrapped images and [size] their
    width, it computes [a = (1 - i / size) * 180 * 2]; the moving image is
    transformed by the rotation of angle [a * 180 / pi], while the
    Transform attached to the returned image has the angle [- a]; its
    translation and mirror flag are those the moving image carried.  The
    operations are two unwrappings, the correlation, the peak search, the
    transformation and the attribute write; no parameter is read. *)
Theorem rotate_precenter_angles img t this_img cmp_name cmp_params s :
  RotatePrecenterAligner_align this_img None cmp_name cmp_params s = (Ok None, s)
  /\ forall r s',
       RotatePrecenterAligner_align (Some img) (Some t) cmp_name cmp_params s = (Ok r, s') ->
       let ny := get_ysize img in
       let size := calc_best_fft_size (float_to_int (M_PI * inject_Z ny * (3 # 2))%Q) in
       let e1 := unwrap 4 (ny * 7 ÷ 16) size 0 0 true img in
       let e2 := unwrap 4 (ny * 7 ÷ 16) size 0 0 true t in
       let peak_index := snd (find_max (calc_ccfx e1 e2 0 ny) size) in
       let a := ((1 - 1 * inject_Z peak_index / inject_Z size) * 180 * 2)%Q in
       exists e tf,
         r = Some e
         /\ transform_attr "xform.align2d" e = Some tf
         /\ t_alpha tf = (- a)%Q
         /\ (forall old, transform_attr "xform.align2d" img = Some old ->
                         t_trans tf = t_trans old /\ t_mirror tf = t_mirror old)
         /\ s' = mkState (params s)
                   (trace s ++ [EvUnwrap; EvUnwrap; EvCalcCcfx; EvFindMax;
                                EvTransform (Transform_2d (a * 180 / M_PI)%Q);
                                EvSetAttr "xform.align2d"]).
Proof.
  split; [reflexivity|].
  intros r s' E ny size e1 e2 peak_index a.
  unfold RotatePrecenterAligner_align in E. run_inv.
  match goal with H : get_set_align_attr _ _ _ _ = _ |- _ =>
    apply get_set_align_attr_inv in H as (tf & Hr & -> & Hsrc) end.
  some_inj.
  match goal with H : find_max _ _ = (_, ?i) |- _ =>
    assert (Hpi : peak_index = i) by (subst peak_index e1 e2 size ny; rewrite H; reflexivity)
  end.
  clearbody peak_index. subst peak_index.
  match goal with |- context [store_transform ?k (set_rotation ?x ?y) ?e] =>
    destruct (transform_attr_store_rotation k y e x) as (tf' & Hattr & Ha & Htr & Hmi)
  end.
  eexists. exists tf'. split; [reflexivity|]. split; [exact Hattr|]. split; [exact Ha|].
  split.
  - intros old Hold. rewrite Htr, Hmi.
    destruct Hsrc as [Hs|[Hs _]].
    + unfold transform_attr in Hs. rewrite transform_keeps_attrs in Hs.
      unfold transform_attr in Hold. rewrite Hold in Hs. injection Hs as ->. auto.
    + apply transform_attr_has in Hold.
      unfold has_attr in *. rewrite transform_keeps_attrs in Hs. congruence.
  - cbn [params trace]. rewrite <- !app_assoc. reflexivity.
Qed.

End Precenter.

(** A 16 x 16 image that already carries an alignment, against a reference
    of the same size. *)
Lemma rotate_precenter_angles_witness :
  RotatePrecenterAligner_align (B:=Toy.ties) (Some Toy.moving) None "dot" ∅ Toy.start
  = (Ok None, Toy.start)
  /\ exists r s',
       RotatePrecenterAligner_align (B:=Toy.ties) (Some Cases.aligned_before)
         (Some Toy.reference) "dot" ∅ Toy.start = (Ok r, s')
       /\ let ny := get_ysize Cases.aligned_before in
          let size := calc_best_fft_size (ImageBackend:=Toy.ties)
                        (float_to_int (M_PI * inject_Z ny * (3 # 2))%Q) in
          let e1 := unwrap (ImageBackend:=Toy.ties) 4 (ny * 7 ÷ 16) size 0 0 true
                      Cases.aligned_before in
          let e2 := unwrap (ImageBackend:=Toy.ties) 4 (ny * 7 ÷ 16) size 0 0 true
                      Toy.reference in
          let peak_index := snd (find_max (ImageBackend:=Toy.ties)
                                   (calc_ccfx (ImageBackend:=Toy.ties) e1 e2 0 ny) size) in
          let a := ((1 - 1 * inject_Z peak_index / inject_Z size) * 180 * 2)%Q in
          exists e tf,
            r = Some e
            /\ transform_attr "xform.align2d" e = Some tf
            /\ t_alpha tf = (- a)%Q
            /\ (forall old, transform_attr "xform.align2d" Cases.aligned_before = Some old ->
                            t_trans tf = t_trans old /\ t_mirror tf = t_mirror old)
            /\ s' = mkState (params Toy.start)
                      (trace Toy.start
                       ++ [EvUnwrap; EvUnwrap; EvCalcCcfx; EvFindMax;
                           EvTransform (Transform_2d (a * 180 / M_PI)%Q);
                           EvSetAttr "xform.align2d"]).
Proof.
  destruct (rotate_precenter_angles (B:=Toy.ties)
              (L:=Toy_backend_laws Toy.constant_score Toy.never_shrinking)
              Cases.aligned_before Toy.reference (Some Toy.moving) "dot" ∅ Toy.start)
    as [Hnull Hrun].
  split; [exact Hnull|].
  do 2 eexists. split; [vm_compute; reflexivity|].
  eapply Hrun. vm_compute; reflexivity.
Defined.

(** ** The parameter bag after a run *)

Section Stores.
Context {Pix : Type}.
Implicit Types (D : Dict Pix) (s : State Pix).

Lemma stores_eq {A} (m : M Pix A) D D' : stores m D -> D = D' -> stores m D'.
Proof. intros H <-. exact H. Qed.

Lemma stores_bind {A C} (m : M Pix A) (k : A -> M Pix C) D1 D2 :
  stores m D1 -> (forall a, stores (k a) D2) -> stores (bind m k) (D1 ∪ D2).
Proof.
  intros Hm Hk s c s' E. apply bind_Ok_inv in E as (a & s1 & E1 & E2).
  rewrite (Hk _ _ _ _ E2), (Hm _ _ _ E1). symmetry. apply (assoc_L (∪)).
Qed.

Lemma stores_bind_deref {A C} (a : A) (k : A -> M Pix C) D :
  stores (k a) D -> stores (bind (deref (Some a)) k) D.
Proof. intros Hk s c s' E. rewrite bind_deref in E. eapply Hk. exact E. Qed.

Lemma stores_ret {A} (a : A) : stores (ret a : M Pix A) ∅.
Proof.
  intros s c s' E. apply ret_Ok_inv in E as [_ <-]. symmetry. apply (right_id_L ∅ (∪)).
Qed.

Lemma stores_throw {A} e D : stores (throw e : M Pix A) D.
Proof. intros s c s' E. discriminate E. Qed.

Lemma stores_out_of_fuel {A} D : stores (out_of_fuel : M Pix A) D.
Proof. intros s c s' E. discriminate E. Qed.

Lemma stores_deref {A} (p : option A) : stores (deref p : M Pix A) ∅.
Proof.
  intros s c s' E. apply deref_Ok_inv in E as [_ <-]. symmetry. apply (right_id_L ∅ (∪)).
Qed.

Lemma stores_emit ev : stores (emit ev : M Pix unit) ∅.
Proof.
  intros s c s' E. apply emit_Ok_inv in E as ->. cbn. symmetry. apply (right_id_L ∅ (∪)).
Qed.

Lemma stores_lift_conv {A} (r : Exception + A) : stores (lift_conv r : M Pix A) ∅.
Proof.
  intros s c s' E. apply lift_conv_Ok_inv in E as [_ <-]. symmetry.
  apply (right_id_L ∅ (∪)).
Qed.

Lemma Dict_set_default_union key (v : EMObject Pix) (d : Dict Pix) :
  (Dict_set_default key v d).2 = d ∪ {[key := v]}.
Proof.
  unfold Dict_set_default. destruct (d !! key) as [o|] eqn:E; cbn.
  - apply map_eq. intros k. rewrite lookup_union.
    destruct (decide (k = key)) as [->|Hne].
    + rewrite E, lookup_singleton_eq. reflexivity.
    + rewrite lookup_singleton_ne by congruence. destruct (d !! k); reflexivity.
  - apply insert_union_singleton_r. exact E.
Qed.

Lemma Dict_index_union key (d : Dict Pix) :
  (Dict_index key d).2 = d ∪ {[key := UNKNOWN]}.
Proof. apply (Dict_set_default_union key UNKNOWN d). Qed.

Lemma stores_set_default key (v : EMObject Pix) : stores (set_default key v) {[key := v]}.
Proof.
  intros s c s' E. apply set_default_Ok_inv in E as [_ ->]. cbn.
  apply Dict_set_default_union.
Qed.

Lemma stores_index key : stores (index key : M Pix (EMObject Pix)) {[key := UNKNOWN]}.
Proof.
  intros s c s' E. apply index_Ok_inv in E as [_ ->]. cbn. apply Dict_index_union.
Qed.

Lemma stores_with_params {A} (p : Dict Pix) (m : M Pix A) : stores (with_params p m) ∅.
Proof.
  intros s c s' E. apply with_params_Ok_inv_state in E as (s1 & _ & ->). cbn.
  symmetry. apply (right_id_L ∅ (∪)).
Qed.

Lemma stores_for_each {A S} (l : list A) (body : A -> S -> M Pix S) :
  (forall a b, stores (body a b) ∅) -> forall b, stores (for_each l body b) ∅.
Proof.
  intros Hb. induction l as [|a l IH]; intros b; cbn [for_each].
  - apply stores_ret.
  - eapply stores_eq; [apply stores_bind; [apply Hb | intros; apply IH]|].
    apply (left_id_L ∅ (∪)).
Qed.

Lemma stores_for_float {S} (body : Q -> S -> M Pix S) (hi step : Q) fuel :
  (forall x b, stores (body x b) ∅) -> forall x b, stores (for_float fuel x hi step body b) ∅.
Proof.
  intros Hb. induction fuel as [|fuel IH]; intros x b; cbn [for_float].
  - apply stores_out_of_fuel.
  - destruct (Qle_bool x hi); [|apply stores_ret].
    eapply stores_eq; [apply stores_bind; [apply Hb | intros; apply IH]|].
    apply (left_id_L ∅ (∪)).
Qed.

End Stores.

(** Proves [stores m D] step by step; [D] may be left to be found. *)
Ltac stores_norm :=
  rewrite ?(left_id_L ∅ (∪)), ?(right_id_L ∅ (∪)); reflexivity.

Ltac stores_go :=
  lazymatch goal with
  | |- stores (bind (deref (Some _)) _) _ => apply stores_bind_deref; stores_go
  | |- stores (bind _ _) _ =>
      eapply stores_eq; [eapply stores_bind; [stores_go | intros ?; stores_go] | stores_norm]
  | |- stores (with_params _ _) _ => eapply stores_eq; [apply stores_with_params | stores_norm]
  | |- stores (ret _) _ => eapply stores_eq; [apply stores_ret | stores_norm]
  | |- stores (throw _) _ => apply stores_throw
  | |- stores out_of_fuel _ => apply stores_out_of_fuel
  | |- stores (deref _) _ => eapply stores_eq; [apply stores_deref | stores_norm]
  | |- stores (emit _) _ => eapply stores_eq; [apply stores_emit | stores_norm]
  | |- stores (lift_conv _) _ => eapply stores_eq; [apply stores_lift_conv | stores_norm]
  | |- stores (set_default _ _) _ => eapply stores_eq; [apply stores_set_default | stores_norm]
  | |- stores (index _) _ => eapply stores_eq; [apply stores_index | stores_norm]
  | |- stores (for_each _ _ _) _ =>
      eapply stores_eq; [apply stores_for_each; intros ? ?; stores_go | stores_norm]
  | |- stores (for_int _ _ _ _) _ =>
      eapply stores_eq; [apply stores_for_each; intros ? ?; stores_go | stores_norm]
  | |- stores (for_float _ _ _ _ _ _) _ =>
      eapply stores_eq; [apply stores_for_float; intros ? ?; stores_go | stores_norm]
  | |- stores (if ?c then _ else _) _ => destruct c; stores_go
  | |- stores (let '(_, _) := ?p in _) _ => destruct p; stores_go
  | |- stores (match ?p with Some _ => _ | None => _ end) _ => destruct p; stores_go
  | |- _ => solve [eapply stores_eq; [eauto with stores nocore | stores_norm]]
  end.

Create HintDb stores discriminated.

Section StoresAligners.
Context {Pix : Type} {B : ImageBackend Pix}.
Implicit Types (img t image from_image e : EMData Pix) (this_img to : option (EMData Pix)).

Lemma stores_get_attr key e : stores (get_attr key e) ∅.
Proof. unfold get_attr. destruct (attr_dict e !! key); stores_go. Qed.

#[local] Hint Resolve stores_get_attr : stores.

Lemma stores_get_set_align_attr key image from_image :
  stores (get_set_align_attr key image from_image) ∅.
Proof. unfold get_set_align_attr. stores_go. Qed.

Lemma stores_get_align_attr key image : stores (get_align_attr key image) ∅.
Proof. unfold get_align_attr. stores_go. Qed.

#[local] Hint Resolve stores_get_set_align_attr stores_get_align_attr : stores.

Lemma stores_align_180_ambiguous this_img to m : stores (align_180_ambiguous this_img to m) ∅.
Proof. unfold align_180_ambiguous. stores_go. Qed.

#[local] Hint Resolve stores_align_180_ambiguous : stores.

Lemma stores_flipped_reference flip to : stores (flipped_reference flip to) ∅.
Proof. unfold flipped_reference. stores_go. Qed.

Lemma stores_rtf_exhaustive_candidate a b1 b2 b3 b4 r2 xs cmp_name cmp_params dx dy best :
  stores (rtf_exhaustive_candidate a b1 b2 b3 b4 r2 xs cmp_name cmp_params dx dy best) ∅.
Proof. unfold rtf_exhaustive_candidate. stores_go. Qed.

Lemma stores_rtf_slow_candidate a b1 b2 cmp_name cmp_params dx dy ang best :
  stores (rtf_slow_candidate a b1 b2 cmp_name cmp_params dx dy ang best) ∅.
Proof. unfold rtf_slow_candidate. stores_go. Qed.

Lemma stores_refine_loop precision maxiter fuel :
  forall rval iter (s : fminimizer), stores (refine_loop fuel rval iter precision maxiter s) ∅.
Proof.
  induction fuel as [|fuel IH]; intros rval iter s; cbn [refine_loop].
  - apply stores_out_of_fuel.
  - destruct (_ && _); [|apply stores_ret].
    eapply stores_eq; [apply stores_bind; [apply stores_emit|]|apply (left_id_L ∅ (∪))].
    intros _. destruct (fminimizer_iterate s) as [status s1].
    destruct (negb _); [apply stores_ret | apply IH].
Qed.

#[local] Hint Resolve stores_flipped_reference stores_rtf_exhaustive_candidate
  stores_rtf_slow_candidate stores_refine_loop : stores.


End StoresAligners.


(** ** The exceptions of each strategy *)

Section RaisesLoops.
Context {Pix : Type}.

Lemma raises_for_each {A S} (l : list A) (body : A -> S -> M Pix S) P :
  (forall a b, raises (body a b) P) -> forall b, raises (for_each l body b) P.
Proof.
  intros Hb. induction l as [|a l IH]; intros b; cbn [for_each].
  - apply raises_ret.
  - apply raises_bind; [apply Hb | intros; apply IH].
Qed.

Lemma raises_for_float {S} (body : Q -> S -> M Pix S) (hi step : Q) fuel P :
  (forall x b, raises (body x b) P) -> forall x b, raises (for_float fuel x hi step body b) P.
Proof.
  intros Hb. induction fuel as [|fuel IH]; intros x b; cbn [for_float].
  - apply raises_out_of_fuel.
  - destruct (Qle_bool x hi); [|apply raises_ret].
    apply raises_bind; [apply Hb | intros; apply IH].
Qed.

End RaisesLoops.

Ltac raises_loops :=
  repeat first
    [ progress raises_steps
    | match goal with
      | |- raises (for_int _ _ _ _) _ => apply raises_for_each; intros ? ?
      | |- raises (for_each _ _ _) _ => apply raises_for_each; intros ? ?
      | |- raises (for_float _ _ _ _ _ _) _ => apply raises_for_float; intros ? ?
      end ].

Section RaisesTable.
Context {Pix : Type} {B : ImageBackend Pix}.
Implicit Types (img t image from_image e : EMData Pix) (this_img to : option (EMData Pix))
  (ks : list Kind).

Lemma raises_Translational this_img to cmp_name cmp_params ks :
  In KImageDimension ks -> In KType ks ->
  raises (TranslationalAligner_align this_img to cmp_name cmp_params) (of_kinds ks).
Proof.
  intros H1 H2. unfold TranslationalAligner_align, of_kinds.
  destruct this_img; raises_steps.
Qed.

Lemma raises_align_180_ambiguous this_img to m ks :
  In KInvalidParameter ks -> In KType ks ->
  raises (align_180_ambiguous this_img to m) (of_kinds ks).
Proof. intros H1 H2. unfold align_180_ambiguous, of_kinds. raises_steps. Qed.

Lemma align_180_ambiguous_has_attr this_img to m :
  ensures (align_180_ambiguous this_img to m)
          (fun r => exists tf, attr_dict r !! "xform.align2d" = Some (TRANSFORM (Some tf))).
Proof.
  intros s r s' E. unfold align_180_ambiguous in E. run_inv.
  all: match goal with H : get_set_align_attr _ _ _ _ = _ |- _ =>
         apply get_set_align_attr_run in H as (? & ? & ?) end.
  all: some_inj; eexists; cbn; apply lookup_insert_eq.
Qed.

(** Reading the Transform an image is known to hold raises nothing. *)
Lemma raises_read_transform {C} key e tf (k : Transform -> M Pix C) P :
  attr_dict e !! key = Some (TRANSFORM (Some tf)) ->
  raises (k tf) P ->
  raises (o <- get_attr key e ;; p <- lift_conv (EMObject_to_Transform o) ;;
          t <- deref p ;; k t) P.
Proof.
  intros Hattr Hk s ex s' E. unfold get_attr in E. rewrite Hattr in E.
  eapply Hk. exact E.
Qed.

Lemma raises_Rotational this_img to cmp_name cmp_params ks :
  In KInvalidParameter ks -> In KType ks ->
  raises (RotationalAligner_align this_img to cmp_name cmp_params) (of_kinds ks).
Proof.
  intros H1 H2.
  unfold RotationalAligner_align, RotationalAligner_candidates, RotationalAligner_decide.
  apply raises_bind.
  - destruct to as [t|]; [|unfold of_kinds; raises_steps].
    apply raises_bind; [apply raises_set_default|]. intros o.
    apply raises_bind; [unfold of_kinds; raises_steps|]. intros m.
    eapply raises_bind_ensures;
      [apply align_180_ambiguous_has_attr
      | apply raises_align_180_ambiguous; assumption |].
    intros rot_aligned [tf Hattr].
    eapply raises_read_transform; [exact Hattr|].
    unfold of_kinds. raises_steps.
  - intros c. unfold of_kinds. raises_steps.
Qed.

Lemma raises_RotateTranslate this_img to cmp_name cmp_params ks :
  In KInvalidParameter ks -> In KImageDimension ks -> In KType ks ->
  In KNotExistingObject ks ->
  raises (RotateTranslateAligner_align this_img to cmp_name cmp_params) (of_kinds ks).
Proof.
  intros H1 H2 H3 H4.
  unfold RotateTranslateAligner_align, RotateTranslateAligner_candidates,
    RotateTranslateAligner_decide.
  apply raises_bind.
  - apply raises_bind; [apply raises_set_default|]. intros o.
    apply raises_bind; [unfold of_kinds; raises_steps|]. intros m.
    eapply raises_bind_ensures;
      [apply align_180_ambiguous_has_attr
      | apply raises_align_180_ambiguous; assumption |].
    intros rot_aligned [tf Hattr].
    eapply raises_read_transform; [exact Hattr|].
    repeat first
      [ apply raises_Translational; assumption
      | progress (unfold of_kinds; raises_steps); fold (of_kinds ks) ].
  - intros c. destruct c as [[[[? ?] ?] ?] ?].
    destruct (Qlt_bool _ _).
    all: apply raises_bind; [intros s ex s' E; unfold get_attr in E;
                             destruct (_ !! _); [discriminate E|];
                             injection E as <- <-; exact H4|].
    all: intros; unfold of_kinds; raises_steps.
Qed.


Lemma raises_get_attr key e ks :
  In KNotExistingObject ks -> raises (get_attr key e) (of_kinds ks).
Proof.
  intros H s ex s' E. unfold get_attr in E.
  destruct (_ !! _); [discriminate E|]. injection E as <- <-. exact H.
Qed.

Lemma raises_flipped_reference flip to P : raises (flipped_reference flip to) P.
Proof. unfold flipped_reference. raises_steps. Qed.

Lemma raises_rtf_exhaustive_candidate a b1 b2 b3 b4 r2 xs cmp_name cmp_params dx dy best P :
  raises (rtf_exhaustive_candidate a b1 b2 b3 b4 r2 xs cmp_name cmp_params dx dy best) P.
Proof. unfold rtf_exhaustive_candidate. raises_steps. Qed.

Lemma raises_rtf_slow_candidate a b1 b2 cmp_name cmp_params dx dy ang best P :
  raises (rtf_slow_candidate a b1 b2 cmp_name cmp_params dx dy ang best) P.
Proof. unfold rtf_slow_candidate. raises_steps. Qed.

Lemma raises_refine_loop precision maxiter fuel P :
  forall rval iter (s : fminimizer), raises (refine_loop fuel rval iter precision maxiter s) P.
Proof.
  induction fuel as [|fuel IH]; intros rval iter s; cbn [refine_loop].
  - apply raises_out_of_fuel.
  - destruct (_ && _); [|apply raises_ret].
    apply raises_bind; [apply raises_emit|].
    intros _. destruct (fminimizer_iterate s) as [status s1].
    destruct (negb _); [apply raises_ret | apply IH].
Qed.

#[local] Hint Resolve raises_Translational raises_Rotational raises_RotateTranslate
  raises_align_180_ambiguous raises_get_attr raises_flipped_reference
  raises_rtf_exhaustive_candidate raises_rtf_slow_candidate raises_refine_loop : exn.
#[local] Hint Extern 1 (In _ _) => cbn; tauto : exn.

Ltac kind_side := intros; unfold of_kinds; cbn; first [assumption | tauto].

Ltac raises_kinds :=
  repeat first
    [ solve [eauto with exn nocore]
    | solve [apply raises_throw; kind_side]
    | solve [apply raises_to_int; kind_side]
    | solve [apply raises_to_float; kind_side]
    | solve [apply raises_to_Transform; kind_side]
    | solve [apply raises_to_EMData; kind_side]
    | solve [apply raises_get_set_align_attr; kind_side]
    | solve [apply raises_get_align_attr; kind_side]
    | match goal with
      | |- raises (bind _ _) _ => apply raises_bind; [|intros ?]
      | |- raises (with_params _ _) _ => apply raises_with_params
      | |- raises (for_int _ _ _ _) _ => apply raises_for_each; intros ? ?
      | |- raises (for_each _ _ _) _ => apply raises_for_each; intros ? ?
      | |- raises (for_float _ _ _ _ _ _) _ => apply raises_for_float; intros ? ?
      | |- raises (if ?c then _ else _) _ => destruct c eqn:?
      | |- raises (let '(_, _) := ?p in _) _ => destruct p
      | |- raises (match ?p with Some _ => _ | None => _ end) _ => destruct p
      end ].

(** X16: the failures of each strategy.  Whatever the images, the
    comparator and the parameters, an exception thrown by [align] is of one
    of the kinds [may_raise] lists for the strategy: a type exception (a
    parameter or attribute of the wrong type) for every strategy, and
    nothing else for rotate_precenter and refine; an invalid-parameter
    exception for the rotational, rotate_flip and the two exhaustive
    strategies; an image-dimension exception for the translational one;
    any of these or a missing-attribute exception for rotate_translate and
    rotate_translate_flip.  The exceptions meant are those of the aligners'
    own statements and of the conversions and attribute reads they make;
    the image operations, comparators and minimiser are total here. *)
Theorem align_raises_only (a : Strategy) this_img to cmp_name cmp_params
    (s : State Pix) (ex : Exception) (s' : State Pix) :
  align a this_img to cmp_name cmp_params s = (Throw ex, s') ->
  In (kind_of ex) (may_raise a).
Proof.
  revert s ex s'.
  change (raises (align a this_img to cmp_name cmp_params) (of_kinds (may_raise a))).
  destruct a; cbn [align may_raise].
  - apply raises_Translational; cbn; tauto.
  - apply raises_Rotational; cbn; tauto.
  - unfold RotatePrecenterAligner_align. raises_kinds.
  - apply raises_RotateTranslate; cbn; tauto.
  - unfold RotateFlipAligner_align, RotateFlipAligner_candidates, RotateFlipAligner_decide.
    raises_kinds.
  - unfold RotateTranslateFlipAligner_align, RotateTranslateFlipAligner_candidates,
      RotateTranslateFlipAligner_decide.
    raises_kinds.
  - unfold RTFExhaustiveAligner_align. raises_kinds.
  - unfold RTFSlowExhaustiveAligner_align. raises_kinds.
  - unfold RefineAligner_align, RefineAligner_minimize. raises_kinds.
Qed.

End RaisesTable.

(** Three failing calls: a rotational alignment without a reference, a
    translational alignment to a smaller reference, and a refinement whose
    [maxiter] is a string. *)
Lemma align_raises_only_witness :
  (exists ex s',
      align (B:=Toy.ties) Rotational (Some Toy.moving) None "dot" ∅ Toy.start
      = (Throw ex, s')
      /\ In (kind_of ex) (may_raise Rotational))
  /\ (exists ex s',
      align (B:=Toy.ties) Translational (Some Toy.moving) (Some Cases.small) "dot" ∅
        Toy.start = (Throw ex, s')
      /\ In (kind_of ex) (may_raise Translational))
  /\ (exists ex s',
      align (B:=Toy.ties) Refine (Some Toy.moving) (Some Toy.reference) "dot" ∅
        (mkState (<["maxiter" := STRING "many"]> ∅) []) = (Throw ex, s')
      /\ In (kind_of ex) (may_raise Refine)).
Proof.
  split; [|split].
  - do 2 eexists. split; [vm_compute; reflexivity|].
    eapply (align_raises_only (B:=Toy.ties) Rotational (Some Toy.moving) None "dot" ∅
              Toy.start).
    vm_compute; reflexivity.
  - do 2 eexists. split; [vm_compute; reflexivity|].
    eapply (align_raises_only (B:=Toy.ties) Translational (Some Toy.moving)
              (Some Cases.small) "dot" ∅ Toy.start).
    vm_compute; reflexivity.
  - do 2 eexists. split; [vm_compute; reflexivity|].
    eapply (align_raises_only (B:=Toy.ties) Refine (Some Toy.moving) (Some Toy.reference)
              "dot" ∅ (mkState (<["maxiter" := STRING "many"]> ∅) [])).
    vm_compute; reflexivity.
Defined.

(** ** The offsets found by the slow exhaustive search *)

Section LoopInvariants.
Context {Pix : Type}.

Lemma for_each_ensures {A S} (J : S -> Prop) (l : list A) (body : A -> S -> M Pix S) :
  (forall a b, In a l -> J b -> ensures (body a b) J) ->
  forall b, J b -> ensures (for_each l body b) J.
Proof.
  induction l as [|a l IH]; intros Hbody b Hb s r s' E; cbn [for_each] in E.
  - apply ret_Ok_inv in E as [<- _]. exact Hb.
  - apply bind_Ok_inv in E as (b1 & s1 & E1 & E2).
    eapply IH; [| |exact E2].
    + intros a' b' Ha'. apply Hbody. right. exact Ha'.
    + eapply Hbody; [left; reflexivity | exact Hb | exact E1].
Qed.

Lemma for_float_ensures {S} (J : S -> Prop) (body : Q -> S -> M Pix S) (lo hi step : Q) :
  (0 <= step)%Q ->
  (forall x b, (lo <= x <= hi)%Q -> J b -> ensures (body x b) J) ->
  forall fuel x b, (lo <= x)%Q -> J b -> ensures (for_float fuel x hi step body b) J.
Proof.
  intros Hstep Hbody. induction fuel as [|fuel IH]; intros x b Hx Hb s r s' E;
    cbn [for_float] in E.
  - discriminate E.
  - destruct (Qle_bool x hi) eqn:Hle.
    + apply Qle_bool_iff in Hle.
      apply bind_Ok_inv in E as (b1 & s1 & E1 & E2).
      eapply IH; [| |exact E2]; [lra|].
      eapply Hbody; [split; [exact Hx | exact Hle] | exact Hb | exact E1].
    + apply ret_Ok_inv in E as [<- _]. exact Hb.
Qed.

End LoopInvariants.

Section SlowSearch.
Context {Pix : Type} {B : ImageBackend Pix} {L : ImageBackendLaws B}.
Implicit Types (img t e : EMData Pix) (this_img to : option (EMData Pix)) (s : State Pix).

Lemma improve_within m cm ang dx dy flip b :
  (- m <= dx <= m)%Q -> (- m <= dy <= m)%Q -> within m b ->
  within m (improve cm ang dx dy flip b).
Proof.
  intros Hx Hy Hb. unfold improve. destruct (Qlt_bool _ _); [|exact Hb].
  split; assumption.
Qed.

Lemma rtf_slow_candidate_within m src ref ref_flip cmp_name cmp_params dx dy ang b :
  (- m <= dx <= m)%Q -> (- m <= dy <= m)%Q -> within m b ->
  ensures (rtf_slow_candidate src ref ref_flip cmp_name cmp_params dx dy ang b) (within m).
Proof.
  intros Hx Hy Hb s r s' E. unfold rtf_slow_candidate in E. run_inv.
  apply improve_within; [assumption..|]. apply improve_within; assumption.
Qed.


(** X17: how far the slow exhaustive search can move the image.  With
    [maxshift] the caller's value, or a tenth of the width when it converts
    to a negative number, and provided it is not negative, the translation
    of the Transform attached to the returned image lies, on each axis,
    within [2 * (maxshift / 2) + 3] pixels of the origin (the division
    truncating) and has third component 0: the coarse search on the
    half-size images stays within half of [maxshift], and the fine search
    within 3 pixels of twice the coarse result. *)
Theorem slow_search_offsets img to cmp_name cmp_params (p : Dict Pix) r tr :
  run (RTFSlowExhaustiveAligner_align (Some img) to cmp_name cmp_params) p = (Ok r, tr) ->
  exists m e tf,
    EMObject_to_int (Dict_read "maxshift" (INT (-1)) p) = inr m
    /\ r = Some e
    /\ transform_attr "xform.align2d" e = Some tf
    /\ let maxshift := if m <? 0 then get_xsize img ÷ 10 else m in
       (0 <= maxshift ->
        let bound := inject_Z (2 * (maxshift ÷ 2) + 3) in
        exists dx dy, t_trans tf = (dx, dy, 0%Q)
                      /\ (- bound <= dx <= bound)%Q /\ (- bound <= dy <= bound)%Q).
Proof.
  intros E. apply run_inv_eq in E as (s' & E & <-).
  unfold RTFSlowExhaustiveAligner_align in E. run_inv_st.
  match goal with
  | H : EMObject_to_int (Dict_read "maxshift" _ _) = inr ?m |- _ =>
      rewrite (Dict_read_ext "maxshift" _ p) in H
        by (rewrite ?Dict_set_default_lookup_ne by discriminate; reflexivity);
      exists m; rename H into Hmax
  end.
  do 2 eexists. split; [exact Hmax|]. split; [reflexivity|].
  split.
  { unfold transform_attr. rewrite transform_keeps_attrs. cbn.
    rewrite lookup_insert_eq. reflexivity. }
  cbv zeta. intros Hms.
  match goal with |- context [bestflip ?b] => set (best := b) in * end.
  match type of Hms with 0 <= ?x => set (ms := x) in * end.
  set (h := ms ÷ 2) in *.
  assert (Hh : 0 <= h) by (subst h; apply Z.quot_pos; lia).
  assert (Hhq : (0 <= inject_Z h)%Q) by (change 0%Q with (inject_Z 0); rewrite <- Zle_Qle; lia).
  repeat match goal with
  | H : Qle_bool _ 0 = false |- _ => apply Qle_bool_false_lt in H
  end.
  (* the coarse stage *)
  match goal with
  | H : for_int _ _ _ ?b0 _ = (Ok ?b1, _) |- _ =>
      assert (Hcoarse : within (inject_Z h) b1);
      [ unfold for_int in H; revert H;
        apply (for_each_ensures (within (inject_Z h))) | clear H ]
  end.
  { intros dy b Hdy Hb.
    apply list_elem_of_In, elem_of_seqZ in Hdy.
    assert (Hdyq : (- inject_Z h <= inject_Z dy <= inject_Z h)%Q).
    { rewrite <- inject_Z_opp, <- !Zle_Qle. lia. }
    intros s0 r0 s0'. apply for_float_ensures with (lo := (- inject_Z h)%Q);
      [lra | | apply Qle_refl | exact Hb].
    intros dx b' Hdx Hb'. destruct (hypot_le _ _ _); [|intros ? ? ? E0;
      apply ret_Ok_inv in E0 as [<- _]; exact Hb'].
    intros s1 r1 s1'.
    match goal with |- for_float _ ?x0 _ _ _ _ _ = _ -> _ =>
      apply for_float_ensures with (lo := x0); [lra | | apply Qle_refl | exact Hb'] end.
    intros ang b'' _ Hb''. apply rtf_slow_candidate_within; assumption. }
  { split; cbn; lra. }
  (* the fine stage *)
  set (bound := inject_Z (2 * h + 3)).
  assert (Hbound : (bound == 2 * inject_Z h + 3)%Q).
  { subst bound. rewrite inject_Z_plus, inject_Z_mult. reflexivity. }
  destruct Hcoarse as [H1x H1y].
  assert (Hfine : within bound best).
  { subst best.
    match goal with
    | H : for_float _ ?x0 _ _ _ ?b0 _ = (Ok ?b1, _) |- within _ ?b1 =>
        revert H; apply for_float_ensures with (lo := x0)
    end; [lra | | apply Qle_refl | split; cbn; lra].
    intros dy b Hdy Hb. cbn [bestdy bestdx] in Hdy.
    intros s0 r0 s0'.
    match goal with |- for_float _ ?x0 _ _ _ _ _ = _ -> _ =>
      apply for_float_ensures with (lo := x0); [lra | | apply Qle_refl | exact Hb] end.
    intros dx b' Hdx Hb'. cbn [bestdy bestdx] in Hdx.
    destruct (hypot_le _ _ _); [|intros ? ? ? E0;
      apply ret_Ok_inv in E0 as [<- _]; exact Hb'].
    intros s1 r1 s1'.
    match goal with |- for_float _ ?x0 _ _ _ _ _ = _ -> _ =>
      apply for_float_ensures with (lo := x0); [lra | | apply Qle_refl | exact Hb'] end.
    intros ang b'' _ Hb''. apply rtf_slow_candidate_within; [lra | lra | exact Hb'']. }
  destruct Hfine as [H2x H2y].
  exists (bestdx best), (bestdy best).
  split; [destruct (negb _); reflexivity|]. split; assumption.
Qed.

End SlowSearch.

(** A pair of 16 x 16 images with [maxshift] 3: the translation stays
    within 5 pixels. *)
Lemma slow_search_offsets_witness :
  exists r tr,
    run (RTFSlowExhaustiveAligner_align (B:=Toy.ties) (Some Toy.moving)
           (Some Toy.reference) "dot" ∅) Toy.intonly_params = (Ok r, tr)
    /\ exists m e tf,
         EMObject_to_int (Dict_read "maxshift" (INT (-1)) Toy.intonly_params) = inr m
         /\ r = Some e
         /\ transform_attr "xform.align2d" e = Some tf
         /\ let maxshift := if m <? 0 then get_xsize Toy.moving ÷ 10 else m in
            (0 <= maxshift ->
             let bound := inject_Z (2 * (maxshift ÷ 2) + 3) in
             exists dx dy, t_trans tf = (dx, dy, 0%Q)
                           /\ (- bound <= dx <= bound)%Q /\ (- bound <= dy <= bound)%Q).
Proof.
  do 2 eexists. split; [vm_compute; reflexivity|].
  eapply (slow_search_offsets (B:=Toy.ties)
            (L:=Toy_backend_laws Toy.constant_score Toy.never_shrinking)
            Toy.moving (Some Toy.reference) "dot" ∅ Toy.intonly_params).
  vm_compute; reflexivity.
Defined.

(** ** CUDA_Aligner: the image stack and the search for the best pose *)

Section Loops.

Lemma foldM_seqZ_inv {S} (I : Z -> S -> Prop) (body : Z -> S -> option S) (n : nat) :
  forall lo s,
    I lo s ->
    (forall i s, lo <= i < lo + Z.of_nat n -> I i s ->
                 exists s', body i s = Some s' /\ I (i + 1) s') ->
    exists s', CUDA.foldM (seqZ lo (Z.of_nat n)) body s = Some s' /\ I (lo + Z.of_nat n) s'.
Proof.
  induction n as [|n IH]; intros lo s H0 Hstep.
  - exists s. cbn. rewrite Z.add_0_r. auto.
  - rewrite Nat2Z.inj_succ, seqZ_cons by lia. cbn [CUDA.foldM].
    destruct (Hstep lo s) as (s1 & -> & H1); [lia | exact H0 |].
    replace (Z.pred (Z.succ (Z.of_nat n))) with (Z.of_nat n) by lia.
    destruct (IH (Z.succ lo) s1) as (s' & Hs' & HI).
    + replace (Z.succ lo) with (lo + 1) by lia. exact H1.
    + intros i s2 Hi. apply Hstep. lia.
    + exists s'. split; [exact Hs'|].
      replace (lo + Z.succ (Z.of_nat n)) with (Z.succ lo + Z.of_nat n) by lia. exact HI.
Qed.


Lemma load_Some_range (b : CUDA.buffer) i v :
  CUDA.load b i = Some v -> 0 <= i < Z.of_nat (length b).
Proof.
  unfold CUDA.load. destruct (Z.ltb_spec i 0); [discriminate|].
  destruct (b !! Z.to_nat i) as [o|] eqn:E; [|discriminate]. intros _.
  apply lookup_lt_Some in E. lia.
Qed.

Lemma store_Some (b : CUDA.buffer) i v :
  0 <= i < Z.of_nat (length b) ->
  exists b', CUDA.store b i v = Some b'
             /\ length b' = length b
             /\ CUDA.load b' i = Some v
             /\ forall j, j <> i -> CUDA.load b' j = CUDA.load b j.
Proof.
  intros Hi. unfold CUDA.store.
  destruct (Z.leb_spec 0 i); [|lia]. destruct (Z.ltb_spec i (Z.of_nat (length b))); [|lia].
  cbn [andb]. eexists. split; [reflexivity|]. split; [apply length_insert|]. split.
  - unfold CUDA.load. destruct (Z.ltb_spec i 0); [lia|].
    rewrite list_lookup_insert_eq by lia. reflexivity.
  - intros j Hj. unfold CUDA.load. destruct (Z.ltb_spec j 0); [reflexivity|].
    rewrite list_lookup_insert_ne by lia. reflexivity.
Qed.

Lemma store_None (b : CUDA.buffer) i v :
  ~ 0 <= i < Z.of_nat (length b) -> CUDA.store b i v = None.
Proof.
  intros Hi. unfold CUDA.store.
  destruct (Z.leb_spec 0 i); destruct (Z.ltb_spec i (Z.of_nat (length b)));
    cbn [andb]; try reflexivity. lia.
Qed.

End Loops.

Section ImageStack.

Lemma copy_row (b : CUDA.buffer) off ny (f : Z -> Q) :
  0 <= ny -> 0 <= off -> off + ny <= Z.of_nat (length b) ->
  exists b', CUDA.foldM (seqZ 0 ny) (fun y b => CUDA.store b (off + y) (f y)) b = Some b'
             /\ length b' = length b
             /\ forall i, CUDA.load b' i
                          = if (off <=? i) && (i <? off + ny) then Some (f (i - off))
                            else CUDA.load b i.
Proof.
  intros Hny Hoff Hlen.
  destruct (foldM_seqZ_inv
              (fun y b' => length b' = length b
                           /\ forall i, CUDA.load b' i
                                        = if (off <=? i) && (i <? off + y)
                                          then Some (f (i - off)) else CUDA.load b i)
              (fun y b => CUDA.store b (off + y) (f y)) (Z.to_nat ny) 0 b)
    as (b' & Hb' & Hlen' & Hload).
  - split; [reflexivity|]. intros i.
    destruct (Z.leb_spec off i); destruct (Z.ltb_spec i (off + 0)); cbn [andb];
      try reflexivity; lia.
  - intros y b1 Hy [Hl1 Hload1].
    destruct (store_Some b1 (off + y) (f y)) as (b2 & -> & Hl2 & Hat & Hother); [lia|].
    exists b2. split; [reflexivity|]. split; [lia|]. intros i.
    destruct (Z.eq_dec i (off + y)) as [->|Hne].
    + rewrite Hat.
      destruct (Z.leb_spec off (off + y)); destruct (Z.ltb_spec (off + y) (off + (y + 1)));
        cbn [andb]; try lia.
      f_equal. f_equal. lia.
    + rewrite (Hother i Hne), Hload1.
      destruct (Z.leb_spec off i); destruct (Z.ltb_spec i (off + y));
        destruct (Z.ltb_spec i (off + (y + 1))); cbn [andb]; try reflexivity; lia.
  - rewrite Z2Nat.id in * by lia. exists b'. rewrite !Z.add_0_l in Hload. auto.
Qed.

Lemma copy_image_spec (b : CUDA.buffer) base nx ny (image : Z -> Z -> Q) :
  0 <= nx -> 0 <= ny -> 0 <= base -> base + nx * ny <= Z.of_nat (length b) ->
  exists b', CUDA.copy_image b base nx ny image = Some b'
             /\ length b' = length b
             /\ forall i, CUDA.load b' i
                          = if (base <=? i) && (i <? base + nx * ny)
                            then Some (image ((i - base) / ny) ((i - base) mod ny))
                            else CUDA.load b i.
Proof.
  intros Hnx Hny Hbase Hlen. unfold CUDA.copy_image.
  destruct (foldM_seqZ_inv
              (fun x b' => length b' = length b
                           /\ forall i, CUDA.load b' i
                                        = if (base <=? i) && (i <? base + x * ny)
                                          then Some (image ((i - base) / ny) ((i - base) mod ny))
                                          else CUDA.load b i)
              (fun x b => CUDA.foldM (seqZ 0 ny)
                            (fun y b => CUDA.store b (base + x * ny + y) (image x y)) b)
              (Z.to_nat nx) 0 b)
    as (b' & Hb' & Hlen' & Hload).
  - split; [reflexivity|]. intros i.
    destruct (Z.leb_spec base i); destruct (Z.ltb_spec i (base + 0 * ny)); cbn [andb];
      try reflexivity; lia.
  - intros x b1 Hx [Hl1 Hload1].
    destruct (copy_row b1 (base + x * ny) ny (image x)) as (b2 & -> & Hl2 & Hrow);
      [lia | nia | nia |].
    exists b2. split; [reflexivity|]. split; [lia|]. intros i.
    rewrite Hrow, Hload1.
    destruct (Z.leb_spec (base + x * ny) i);
      destruct (Z.ltb_spec i (base + x * ny + ny));
      destruct (Z.leb_spec base i);
      destruct (Z.ltb_spec i (base + x * ny));
      destruct (Z.ltb_spec i (base + (x + 1) * ny)); cbn [andb]; try reflexivity; try nia.
    f_equal.
    assert (Hq : (i - base) / ny = x)
      by (symmetry; apply Z.div_unique with (i - base - x * ny); [left; nia | nia]).
    assert (Hr : (i - base) mod ny = i - (base + x * ny))
      by (symmetry; apply Z.mod_unique with x; [left; nia | nia]).
    rewrite Hq, Hr. reflexivity.
  - rewrite Z2Nat.id in * by lia. exists b'. rewrite !Z.add_0_l in Hload. auto.
Qed.

End ImageStack.

Section InsertImage.

Lemma setup_allocates nima nx ny ring_length nring step kx ky :
  0 <= nima -> 0 <= nx -> 0 <= ny ->
  stack_allocated (CUDA.setup nima nx ny ring_length nring step kx ky).
Proof.
  intros H1 H2 H3. unfold stack_allocated, CUDA.setup, CUDA.malloc. cbn.
  repeat split; try assumption. rewrite length_replicate. nia.
Qed.

(** X18: storing an image in the stack of the CUDA aligner.  On an aligner
    whose stack is the block [setup] allocates, [insert_image] with an
    image number from 0 to [NIMA - 1] succeeds, leaves the stack so
    allocated, and afterwards the cell [num * NX * NY + x * NY + y] holds
    the pixel [(x, y)] of the image for every pixel, every cell outside the
    slot of image [num] holding what it held, and [ccf] being untouched.
    With any other image number (the images not being empty) a write falls
    outside the block: nothing checks the number. *)
Theorem insert_image_round_trip (c : CUDA.CUDA_Aligner) (image : Z -> Z -> Q) (num : Z) :
  stack_allocated c ->
  (0 <= num < CUDA.NIMA c ->
   exists c',
     CUDA.insert_image c image num = Some c'
     /\ stack_allocated c'
     /\ (forall x y, 0 <= x < CUDA.NX c -> 0 <= y < CUDA.NY c ->
                     CUDA.load (CUDA.image_stack c')
                       (num * CUDA.NX c * CUDA.NY c + x * CUDA.NY c + y)
                     = Some (image x y))
     /\ (forall i, ~ (num * CUDA.NX c * CUDA.NY c <= i < (num + 1) * CUDA.NX c * CUDA.NY c) ->
                   CUDA.load (CUDA.image_stack c') i = CUDA.load (CUDA.image_stack c) i)
     /\ CUDA.ccf c' = CUDA.ccf c)
  /\ (0 < CUDA.NX c -> 0 < CUDA.NY c -> ~ 0 <= num < CUDA.NIMA c ->
      CUDA.insert_image c image num = None).
Proof.
  intros (Hn & Hx & Hy & Hlen).
  rewrite <- !Z.mul_assoc in *.
  assert (HP : 0 <= CUDA.NX c * CUDA.NY c) by nia.
  split.
  - intros Hnum. unfold CUDA.insert_image. rewrite <- !Z.mul_assoc.
    destruct (copy_image_spec (CUDA.image_stack c) (num * (CUDA.NX c * CUDA.NY c))
                (CUDA.NX c) (CUDA.NY c) image) as (b' & -> & Hlen' & Hload);
      [lia | lia | nia | nia |].
    eexists. split; [reflexivity|]. cbn.
    split; [unfold stack_allocated; cbn; rewrite <- !Z.mul_assoc;
            repeat split; try assumption; lia|].
    split; [|split; [|reflexivity]].
    + intros x y Hx' Hy'. rewrite Hload.
      destruct (Z.leb_spec (num * (CUDA.NX c * CUDA.NY c))
                  (num * (CUDA.NX c * CUDA.NY c) + x * CUDA.NY c + y)); [|nia].
      destruct (Z.ltb_spec (num * (CUDA.NX c * CUDA.NY c) + x * CUDA.NY c + y)
                  (num * (CUDA.NX c * CUDA.NY c) + CUDA.NX c * CUDA.NY c)); [|nia].
      cbn [andb]. f_equal.
      replace (num * (CUDA.NX c * CUDA.NY c) + x * CUDA.NY c + y
               - num * (CUDA.NX c * CUDA.NY c))
        with (x * CUDA.NY c + y) by lia.
      rewrite Z.div_add_l, Z.div_small, Z.add_0_r by lia.
      rewrite Z.add_comm, Z.mod_add, Z.mod_small by lia. reflexivity.
    + intros i Hi. rewrite Hload.
      destruct (Z.leb_spec (num * (CUDA.NX c * CUDA.NY c)) i);
        destruct (Z.ltb_spec i (num * (CUDA.NX c * CUDA.NY c) + CUDA.NX c * CUDA.NY c));
        cbn [andb]; try reflexivity. nia.
  - intros Hx' Hy' Hnum. unfold CUDA.insert_image, CUDA.copy_image.
    rewrite (seqZ_cons 0 (CUDA.NX c)) by lia. cbn [CUDA.foldM].
    rewrite (seqZ_cons 0 (CUDA.NY c)) by lia. cbn [CUDA.foldM].
    rewrite store_None; [reflexivity|]. nia.
Qed.

End InsertImage.

Section Search.
Variable c : CUDA.CUDA_Aligner.
Variable ccf : list (option Q).
Variable im : Z.
Variable previous : option CUDA.Pose.

Abbreviation inv := (best_so_far c ccf im previous).








End Search.

Section Bounds.


End Bounds.

Section Alignment.
Variable calculate_ccf :
  list (option Q) -> list (option Q) -> list (option Q) ->
  Z -> Z -> Z -> Z -> Z -> Q -> Z -> Z -> list (option Q).






End Alignment.

(** ** The CUDA aligner on concrete data *)


(** The second image of a freshly set up aligner, and an image number out
    of range. *)
Lemma insert_image_round_trip_witness :
  stack_allocated CudaCases.aligner
  /\ (exists c',
        CUDA.insert_image CudaCases.aligner CudaCases.pixel 1 = Some c'
        /\ stack_allocated c'
        /\ (forall x y, 0 <= x < CUDA.NX CudaCases.aligner ->
                        0 <= y < CUDA.NY CudaCases.aligner ->
                        CUDA.load (CUDA.image_stack c')
                          (1 * CUDA.NX CudaCases.aligner * CUDA.NY CudaCases.aligner
                           + x * CUDA.NY CudaCases.aligner + y)
                        = Some (CudaCases.pixel x y))
        /\ (forall i, ~ (1 * CUDA.NX CudaCases.aligner * CUDA.NY CudaCases.aligner <= i
                         < (1 + 1) * CUDA.NX CudaCases.aligner * CUDA.NY CudaCases.aligner) ->
                      CUDA.load (CUDA.image_stack c') i
                      = CUDA.load (CUDA.image_stack CudaCases.aligner) i)
        /\ CUDA.ccf c' = CUDA.ccf CudaCases.aligner)
  /\ CUDA.insert_image CudaCases.aligner CudaCases.pixel 2 = None.
Proof.
  assert (H : stack_allocated CudaCases.aligner).
  { apply setup_allocates; lia. }
  split; [exact H|]. split.
  - apply (insert_image_round_trip CudaCases.aligner CudaCases.pixel 1 H). cbn. lia.
  - apply (insert_image_round_trip CudaCases.aligner CudaCases.pixel 2 H); cbn; lia.
Defined.



(** ** The conversions of an EMObject *)

Section Conversions.
Context {Pix : Type}.
Implicit Types (o : EMObject Pix).



End Conversions.

